(** * Reactive dependency tracking and effect scheduling
    A shallow embedding of [packages/reactivity/src/effect.ts]:
    the registry [targetMap], the tracking context (active effect, effect
    stack, tracking depth and its bit marker, the should-track stack), the
    [ReactiveEffect] life cycle ([run], [stop]) and the [track]/[trigger]
    protocol, followed by the properties established about them. *)

From Stdlib Require Import ZArith String Ascii Lia.
From stdpp Require Import base decidable option list strings.

Local Open Scope Z_scope.

(** ** Identities

    JavaScript objects are compared by reference.  Effects and [Dep] sets live
    in two heaps of the state and are named by their index there; user
    functions are named by an index into the program text. *)

Abbreviation EffId := nat (only parsing).
Abbreviation DepId := nat (only parsing).
Abbreviation FnId := nat (only parsing).

(** ** Targets and keys *)

(** What [isArray] and [isMap] (from @vue/shared) can tell about a target. *)
Inductive TargetKind := ArrayT | MapT | ObjectT.

Record Target := mkTarget { target_id : nat; target_kind : TargetKind }.

Definition isArray (t : Target) : bool :=
  match target_kind t with ArrayT => true | _ => false end.

Definition isMap (t : Target) : bool :=
  match target_kind t with MapT => true | _ => false end.

(** Property keys are strings or symbols. *)
Inductive Key := KStr (s : string) | KSym (id : nat).

Definition ITERATE_KEY : Key := KSym 0.
Definition MAP_KEY_ITERATE_KEY : Key := KSym 1.
Definition LENGTH_KEY : Key := KStr "length".

(** The four members of [TriggerOpTypes] (operations.ts). *)
Inductive TriggerOpTypes := SET | ADD | DELETE | CLEAR.

#[global] Instance TargetKind_eq_dec : EqDecision TargetKind.
Proof. solve_decision. Defined.
#[global] Instance Target_eq_dec : EqDecision Target.
Proof. solve_decision. Defined.
#[global] Instance Key_eq_dec : EqDecision Key.
Proof. solve_decision. Defined.
#[global] Instance TriggerOpTypes_eq_dec : EqDecision TriggerOpTypes.
Proof. solve_decision. Defined.

(** Thrown values: the [TypeError] of the language itself, or whatever a user
    function throws. *)
Inductive Err := TypeError | UserError (code : nat).

(** ** Numbers out of strings

    [key >= newValue] converts a string key with the language's ToNumber
    (StringToNumber).  The literal is read exactly, as a sign, a decimal
    mantissa and a decimal exponent; the rounding to a double is not
    computed, and where the answer of a comparison would depend on it the
    comparison has no result here.  Strings hold 8-bit characters; a string
    with a character beyond ASCII is not given a number. *)

Definition code (a : ascii) : Z := Z.of_nat (nat_of_ascii a).

Definition digit_of (a : ascii) : option Z :=
  let c := Z.of_nat (nat_of_ascii a) in
  if (48 <=? c) && (c <=? 57) then Some (c - 48) else None.

(** The value of a string of decimal digits, [None] when another character
    occurs. *)
Fixpoint digits_value (s : string) (acc : Z) : option Z :=
  match s with
  | EmptyString => Some acc
  | String a r =>
      match digit_of a with
      | Some d => digits_value r (10 * acc + d)
      | None => None
      end
  end.

(** A digit of the given radix (2, 8, 10 or 16), in either case. *)
Definition radix_digit_of (radix : Z) (a : ascii) : option Z :=
  let c := code a in
  let d := if (48 <=? c) && (c <=? 57) then c - 48
           else if (97 <=? c) && (c <=? 102) then c - 87
           else if (65 <=? c) && (c <=? 70) then c - 55
           else radix in
  if d <? radix then Some d else None.

Fixpoint radix_value (radix : Z) (l : list ascii) (acc : Z) : option Z :=
  match l with
  | [] => Some acc
  | a :: r =>
      match radix_digit_of radix a with
      | Some d => radix_value radix r (radix * acc + d)
      | None => None
      end
  end.

(** The longest prefix of decimal digits, and what follows it. *)
Fixpoint span_digits (l : list ascii) : list ascii * list ascii :=
  match l with
  | a :: r =>
      match digit_of a with
      | Some _ => let '(ds, rest) := span_digits r in (a :: ds, rest)
      | None => ([], l)
      end
  | [] => ([], [])
  end.

(** StrWhiteSpaceChar within ASCII: TAB, LF, VT, FF, CR and the space. *)
Definition isStrWhiteSpaceChar (a : ascii) : bool :=
  let c := code a in ((9 <=? c) && (c <=? 13)) || (c =? 32).

Fixpoint trim_left (l : list ascii) : list ascii :=
  match l with
  | a :: r => if isStrWhiteSpaceChar a then trim_left r else l
  | [] => []
  end.

Definition trim (l : list ascii) : list ascii :=
  reverse (trim_left (reverse (trim_left l))).

(** A Number as far as it is read here: NaN, an infinity, or the exact value
    (-1)^neg * m * 10^e of a literal, with [m] not negative. *)
Inductive Number := NNaN | NInf (neg : bool) | NDec (neg : bool) (m : Z) (e : Z).

(** ExponentPart(opt): nothing, or [e] or [E] with a signed integer. *)
Definition exponent_of (l : list ascii) : option Z :=
  match l with
  | [] => Some 0
  | c :: r =>
      if Ascii.eqb c "e" || Ascii.eqb c "E" then
        let '(neg, ds) :=
          match r with
          | s :: r' =>
              if Ascii.eqb s "+" then (false, r')
              else if Ascii.eqb s "-" then (true, r')
              else (false, r)
          | [] => (false, r)
          end in
        match ds with
        | [] => None
        | _ :: _ =>
            match radix_value 10 ds 0 with
            | Some x => Some (if neg then - x else x)
            | None => None
            end
        end
      else None
  end.

(** StrUnsignedDecimalLiteral other than [Infinity]: digits with an optional
    fraction and exponent, or a fraction with an optional exponent. *)
Definition unsigned_decimal (l : list ascii) : option (Z * Z) :=
  let '(ip, r1) := span_digits l in
  match r1 with
  | c :: r2 =>
      if Ascii.eqb c "." then
        let '(fp, r3) := span_digits r2 in
        match ip ++ fp with
        | [] => None
        | _ :: _ =>
            match exponent_of r3, radix_value 10 (ip ++ fp) 0 with
            | Some x, Some m => Some (m, x - Z.of_nat (length fp))
            | _, _ => None
            end
        end
      else
        match ip with
        | [] => None
        | _ :: _ =>
            match exponent_of r1, radix_value 10 ip 0 with
            | Some x, Some m => Some (m, x)
            | _, _ => None
            end
        end
  | [] =>
      match ip with
      | [] => None
      | _ :: _ =>
          match radix_value 10 ip 0 with
          | Some m => Some (m, 0)
          | None => None
          end
      end
  end.

(** StrDecimalLiteral: an optional sign before [Infinity] or an unsigned
    decimal literal. *)
Definition str_decimal (l : list ascii) : Number :=
  let '(neg, u) :=
    match l with
    | s :: r =>
        if Ascii.eqb s "+" then (false, r)
        else if Ascii.eqb s "-" then (true, r)
        else (false, l)
    | [] => (false, l)
    end in
  if String.eqb (string_of_list_ascii u) "Infinity" then NInf neg
  else
    match unsigned_decimal u with
    | Some (m, e) => NDec neg m e
    | None => NNaN
    end.

(** NonDecimalIntegerLiteral: [0x], [0o] or [0b], in either case, before at
    least one digit of that radix. *)
Definition non_decimal (l : list ascii) : option Z :=
  match l with
  | z :: c :: d :: r =>
      if Ascii.eqb z "0" then
        if Ascii.eqb c "x" || Ascii.eqb c "X" then radix_value 16 (d :: r) 0
        else if Ascii.eqb c "o" || Ascii.eqb c "O" then radix_value 8 (d :: r) 0
        else if Ascii.eqb c "b" || Ascii.eqb c "B" then radix_value 2 (d :: r) 0
        else None
      else None
  | _ => None
  end.

(** StringToNumber: white space around the literal is dropped; nothing is
    left for 0; what is no literal is NaN.  [None] for a string with a
    character beyond ASCII. *)
Definition StringToNumber (s : string) : option Number :=
  let l := list_ascii_of_string s in
  if existsb (λ a, 127 <? code a) l then None
  else
    Some match trim l with
         | [] => NDec false 0 0
         | t =>
             match non_decimal t with
             | Some m => NDec false m 0
             | None => str_decimal t
             end
         end.

(** [n >= v] for the Number of a string and an integer [v], which stands
    for the double of that value.  The literal is rounded to a double before
    it is compared.  Beyond 10^400 that double is an infinity and below
    10^-400 a zero.  An integer of magnitude up to 2^53 is its own double
    and is compared as it is.  Otherwise, for [v] of magnitude below 2^53: a
    value not below [v] rounds to a double not below [v]; a value below [v]
    by at least 2^-52 of the magnitude of [v] (of 1 for a [v] that is 0)
    rounds to a double below [v]; in between the answer depends on the
    rounding and is left open ([None]). *)
Definition number_ge (n : Number) (v : Z) : option bool :=
  match n with
  | NNaN => Some false
  | NInf neg => Some (negb neg)
  | NDec neg m e =>
      if m =? 0 then Some (v <=? 0)
      else if 400 <? e then Some (negb neg)
      else if Z.log2 m + 1 + e <=? - 400 then Some (v <=? 0)
      else
        let num := (if neg then - m else m) * 10 ^ Z.max e 0 in
        let den := 10 ^ Z.max (- e) 0 in
        if (num mod den =? 0) && (Z.abs (num / den) <=? 2 ^ 53)
        then Some (v <=? num / den)
        else if Z.abs v <? 2 ^ 53 then
          if v * den <=? num then Some true
          else if num * 2 ^ 52 <=? (v * 2 ^ 52 - Z.max (Z.abs v) 1) * den
          then Some false
          else None
        else None
  end.

(** [key >= newValue] for a key of a [Map] and the optional number handed to
    [trigger]: a symbol cannot be converted to a number and throws; a
    comparison with NaN or with [undefined] is false; [None] where the
    comparison is left open. *)
Definition key_ge (k : Key) (newValue : option Z) : option (Err + bool) :=
  match k with
  | KSym _ => Some (inl TypeError)
  | KStr s =>
      match newValue with
      | None => Some (inr false)
      | Some v =>
          match StringToNumber s with
          | Some n => inr <$> number_ge n v
          | None => None
          end
      end
  end.

(** Modelled from the spec: [isIntegerKey] of @vue/shared is not among the
    sources; the spec speaks of "an add at an integer index".  A key is an
    integer key when it is the canonical decimal numeral of a natural
    number. *)
Definition isIntegerKey (k : Key) : bool :=
  match k with
  | KSym _ => false
  | KStr s =>
      match s with
      | EmptyString => false
      | String a r =>
          match digits_value s 0 with
          | Some _ => negb (Ascii.eqb a "0"%char) || String.eqb r EmptyString
          | None => false
          end
      end
  end.

(** ** Dependency sets *)

(** A JavaScript [Set] of effects in insertion order. *)
Definition set_add (e : EffId) (l : list EffId) : list EffId :=
  if decide (e ∈ l) then l else l ++ [e].

Definition set_delete (e : EffId) (l : list EffId) : list EffId :=
  filter (λ x, x ≠ e) l.

Definition set_of (l : list EffId) : list EffId :=
  foldl (λ acc e, set_add e acc) [] l.

Module Dep.
(** [Dep = Set<ReactiveEffect> & { w: number; n: number }] *)
Record t := mk { members : list EffId; w : Z; n : Z }.

Definition add (e : EffId) (d : t) : t := mk (set_add e (members d)) (w d) (n d).
Definition delete (e : EffId) (d : t) : t := mk (set_delete e (members d)) (w d) (n d).
Definition set_w (x : Z) (d : t) : t := mk (members d) x (n d).
Definition set_n (x : Z) (d : t) : t := mk (members d) (w d) x.
End Dep.

(** Modelled from the spec: [createDep] of dep.ts is not among the sources.
    A Dependency Set is a set of effects with its two bit masks, both empty
    at creation. *)
Definition createDep (effs : list EffId) : Dep.t := Dep.mk (set_of effs) 0 0.

(** ** Effects *)

Record ReactiveEffect := mkEffect {
  active : bool;
  deps : list DepId;
  allowRecurse : bool;
  onStop : option FnId;
  fn : FnId;
  scheduler : option FnId
}.

Definition set_deps (l : list DepId) (eff : ReactiveEffect) : ReactiveEffect :=
  mkEffect (active eff) l (allowRecurse eff) (onStop eff) (fn eff) (scheduler eff).

Definition set_active (b : bool) (eff : ReactiveEffect) : ReactiveEffect :=
  mkEffect b (deps eff) (allowRecurse eff) (onStop eff) (fn eff) (scheduler eff).

(** [ReactiveEffectOptions]; [scope] and the two debugger hooks do not reach
    the tracking state and are left out. *)
Record ReactiveEffectOptions := mkOptions {
  lazy : bool;
  opt_scheduler : option FnId;
  opt_allowRecurse : bool;
  opt_onStop : option FnId
}.

(** ** Observations

    A ghost trace of the calls the engine makes, in order. *)
Inductive Event :=
| EvRun (e : EffId)       (* [run] of [e] entered *)
| EvTrigger (e : EffId)   (* [triggerEffects] let [e] through its guard *)
| EvSched (e : EffId)     (* the scheduler of [e] was called *)
| EvOnStop (e : EffId).   (* the [onStop] callback of [e] was called *)

#[global] Instance Event_eq_dec : EqDecision Event.
Proof. solve_decision. Defined.

(** ** The module state *)

Definition KeyToDepMap := list (Key * DepId).

Record State := mkState {
  effects : list ReactiveEffect;           (* heap of effect objects *)
  depHeap : list Dep.t;                    (* heap of Dep objects *)
  targetMap : list (Target * KeyToDepMap); (* target -> key -> dep *)
  effectTrackDepth : Z;
  trackOpBit : Z;
  effectStack : list EffId;
  activeEffect : option EffId;
  shouldTrack : bool;
  trackStack : list bool;
  log : list Event
}.

Definition initial_state : State :=
  mkState [] [] [] 0 1 [] None true [] [].

Definition maxMarkerBits : Z := 30.

Definition with_effects (x : list ReactiveEffect) (s : State) : State :=
  mkState x (depHeap s) (targetMap s) (effectTrackDepth s) (trackOpBit s)
    (effectStack s) (activeEffect s) (shouldTrack s) (trackStack s) (log s).
Definition with_depHeap (x : list Dep.t) (s : State) : State :=
  mkState (effects s) x (targetMap s) (effectTrackDepth s) (trackOpBit s)
    (effectStack s) (activeEffect s) (shouldTrack s) (trackStack s) (log s).
Definition with_targetMap (x : list (Target * KeyToDepMap)) (s : State) : State :=
  mkState (effects s) (depHeap s) x (effectTrackDepth s) (trackOpBit s)
    (effectStack s) (activeEffect s) (shouldTrack s) (trackStack s) (log s).
Definition with_depth (d b : Z) (s : State) : State :=
  mkState (effects s) (depHeap s) (targetMap s) d b
    (effectStack s) (activeEffect s) (shouldTrack s) (trackStack s) (log s).
Definition with_stack (st : list EffId) (a : option EffId) (s : State) : State :=
  mkState (effects s) (depHeap s) (targetMap s) (effectTrackDepth s) (trackOpBit s)
    st a (shouldTrack s) (trackStack s) (log s).
Definition with_tracking (b : bool) (ts : list bool) (s : State) : State :=
  mkState (effects s) (depHeap s) (targetMap s) (effectTrackDepth s) (trackOpBit s)
    (effectStack s) (activeEffect s) b ts (log s).
Definition emit (ev : Event) (s : State) : State :=
  mkState (effects s) (depHeap s) (targetMap s) (effectTrackDepth s) (trackOpBit s)
    (effectStack s) (activeEffect s) (shouldTrack s) (trackStack s) (log s ++ [ev]).

(** [1 << d] on 32-bit integers: the shift count is taken modulo 32 and bit
    31 is the sign. *)
Definition shl1 (d : Z) : Z :=
  let c := d mod 32 in
  if c =? 31 then - 2 ^ 31 else 2 ^ c.

(** ** Association lists in insertion order (a JavaScript [Map]) *)

Section AList.
Context {K V : Type} `{EqDecision K}.

Fixpoint alist_get (k : K) (m : list (K * V)) : option V :=
  match m with
  | [] => None
  | (k', v) :: r => if decide (k = k') then Some v else alist_get k r
  end.

Fixpoint alist_set (k : K) (v : V) (m : list (K * V)) : list (K * V) :=
  match m with
  | [] => [(k, v)]
  | (k', v') :: r =>
      if decide (k = k') then (k', v) :: r else (k', v') :: alist_set k v r
  end.
End AList.

(** ** Set-level operations on the heaps *)

Definition members_of (d : DepId) (s : State) : list EffId :=
  match depHeap s !! d with
  | Some dep => Dep.members dep
  | None => []
  end.

Definition deps_of (e : EffId) (s : State) : list DepId :=
  match effects s !! e with
  | Some eff => deps eff
  | None => []
  end.

(** Modelled from the spec: [wasTracked] and [newTracked] of dep.ts are not
    among the sources.  They test whether the "was tracked" and "newly
    tracked" bits of a Dependency Set include the current bit marker. *)
Definition wasTracked (bit : Z) (dep : Dep.t) : bool := 0 <? Z.land (Dep.w dep) bit.
Definition newTracked (bit : Z) (dep : Dep.t) : bool := 0 <? Z.land (Dep.n dep) bit.

Definition mark_w (bit : Z) (dep : Dep.t) : Dep.t := Dep.set_w (Z.lor (Dep.w dep) bit) dep.
Definition mark_n (bit : Z) (dep : Dep.t) : Dep.t := Dep.set_n (Z.lor (Dep.n dep) bit) dep.
Definition clear_marks (bit : Z) (dep : Dep.t) : Dep.t :=
  Dep.mk (Dep.members dep) (Z.land (Dep.w dep) (Z.lnot bit)) (Z.land (Dep.n dep) (Z.lnot bit)).

(** Modelled from the spec: [initDepMarkers] of dep.ts is not among the
    sources.  It marks every Dependency Set currently referencing the effect
    as "previously tracked at this depth". *)
Definition initDepMarkers (e : EffId) (s : State) : State :=
  with_depHeap
    (foldl (λ h d, alter (mark_w (trackOpBit s)) d h) (depHeap s) (deps_of e s)) s.

(** Modelled from the spec: [finalizeDepMarkers] of dep.ts is not among the
    sources.  Every Dependency Set of the effect's list that was marked
    "previously tracked" but not "newly tracked" is stale: the effect is
    removed from it and it is dropped from the list; the others stay, in
    order.  The two marks of this depth are cleared on the way, so that the
    next run at this depth starts from clean marks. *)
Fixpoint finalize_loop (e : EffId) (bit : Z) (ds : list DepId) (h : list Dep.t)
  : list Dep.t * list DepId :=
  match ds with
  | [] => (h, [])
  | d :: r =>
      match h !! d with
      | Some dep =>
          if wasTracked bit dep && negb (newTracked bit dep)
          then finalize_loop e bit r (alter (λ x, clear_marks bit (Dep.delete e x)) d h)
          else let '(h', kept) := finalize_loop e bit r (alter (clear_marks bit) d h) in
               (h', d :: kept)
      | None => let '(h', kept) := finalize_loop e bit r h in (h', d :: kept)
      end
  end.

Definition finalizeDepMarkers (e : EffId) (s : State) : State :=
  let '(h, kept) := finalize_loop e (trackOpBit s) (deps_of e s) (depHeap s) in
  with_effects (alter (set_deps kept) e (effects s)) (with_depHeap h s).

(** [cleanupEffect]: delete the effect from each Dep of its list, then empty
    the list. *)
Definition cleanupEffect (e : EffId) (s : State) : State :=
  with_effects (alter (set_deps []) e (effects s))
    (with_depHeap
       (foldl (λ h d, alter (Dep.delete e) d h) (depHeap s) (deps_of e s)) s).

(** ** The should-track stack *)

Definition pauseTracking (s : State) : State :=
  with_tracking false (trackStack s ++ [shouldTrack s]) s.

Definition enableTracking (s : State) : State :=
  with_tracking true (trackStack s ++ [shouldTrack s]) s.

Definition resetTracking (s : State) : State :=
  with_tracking (default true (last (trackStack s))) (removelast (trackStack s)) s.

Definition isTracking (s : State) : bool :=
  shouldTrack s && bool_decide (activeEffect s ≠ None).

(** ** track *)

(** [dep.add(activeEffect)] and [activeEffect.deps.push(dep)]. *)
Definition add_edge (d : DepId) (e : EffId) (s : State) : State :=
  with_effects (alter (λ eff, set_deps (deps eff ++ [d]) eff) e (effects s))
    (with_depHeap (alter (Dep.add e) d (depHeap s)) s).

(** [trackEffects(dep)], without the debugger hook.  [track] is its only
    caller here, with an effect active and a Dep of the heap. *)
Definition trackEffects (d : DepId) (s : State) : State :=
  match activeEffect s, depHeap s !! d with
  | Some e, Some dep =>
      if effectTrackDepth s <=? maxMarkerBits then
        if negb (newTracked (trackOpBit s) dep) then
          let s1 := with_depHeap (alter (mark_n (trackOpBit s)) d (depHeap s)) s in
          if negb (wasTracked (trackOpBit s) dep) then add_edge d e s1 else s1
        else s
      else
        if decide (e ∈ Dep.members dep) then s else add_edge d e s
  | _, _ => s
  end.

(** [track(target, type, key)]; the operation type only feeds the debugger
    event and is left out. *)
Definition track (target : Target) (key : Key) (s : State) : State :=
  if negb (isTracking s) then s
  else
    let s1 :=
      match alist_get target (targetMap s) with
      | Some _ => s
      | None => with_targetMap (alist_set target [] (targetMap s)) s
      end in
    let depsMap := default [] (alist_get target (targetMap s1)) in
    match alist_get key depsMap with
    | Some d => trackEffects d s1
    | None =>
        let d := length (depHeap s1) in
        trackEffects d
          (with_targetMap (alist_set target (alist_set key d depsMap) (targetMap s1))
             (with_depHeap (depHeap s1 ++ [createDep []]) s1))
    end.

(** ** The two halves of [run] around the call of [fn] *)

(** The [try] block up to the call: push, enable tracking, deepen, then mark
    or clean. *)
Definition run_enter (e : EffId) (s : State) : State :=
  let s1 := enableTracking (with_stack (effectStack s ++ [e]) (Some e) s) in
  let depth := effectTrackDepth s1 + 1 in
  let s2 := with_depth depth (shl1 depth) s1 in
  if depth <=? maxMarkerBits then initDepMarkers e s2 else cleanupEffect e s2.

(** The [finally] block. *)
Definition run_exit (e : EffId) (s : State) : State :=
  let s1 := if effectTrackDepth s <=? maxMarkerBits then finalizeDepMarkers e s else s in
  let depth := effectTrackDepth s1 - 1 in
  let s2 := resetTracking (with_depth depth (shl1 depth) s1) in
  let st := removelast (effectStack s2) in
  with_stack st (last st) s2.

(** ** User code

    A user function is known to the engine only through the calls it makes:
    a function body is the sequence of engine calls it performs, ended by a
    [return] or a [throw].  Bodies do not catch what their callees throw. *)

Inductive Value := VUndefined | VNum (z : Z) | VRunner (e : EffId).

(** The argument of [effect]: a plain function, or a runner that [effect]
    returned earlier. *)
Inductive FnArg := PlainFn (f : FnId) | RunnerFn (e : EffId).

Inductive Op :=
| OTrack (target : Target) (key : Key)
| OTrigger (target : Target) (type : TriggerOpTypes) (key : option Key) (newValue : option Z)
| ORun (e : EffId)
| OStop (e : EffId)
| OPauseTracking
| OEnableTracking
| OResetTracking
| OEffect (f : FnArg) (options : option ReactiveEffectOptions).

Inductive Ending := Return (v : Value) | Throw (err : Err).

Record Script := mkScript { ops : list Op; ending : Ending }.

Inductive Outcome := Returned (v : Value) | Threw (err : Err).

Definition outcome_of (fin : Ending) : Outcome :=
  match fin with
  | Return v => Returned v
  | Throw err => Threw err
  end.

(** Work items of the interpreter. *)
Inductive Cmd :=
| CCall (f : FnId)
| COps (l : list Op) (fin : Ending)
| COp (op : Op)
| CTriggerEffects (l : list EffId).

(** [None] stands for a computation that did not finish within the fuel,
    that names an effect that does not exist, or that meets a comparison
    which is left open. *)
Definition Res := option (Outcome * State).

(** ** trigger: which Dependency Sets a write concerns *)

Fixpoint length_deps (m : KeyToDepMap) (newValue : option Z)
  : option (Err + list (option DepId)) :=
  match m with
  | [] => Some (inr [])
  | (k, d) :: r =>
      if decide (k = LENGTH_KEY) then
        match length_deps r newValue with
        | Some (inr l) => Some (inr (Some d :: l))
        | other => other
        end
      else
        match key_ge k newValue with
        | Some (inr b) =>
            match length_deps r newValue with
            | Some (inr l) => Some (inr (if b then Some d :: l else l))
            | other => other
            end
        | Some (inl err) => Some (inl err)
        | None => None
        end
  end.

Definition structural_deps (depsMap : KeyToDepMap) (target : Target)
    (type : TriggerOpTypes) (key : option Key) : list (option DepId) :=
  match type with
  | ADD =>
      if negb (isArray target) then
        alist_get ITERATE_KEY depsMap ::
          (if isMap target then [alist_get MAP_KEY_ITERATE_KEY depsMap] else [])
      else if from_option isIntegerKey false key then [alist_get LENGTH_KEY depsMap]
      else []
  | DELETE =>
      if negb (isArray target) then
        alist_get ITERATE_KEY depsMap ::
          (if isMap target then [alist_get MAP_KEY_ITERATE_KEY depsMap] else [])
      else []
  | SET => if isMap target then [alist_get ITERATE_KEY depsMap] else []
  | CLEAR => []
  end.

(** The local array [deps] of [trigger], or the error thrown while it is
    filled; [None] where a comparison of the length branch is left open. *)
Definition collect_deps (depsMap : KeyToDepMap) (target : Target)
    (type : TriggerOpTypes) (key : option Key) (newValue : option Z)
  : option (Err + list (option DepId)) :=
  if decide (type = CLEAR) then Some (inr (map (λ kv, Some kv.2) depsMap))
  else if bool_decide (key = Some LENGTH_KEY) && isArray target then
    length_deps depsMap newValue
  else
    Some (inr (match key with Some k => [alist_get k depsMap] | None => [] end
               ++ structural_deps depsMap target type key)).

(** The effects handed to [triggerEffects], in the order of its loop: the
    one Dep as it is, or the Set made of all members of the collected Deps. *)
Definition snapshot_of (ds : list (option DepId)) (s : State) : option (list EffId) :=
  match ds with
  | [d] =>
      match d with
      | Some d => Some (members_of d s)
      | None => None
      end
  | _ =>
      Some (Dep.members (createDep
        (concat (map (λ d, match d with Some d => members_of d s | None => [] end) ds))))
  end.

(** ** The recursive functions, open in their recursive calls *)

Section Engine.
(** The program text: the body of each user function. *)
Variable prog : FnId → Script.

Section Open.
Variable rec : Cmd → State → Res.

(** [ReactiveEffect.run] *)
Definition run (e : EffId) (s0 : State) : Res :=
  let s := emit (EvRun e) s0 in
  match effects s !! e with
  | None => None
  | Some eff =>
      if negb (active eff) then rec (CCall (fn eff)) s
      else if decide (e ∈ effectStack s) then Some (Returned VUndefined, s)
      else
        match rec (CCall (fn eff)) (run_enter e s) with
        | Some (r, s2) => Some (r, run_exit e s2)
        | None => None
        end
  end.

(** [ReactiveEffect.stop] *)
Definition stop (e : EffId) (s : State) : Res :=
  match effects s !! e with
  | None => None
  | Some eff =>
      if active eff then
        let s1 := cleanupEffect e s in
        match onStop eff with
        | Some f =>
            match rec (CCall f) (emit (EvOnStop e) s1) with
            | Some (Returned _, s2) =>
                Some (Returned VUndefined,
                      with_effects (alter (set_active false) e (effects s2)) s2)
            | r => r
            end
        | None =>
            Some (Returned VUndefined,
                  with_effects (alter (set_active false) e (effects s1)) s1)
        end
      else Some (Returned VUndefined, s)
  end.

(** [triggerEffects] over the spread copy of its argument *)
Definition triggerEffects (l : list EffId) (s : State) : Res :=
  match l with
  | [] => Some (Returned VUndefined, s)
  | e :: rest =>
      match effects s !! e with
      | None => None
      | Some eff =>
          if bool_decide (activeEffect s ≠ Some e) || allowRecurse eff then
            let s1 := emit (EvTrigger e) s in
            match
              match scheduler eff with
              | Some f => rec (CCall f) (emit (EvSched e) s1)
              | None => rec (COp (ORun e)) s1
              end
            with
            | Some (Returned _, s2) => rec (CTriggerEffects rest) s2
            | r => r
            end
          else rec (CTriggerEffects rest) s
      end
  end.

(** The end of [trigger]: with one collected entry, that Dep if it
    exists; otherwise the Set of all members. *)
Definition notify_deps (ds : list (option DepId)) (s : State) : Res :=
  match snapshot_of ds s with
  | Some l => rec (CTriggerEffects l) s
  | None => Some (Returned VUndefined, s)
  end.

(** [trigger] *)
Definition trigger (target : Target) (type : TriggerOpTypes)
    (key : option Key) (newValue : option Z) (s : State) : Res :=
  match alist_get target (targetMap s) with
  | None => Some (Returned VUndefined, s)
  | Some depsMap =>
      match collect_deps depsMap target type key newValue with
      | Some (inl err) => Some (Threw err, s)
      | Some (inr ds) => notify_deps ds s
      | None => None
      end
  end.

(** [new ReactiveEffect(fn)] followed by [extend(_effect, options)] *)
Definition new_effect (g : FnId) (options : option ReactiveEffectOptions)
  : ReactiveEffect :=
  match options with
  | Some o => mkEffect true [] (opt_allowRecurse o) (opt_onStop o) g (opt_scheduler o)
  | None => mkEffect true [] false None g None
  end.

(** [effect(fn, options)] *)
Definition effect (f : FnArg) (options : option ReactiveEffectOptions)
    (s : State) : Res :=
  match
    match f with
    | PlainFn g => Some g
    | RunnerFn r => fn <$> effects s !! r
    end
  with
  | None => None
  | Some g =>
      let id := length (effects s) in
      let s1 := with_effects (effects s ++ [new_effect g options]) s in
      if from_option lazy false options then Some (Returned (VRunner id), s1)
      else
        match rec (COp (ORun id)) s1 with
        | Some (Returned _, s2) => Some (Returned (VRunner id), s2)
        | r => r
        end
  end.

Definition exec_op (op : Op) (s : State) : Res :=
  match op with
  | OTrack target key => Some (Returned VUndefined, track target key s)
  | OTrigger target type key newValue => trigger target type key newValue s
  | ORun e => run e s
  | OStop e => stop e s
  | OPauseTracking => Some (Returned VUndefined, pauseTracking s)
  | OEnableTracking => Some (Returned VUndefined, enableTracking s)
  | OResetTracking => Some (Returned VUndefined, resetTracking s)
  | OEffect f options => effect f options s
  end.

Definition exec_ops (l : list Op) (fin : Ending) (s : State) : Res :=
  match l with
  | [] => Some (outcome_of fin, s)
  | op :: rest =>
      match rec (COp op) s with
      | Some (Returned _, s1) => rec (COps rest fin) s1
      | r => r
      end
  end.

Definition step (c : Cmd) (s : State) : Res :=
  match c with
  | CCall f => rec (COps (ops (prog f)) (ending (prog f))) s
  | COps l fin => exec_ops l fin s
  | COp op => exec_op op s
  | CTriggerEffects l => triggerEffects l s
  end.
End Open.

(** Tying the knot with fuel. *)
Fixpoint exec (fuel : nat) (c : Cmd) (s : State) : Res :=
  match fuel with
  | O => None
  | S fuel' => step (exec fuel') c s
  end.
End Engine.

(** * Vocabulary of the properties *)

(** ** Parts of the state *)

(** The tracking context of a state. *)
Definition ctx_of (s : State) :=
  (effectStack s, effectTrackDepth s, trackOpBit s, activeEffect s).

(** The should-track flag and its stack. *)
Definition tracking_of (s : State) := (shouldTrack s, trackStack s).

(** What never changes in an effect once created, and that a stopped effect
    stays stopped. *)
Definition static_le (l l' : list ReactiveEffect) : Prop :=
  ∀ e eff, l !! e = Some eff →
    ∃ eff', l' !! e = Some eff' ∧ fn eff' = fn eff ∧ scheduler eff' = scheduler eff
      ∧ allowRecurse eff' = allowRecurse eff ∧ onStop eff' = onStop eff
      ∧ (active eff = false → active eff' = false).

(** The tracking context is the one of the runs [st] in progress, outermost
    first: the stack is [st], the depth its length, the bit marker the one of
    that depth, the active effect its top. *)
Definition ctx_ok (st : list EffId) (s : State) : Prop :=
  effectStack s = st
  ∧ effectTrackDepth s = Z.of_nat (length st)
  ∧ trackOpBit s = shl1 (effectTrackDepth s)
  ∧ activeEffect s = last st.

(** An operation other than the three that touch the should-track stack. *)
Definition no_tracking_op (op : Op) : Prop :=
  match op with
  | OPauseTracking | OEnableTracking | OResetTracking => False
  | _ => True
  end.

(** The same for a work item of the interpreter. *)
Definition no_tracking_cmd (c : Cmd) : Prop :=
  match c with
  | COps l _ => Forall no_tracking_op l
  | COp op => no_tracking_op op
  | _ => True
  end.

(** ** Markers and the dependency graph *)

(** Marked "previously tracked" and not "newly tracked" under [bit]. *)
Definition stale (bit : Z) (dep : Dep.t) : bool :=
  wasTracked bit dep && negb (newTracked bit dep).

(** What [finalizeDepMarkers] makes of one Dep of the effect's list. *)
Definition finalize_dep (e : EffId) (bit : Z) (dep : Dep.t) : Dep.t :=
  clear_marks bit (if stale bit dep then Dep.delete e dep else dep).

(** [stale] for the Dep named [d] in the heap [h]. *)
Definition stale_at (bit : Z) (h : list Dep.t) (d : DepId) : bool :=
  match h !! d with
  | Some dep => stale bit dep
  | None => false
  end.

(** The Dep carries a mark of depth [j], in either mask. *)
Definition level_marked (j : Z) (dep : Dep.t) : bool :=
  Z.testbit (Dep.w dep) j || Z.testbit (Dep.n dep) j.

(** The two directions of the graph agree, and neither the list of an effect
    nor the members of a Dep repeat an entry. *)
Record graph_ok (s : State) : Prop := mk_graph_ok {
  ok_sym : ∀ e d, e ∈ members_of d s ↔ d ∈ deps_of e s;
  ok_deps_nodup : ∀ e, NoDup (deps_of e s);
  ok_members_nodup : ∀ d, NoDup (members_of d s)
}.

(** No effect runs twice at a time, and the running effects exist. *)
Definition stack_ok (st : list EffId) (s : State) : Prop :=
  NoDup st ∧ ∀ e, e ∈ st → is_Some (effects s !! e).

(** Every Dep in the list of an effect that runs within the marker bits
    carries a mark of the depth of that run. *)
Definition marks_ok (st : list EffId) (s : State) : Prop :=
  ∀ i e d,
    st !! i = Some e → Z.of_nat (S i) ≤ maxMarkerBits → d ∈ deps_of e s →
    ∃ dep, depHeap s !! d = Some dep ∧ level_marked (Z.of_nat (S i)) dep = true.

(** The invariant of every state an execution goes through, with the runs
    [st] in progress. *)
Record heap_ok (st : list EffId) (s : State) : Prop := mk_heap_ok {
  ok_ctx : ctx_ok st s;
  ok_stack : stack_ok st s;
  ok_graph : graph_ok s;
  ok_marks : marks_ok st s
}.

(** The marks of the levels in [J] that a heap has are still there. *)
Definition marks_keep (J : Z → Prop) (h h' : list Dep.t) : Prop :=
  ∀ d dep, h !! d = Some dep →
    ∃ dep', h' !! d = Some dep'
      ∧ ∀ j, J j → level_marked j dep = true → level_marked j dep' = true.

(** ** Observations and stopped effects *)

(** How often an event occurs in a trace. *)
Definition count_ev (ev : Event) (l : list Event) : nat :=
  length (filter (λ x, x = ev) l).

(** The effect exists and has been stopped. *)
Definition inactive (e : EffId) (s : State) : Prop :=
  ∃ eff, effects s !! e = Some eff ∧ active eff = false.

(** The effect [e] is stopped, is not running, is in no Dep, and
    [triggerEffects] has let it through [k] times so far. *)
Definition stopped_out (e : EffId) (k : nat) (st : list EffId) (s : State) : Prop :=
  heap_ok st s ∧ (e ∉ st) ∧ inactive e s ∧ (∀ d, e ∉ members_of d s)
  ∧ count_ev (EvTrigger e) (log s) = k.

(** A work item that does not hand [e] to [triggerEffects] directly. *)
Definition avoids (e : EffId) (c : Cmd) : Prop :=
  match c with
  | CTriggerEffects l => e ∉ l
  | _ => True
  end.

(** ** Functions that read *)

(** The body of a function that reads the given keys in turn. *)
Definition reads (rs : list (Target * Key)) : list Op :=
  map (λ tk, OTrack tk.1 tk.2) rs.

(** The state after those reads. *)
Definition tracks (rs : list (Target * Key)) (s : State) : State :=
  foldl (λ s tk, track tk.1 tk.2 s) s rs.

(** [lo] is inside a run of [e] at depth [D], within the marker bits, and
    [hi] inside a run of [e] beyond them; both started from the same graph
    and have made the same reads so far.  In [lo] the members of a Dep that
    are [e] are told by the marks of depth [D]; what [e] is a member of in
    [hi] is what is marked "newly tracked" in [lo]. *)
Record sim (e : EffId) (D : Z) (lo hi : State) : Prop := mk_sim {
  sim_tm : targetMap lo = targetMap hi;
  sim_len : length (depHeap lo) = length (depHeap hi);
  sim_tracking_lo : shouldTrack lo = true ∧ activeEffect lo = Some e;
  sim_tracking_hi : shouldTrack hi = true ∧ activeEffect hi = Some e;
  sim_depth_lo : effectTrackDepth lo = D ∧ trackOpBit lo = 2 ^ D;
  sim_depth_hi : maxMarkerBits < effectTrackDepth hi;
  sim_eff_lo : is_Some (effects lo !! e);
  sim_eff_hi : is_Some (effects hi !! e);
  sim_others : ∀ d x, x ≠ e → x ∈ members_of d lo ↔ x ∈ members_of d hi;
  sim_others_deps : ∀ x, x ≠ e → deps_of x lo = deps_of x hi;
  sim_lo_marks : ∀ d dep, depHeap lo !! d = Some dep →
                   e ∈ Dep.members dep ↔ level_marked D dep = true;
  sim_hi_n : ∀ d dep, depHeap lo !! d = Some dep →
               e ∈ members_of d hi ↔ Z.testbit (Dep.n dep) D = true;
  sim_lo_sym : ∀ d, d ∈ deps_of e lo ↔ e ∈ members_of d lo;
  sim_lo_nodup : NoDup (deps_of e lo);
  sim_hi_sym : ∀ d, d ∈ deps_of e hi ↔ e ∈ members_of d hi
}.

(** [dep.n |= b] on the Dep named [d]. *)
Definition mark_at (b : Z) (d : DepId) (s : State) : State :=
  with_depHeap (alter (mark_n b) d (depHeap s)) s.

(** No Dep carries a mark of level [D]. *)
Definition clean_at (D : Z) (s : State) : Prop :=
  ∀ d dep, depHeap s !! d = Some dep → level_marked D dep = false.

(** The Dep recorded for a key of a target. *)
Definition dep_of (t : Target) (k : Key) (s : State) : option DepId :=
  match alist_get t (targetMap s) with
  | Some m => alist_get k m
  | None => None
  end.

(** Every Dep of the registry is in the heap. *)
Definition tm_ok (s : State) : Prop :=
  ∀ t k d, dep_of t k s = Some d → (d < length (depHeap s))%nat.

(** Inside a run of [e] beyond the marker bits, with tracking on. *)
Definition hi_mode (e : EffId) (s : State) : Prop :=
  shouldTrack s = true ∧ activeEffect s = Some e ∧ maxMarkerBits < effectTrackDepth s.

(** Every function of the program reads some keys and returns. *)
Definition only_reads (prog : FnId → Script) : Prop :=
  ∀ f, ∃ rs v, prog f = mkScript (reads rs) (Return v).

(** ** Concrete targets, programs and states *)

(** A plain object, an array and a [Map]. *)
Definition w_obj : Target := mkTarget 0 ObjectT.
Definition w_arr : Target := mkTarget 1 ArrayT.
Definition w_map : Target := mkTarget 2 MapT.

(** Function 0 reads [w_obj.x]; the others do nothing. *)
Definition w_reader (f : FnId) : Script :=
  match f with
  | O => mkScript (reads [(w_obj, KStr "x")]) (Return (VNum 1))
  | _ => mkScript (reads []) (Return VUndefined)
  end.

(** Function 0 reads [w_obj.x] and throws. *)
Definition w_thrower (f : FnId) : Script :=
  match f with
  | O => mkScript [OTrack w_obj (KStr "x")] (Throw (UserError 7))
  | _ => mkScript [] (Return VUndefined)
  end.

(** Every function stops the effect 0 and then reads [w_obj.x]. *)
Definition w_self_stop (f : FnId) : Script :=
  mkScript [OStop 0; OTrack w_obj (KStr "x")] (Return VUndefined).

(** The options [{ lazy: true }]. *)
Definition w_lazy : ReactiveEffectOptions := mkOptions true None false None.

(** Function [f] below 30 creates the effect of function [f + 1], which runs
    at once, nested in the run of its creator; function 30 reads [w_obj.x],
    stops the effect 30, which is the one running it, and reads [w_obj.x]
    again. *)
Definition w_nest (f : FnId) : Script :=
  if (f <? 30)%nat then mkScript [OEffect (PlainFn (S f)) None] (Return VUndefined)
  else mkScript [OTrack w_obj (KStr "x"); OStop 30; OTrack w_obj (KStr "x")]
         (Return VUndefined).

(** Every function reads a symbol key and the length of the array. *)
Definition w_arr_prog (f : FnId) : Script :=
  mkScript (reads [(w_arr, KSym 7); (w_arr, LENGTH_KEY)]) (Return VUndefined).

(** [new ReactiveEffect(f)] *)
Definition w_eff (f : FnId) : ReactiveEffect := mkEffect true [] false None f None.

(** A state at rest with the given effects, none of which has run. *)
Definition w_state (effs : list ReactiveEffect) : State :=
  mkState effs [] [] 0 1 [] None true [] [].

(** The same effects seen from inside thirty nested runs. *)
Definition w_deep (effs : list ReactiveEffect) : State :=
  mkState effs [] [] 30 (shl1 30) (seq 1 30) (Some 30%nat) true [] [].

(** Every function reads a key of the map and iterates over it. *)
Definition w_map_prog (f : FnId) : Script :=
  mkScript (reads [(w_map, KStr "k"); (w_map, ITERATE_KEY)]) (Return VUndefined).

(** The state after [effect(fn)] in [w_map_prog], from the start. *)
Definition w_map_state : State :=
  Eval vm_compute in
    match exec w_map_prog 20 (COp (OEffect (PlainFn 0) None)) initial_state with
    | Some (_, s) => s
    | None => initial_state
    end.

(** The state after [effect(fn)] in [w_arr_prog], from the start. *)
Definition w_arr_state : State :=
  Eval vm_compute in
    match exec w_arr_prog 20 (COp (OEffect (PlainFn 0) None)) initial_state with
    | Some (_, s) => s
    | None => initial_state
    end.

(** ** Further vocabulary *)

(** [enableTracking] or [pauseTracking], by the flag it sets. *)
Definition push_tracking (b : bool) (s : State) : State :=
  if b then enableTracking s else pauseTracking s.

(** Function 0 creates the effect of function 1, which reads [w_obj.x] and
    throws. *)
Definition w_nested_thrower (f : FnId) : Script :=
  match f with
  | O => mkScript [OTrack w_obj (KStr "y"); OEffect (PlainFn 1) None] (Return VUndefined)
  | _ => mkScript [OTrack w_obj (KStr "x")] (Throw (UserError 7))
  end.

(** Function 0 reads [w_obj.x] and stops the effect 0; the others read
    [w_obj.x]. *)
Definition w_stale (f : FnId) : Script :=
  match f with
  | O => mkScript [OTrack w_obj (KStr "x"); OStop 0] (Return VUndefined)
  | _ => mkScript [OTrack w_obj (KStr "x")] (Return VUndefined)
  end.

(** Function [f] below [n] creates the effect of function [f + 1], which
    runs at once, nested in the run of its creator; function [n] reads
    [w_obj.x], stops the effect [n], which is the one running it, and reads
    [w_obj.x] again: one function body, run at depth [n + 1]. *)
Definition w_nest_to (n : nat) (f : FnId) : Script :=
  if (f <? n)%nat then mkScript [OEffect (PlainFn (S f)) None] (Return VUndefined)
  else mkScript [OTrack w_obj (KStr "x"); OStop n; OTrack w_obj (KStr "x")]
         (Return VUndefined).

(** Every function pauses tracking and throws before it resets it. *)
Definition w_pause_thrower (f : FnId) : Script :=
  mkScript [OPauseTracking] (Throw (UserError 7)).

(** A list of decimal digits. *)
Definition all_digits (l : list ascii) : Prop := Forall (λ a, is_Some (digit_of a)) l.

(** "length", or a decimal numeral below 2^32: the keys of an array that the
    comparison with a new length is made for. *)
Definition length_or_index (k : Key) : Prop :=
  k = LENGTH_KEY ∨ ∃ s x, k = KStr s ∧ digits_value s 0 = Some x ∧ x < 2 ^ 32.

(** The key is "length", or its number is at least the new length. *)
Definition reaches (newValue : option Z) (k : Key) : bool :=
  bool_decide (k = LENGTH_KEY)
  || match k, newValue with
     | KStr s, Some v =>
         match digits_value s 0 with
         | Some x => v <=? x
         | None => false
         end
     | _, _ => false
     end.


(** * Properties *)

(** ** Fuel *)

Lemma exec_S prog fuel c s : exec prog (S fuel) c s = step prog (exec prog fuel) c s.
Proof. reflexivity. Qed.

#[global] Arguments exec : simpl never.

(** A [step] only looks at the results its recursive calls give. *)
Lemma step_mono prog (rec1 rec2 : Cmd → State → Res) :
  (∀ c s r, rec1 c s = Some r → rec2 c s = Some r) →
  ∀ c s r, step prog rec1 c s = Some r → step prog rec2 c s = Some r.
Proof.
  intros Hrec c s r H.
  destruct c as [f|l fin|op|l]; simpl in *.
  - by apply Hrec.
  - destruct l as [|op rest]; simpl in *; [done|].
    destruct (rec1 (COp op) s) as [[[v|err] s1]|] eqn:E1; [| |done].
    + rewrite (Hrec _ _ _ E1). by apply Hrec.
    + by rewrite (Hrec _ _ _ E1).
  - destruct op; simpl in *; try done.
    + unfold trigger in *.
      destruct (alist_get target (targetMap s)); [|done].
      destruct (collect_deps _ _ _ _ _) as [[err|ds]|]; [done| |done].
      unfold notify_deps in *.
      destruct (snapshot_of _ _); [|done]. by apply Hrec.
    + unfold run in *.
      destruct (effects (emit (EvRun e) s) !! e) as [eff|]; [|done].
      destruct (negb (active eff)); [by apply Hrec|].
      destruct (decide _); [done|].
      destruct (rec1 _ _) as [[r1 s1]|] eqn:E1; [|done].
      by rewrite (Hrec _ _ _ E1).
    + unfold stop in *.
      destruct (effects s !! e) as [eff|]; [|done].
      destruct (active eff); [|done].
      destruct (onStop eff); [|done].
      destruct (rec1 _ _) as [[[v|err] s1]|] eqn:E1; [| |done];
        by rewrite (Hrec _ _ _ E1).
    + unfold effect in *.
      destruct (match f with PlainFn g => _ | RunnerFn r0 => _ end); [|done].
      destruct (from_option lazy false options); [done|].
      destruct (rec1 _ _) as [[[v|err] s1]|] eqn:E1; [| |done];
        by rewrite (Hrec _ _ _ E1).
  - destruct l as [|e rest]; simpl in *; [done|].
    destruct (effects s !! e) as [eff|]; [|done].
    destruct (_ || _); [|by apply Hrec].
    destruct (scheduler eff).
    + destruct (rec1 _ _) as [[[v|err] s1]|] eqn:E1; [| |done];
        rewrite (Hrec _ _ _ E1); [by apply Hrec|done].
    + destruct (rec1 _ _) as [[[v|err] s1]|] eqn:E1; [| |done];
        rewrite (Hrec _ _ _ E1); [by apply Hrec|done].
Qed.

Lemma exec_fuel_S prog fuel : ∀ c s r,
  exec prog fuel c s = Some r → exec prog (S fuel) c s = Some r.
Proof.
  induction fuel as [|fuel IH]; intros c s r H; [done|].
  rewrite exec_S in H. rewrite exec_S.
  by apply (step_mono prog (exec prog fuel)).
Qed.

Lemma exec_fuel_le prog fuel fuel' c s r :
  (fuel ≤ fuel')%nat → exec prog fuel c s = Some r → exec prog fuel' c s = Some r.
Proof.
  induction 1 as [|m Hle IH]; [done|].
  intros H. apply exec_fuel_S. by apply IH.
Qed.

(** ** Invariants of an execution

    A family of state predicates, indexed by whatever a [run] in progress
    changes for the time of its call, is kept by every execution once it is
    kept by the state changes the engine is made of.  [ok] restricts the
    work items the execution may meet. *)

Section Preservation.
Variable prog : FnId → Script.
Context {I : Type}.
Variable enter : I → EffId → I.
Variable P : I → State → Prop.
Variable ok : Cmd → Prop.

Hypothesis ok_call : ∀ f, ok (CCall f) → ok (COps (ops (prog f)) (ending (prog f))).
Hypothesis ok_ops : ∀ op rest fin,
  ok (COps (op :: rest) fin) → ok (COp op) ∧ ok (COps rest fin).

Hypothesis P_track : ∀ i s t k, ok (COp (OTrack t k)) → P i s → P i (track t k s).
Hypothesis P_pause : ∀ i s, ok (COp OPauseTracking) → P i s → P i (pauseTracking s).
Hypothesis P_enable : ∀ i s, ok (COp OEnableTracking) → P i s → P i (enableTracking s).
Hypothesis P_reset : ∀ i s, ok (COp OResetTracking) → P i s → P i (resetTracking s).

Hypothesis P_run_ev : ∀ i s e, ok (COp (ORun e)) → P i s → P i (emit (EvRun e) s).
Hypothesis ok_run_fn : ∀ i s e eff,
  ok (COp (ORun e)) → P i s → effects s !! e = Some eff → ok (CCall (fn eff)).
Hypothesis P_enter : ∀ i s e eff,
  ok (COp (ORun e)) → P i s → effects s !! e = Some eff → active eff = true →
  e ∉ effectStack s → P (enter i e) (run_enter e s).
Hypothesis P_exit : ∀ i s e, P (enter i e) s → P i (run_exit e s).

Hypothesis P_cleanup : ∀ i s e eff,
  ok (COp (OStop e)) → P i s → effects s !! e = Some eff → active eff = true →
  P i (cleanupEffect e s).
Hypothesis P_onStop_ev : ∀ i s e, ok (COp (OStop e)) → P i s → P i (emit (EvOnStop e) s).
Hypothesis ok_onStop : ∀ i s e eff f,
  ok (COp (OStop e)) → P i s → effects s !! e = Some eff → onStop eff = Some f →
  ok (CCall f).
Hypothesis P_deactivate : ∀ i s e,
  ok (COp (OStop e)) → P i s →
  P i (with_effects (alter (set_active false) e (effects s)) s).

Hypothesis ok_trigger : ∀ i s t ty k v m ds l,
  ok (COp (OTrigger t ty k v)) → P i s →
  alist_get t (targetMap s) = Some m → collect_deps m t ty k v = Some (inr ds) →
  snapshot_of ds s = Some l → ok (CTriggerEffects l).
Hypothesis ok_te_rest : ∀ e rest, ok (CTriggerEffects (e :: rest)) → ok (CTriggerEffects rest).
Hypothesis ok_te_run : ∀ i s e rest eff,
  ok (CTriggerEffects (e :: rest)) → P i s → effects s !! e = Some eff →
  ok (COp (ORun e)) ∧ ∀ f, scheduler eff = Some f → ok (CCall f).
Hypothesis P_trigger_ev : ∀ i s e rest,
  ok (CTriggerEffects (e :: rest)) → P i s → P i (emit (EvTrigger e) s).
Hypothesis P_sched_ev : ∀ i s e rest,
  ok (CTriggerEffects (e :: rest)) → P i s → P i (emit (EvSched e) s).

Hypothesis P_new_effect : ∀ i s f o g,
  ok (COp (OEffect f o)) → P i s →
  P i (with_effects (effects s ++ [new_effect g o]) s)
  ∧ ok (COp (ORun (length (effects s)))).

Lemma exec_preserves fuel : ∀ c i s r s',
  ok c → P i s → exec prog fuel c s = Some (r, s') → P i s'.
Proof.
  induction fuel as [|fuel IH]; intros c i s r s' Hok HP H; [done|].
  rewrite exec_S in H.
  destruct c as [f|l fin|op|l]; simpl in H.
  - eapply IH; [| |exact H]; [by apply ok_call|done].
  - destruct l as [|op rest]; simpl in H; [by simplify_eq|].
    destruct (ok_ops _ _ _ Hok) as [Hop Hrest].
    destruct (exec prog fuel (COp op) s) as [[[v|err] s1]|] eqn:E1; [| |done].
    + eapply IH; [| |exact H]; [done|]. eapply IH; [| |exact E1]; done.
    + simplify_eq. eapply IH; [| |exact E1]; done.
  - destruct op; simpl in H.
    + simplify_eq. by apply P_track.
    + unfold trigger in H.
      destruct (alist_get target (targetMap s)) as [m|] eqn:Em; [|by simplify_eq].
      destruct (collect_deps _ _ _ _ _) as [[err|ds]|] eqn:Ec;
        [by simplify_eq| |done].
      unfold notify_deps in H.
      destruct (snapshot_of _ _) as [l|] eqn:El; [|by simplify_eq].
      eapply IH; [| |exact H]; [|done]. by eapply ok_trigger.
    + unfold run in H. simpl in H.
      destruct (effects s !! e) as [eff|] eqn:Ee; [|done].
      pose proof (P_run_ev _ _ _ Hok HP) as HP1.
      pose proof (ok_run_fn _ _ _ _ Hok HP Ee) as Hfn.
      destruct (active eff) eqn:Ea; simpl in H.
      * destruct (decide _) as [Hin|Hnin]; [by simplify_eq|].
        destruct (exec prog fuel _ _) as [[r1 s1]|] eqn:E1; [|done].
        simplify_eq. eapply P_exit. eapply IH; [| |exact E1]; [done|].
        eapply P_enter; eauto.
      * eapply IH; [| |exact H]; done.
    + unfold stop in H.
      destruct (effects s !! e) as [eff|] eqn:Ee; [|done].
      destruct (active eff) eqn:Ea; [|by simplify_eq].
      pose proof (P_cleanup _ _ _ _ Hok HP Ee Ea) as HP1.
      destruct (onStop eff) as [f|] eqn:Ef.
      * assert (ok (CCall f)) as Hf by eauto.
        destruct (exec prog fuel _ _) as [[[v|err] s1]|] eqn:E1; [| |done];
          simplify_eq.
        -- apply P_deactivate; [done|]. eapply IH; [| |exact E1]; [done|].
           by apply P_onStop_ev.
        -- eapply IH; [| |exact E1]; [done|]. by apply P_onStop_ev.
      * simplify_eq. by apply P_deactivate.
    + simplify_eq. by apply P_pause.
    + simplify_eq. by apply P_enable.
    + simplify_eq. by apply P_reset.
    + unfold effect in H.
      destruct (match f with PlainFn g => _ | RunnerFn r0 => _ end) as [g|]; [|done].
      destruct (P_new_effect _ _ _ _ g Hok HP) as [HP1 Hrun].
      destruct (from_option lazy false options); [by simplify_eq|].
      destruct (exec prog fuel _ _) as [[[v|err] s1]|] eqn:E1; [| |done];
        simplify_eq; (eapply IH; [| |exact E1]; done).
  - destruct l as [|e rest]; simpl in H; [by simplify_eq|].
    destruct (effects s !! e) as [eff|] eqn:Ee; [|done].
    pose proof (ok_te_rest _ _ Hok) as Hrest.
    destruct (ok_te_run _ _ _ _ _ Hok HP Ee) as [Hrun Hsched].
    destruct (_ || _).
    + pose proof (P_trigger_ev _ _ _ _ Hok HP) as HP1.
      destruct (scheduler eff) as [f|].
      * destruct (exec prog fuel (CCall f) _) as [[[v|err] s1]|] eqn:E1; [| |done].
        -- eapply IH; [| |exact H]; [done|].
           eapply IH; [| |exact E1]; [by apply Hsched|]. by eapply P_sched_ev.
        -- simplify_eq. eapply IH; [| |exact E1]; [by apply Hsched|].
           by eapply P_sched_ev.
      * destruct (exec prog fuel (COp (ORun e)) _) as [[[v|err] s1]|] eqn:E1; [| |done].
        -- eapply IH; [| |exact H]; [done|]. eapply IH; [| |exact E1]; done.
        -- simplify_eq. eapply IH; [| |exact E1]; done.
    + eapply IH; [| |exact H]; done.
Qed.
End Preservation.

(** ** Footprints of the state changes *)

Lemma static_le_refl l : static_le l l.
Proof. intros e eff H. exists eff. naive_solver. Qed.

Lemma static_le_trans l1 l2 l3 : static_le l1 l2 → static_le l2 l3 → static_le l1 l3.
Proof.
  intros H12 H23 e eff H.
  destruct (H12 _ _ H) as (eff2 & E2 & ? & ? & ? & ? & ?).
  destruct (H23 _ _ E2) as (eff3 & E3 & ? & ? & ? & ? & ?).
  exists eff3. repeat split; try congruence. naive_solver.
Qed.

Lemma static_le_alter (f : ReactiveEffect → ReactiveEffect) e l :
  (∀ eff, fn (f eff) = fn eff ∧ scheduler (f eff) = scheduler eff
          ∧ allowRecurse (f eff) = allowRecurse eff ∧ onStop (f eff) = onStop eff
          ∧ (active eff = false → active (f eff) = false)) →
  static_le l (alter f e l).
Proof.
  intros Hf e' eff H. destruct (decide (e = e')) as [->|Hne].
  - exists (f eff). rewrite list_lookup_alter_eq, H. split; [done|]. apply Hf.
  - exists eff. rewrite list_lookup_alter_ne by done. by repeat split.
Qed.

Lemma static_le_app l x : static_le l (l ++ [x]).
Proof.
  intros e eff H. exists eff. split; [|naive_solver].
  by apply lookup_app_l_Some.
Qed.

Lemma static_le_length l l' : static_le l l' → (length l ≤ length l')%nat.
Proof.
  intros H. destruct l as [|x l0] eqn:E using rev_ind; [simpl; lia|].
  destruct (H (length l0) x) as (eff' & H' & _).
  { rewrite lookup_app_r by lia. by rewrite Nat.sub_diag. }
  apply lookup_lt_Some in H'. rewrite length_app. simpl. lia.
Qed.

Lemma foldl_alter_length {A} (f : A → A) (ds : list nat) (h : list A) :
  length (foldl (λ h d, alter f d h) h ds) = length h.
Proof.
  revert h. induction ds as [|d ds IH]; intros h; simpl; [done|].
  rewrite IH. apply length_alter.
Qed.

Lemma finalize_loop_length e bit ds h :
  length (finalize_loop e bit ds h).1 = length h.
Proof.
  revert h. induction ds as [|d ds IH]; intros h; simpl; [done|].
  destruct (h !! d) as [dep|].
  - destruct (_ && _).
    + rewrite IH. apply length_alter.
    + specialize (IH (alter (clear_marks bit) d h)).
      destruct (finalize_loop _ _ _ _) as [h' kept]. simpl in *.
      rewrite IH. apply length_alter.
  - specialize (IH h). by destruct (finalize_loop _ _ _ _) as [h' kept].
Qed.

(** *** [emit] *)
Lemma emit_effects ev s : effects (emit ev s) = effects s.
Proof. done. Qed.

(** *** The marker passes and [cleanupEffect] *)
Lemma initDepMarkers_ctx e s : ctx_of (initDepMarkers e s) = ctx_of s.
Proof. done. Qed.
Lemma initDepMarkers_effects e s : effects (initDepMarkers e s) = effects s.
Proof. done. Qed.

Lemma finalizeDepMarkers_ctx e s : ctx_of (finalizeDepMarkers e s) = ctx_of s.
Proof. unfold finalizeDepMarkers. by destruct (finalize_loop _ _ _ _). Qed.
Lemma finalizeDepMarkers_tracking e s :
  tracking_of (finalizeDepMarkers e s) = tracking_of s.
Proof. unfold finalizeDepMarkers. by destruct (finalize_loop _ _ _ _). Qed.
Lemma finalizeDepMarkers_log e s : log (finalizeDepMarkers e s) = log s.
Proof. unfold finalizeDepMarkers. by destruct (finalize_loop _ _ _ _). Qed.
Lemma finalizeDepMarkers_targetMap e s :
  targetMap (finalizeDepMarkers e s) = targetMap s.
Proof. unfold finalizeDepMarkers. by destruct (finalize_loop _ _ _ _). Qed.
Lemma finalizeDepMarkers_static e s :
  static_le (effects s) (effects (finalizeDepMarkers e s)).
Proof.
  unfold finalizeDepMarkers. destruct (finalize_loop _ _ _ _) as [h kept]. simpl.
  by apply static_le_alter.
Qed.

Lemma cleanupEffect_ctx e s : ctx_of (cleanupEffect e s) = ctx_of s.
Proof. done. Qed.
Lemma cleanupEffect_static e s : static_le (effects s) (effects (cleanupEffect e s)).
Proof. by apply static_le_alter. Qed.

(** *** [track] *)
Lemma add_edge_static d e s : static_le (effects s) (effects (add_edge d e s)).
Proof. by apply static_le_alter. Qed.

Lemma trackEffects_ctx d s : ctx_of (trackEffects d s) = ctx_of s.
Proof.
  unfold trackEffects.
  repeat (case_match; try done).
Qed.
Lemma trackEffects_tracking d s : tracking_of (trackEffects d s) = tracking_of s.
Proof. unfold trackEffects. repeat (case_match; try done). Qed.
Lemma trackEffects_log d s : log (trackEffects d s) = log s.
Proof. unfold trackEffects. repeat (case_match; try done). Qed.
Lemma trackEffects_targetMap d s : targetMap (trackEffects d s) = targetMap s.
Proof. unfold trackEffects. repeat (case_match; try done). Qed.
Lemma trackEffects_static d s : static_le (effects s) (effects (trackEffects d s)).
Proof.
  unfold trackEffects.
  repeat (case_match; try apply static_le_refl);
    by apply (add_edge_static _ _ (with_depHeap _ s)) || by apply add_edge_static.
Qed.

Lemma track_ctx t k s : ctx_of (track t k s) = ctx_of s.
Proof.
  unfold track. repeat (case_match; try done); by rewrite trackEffects_ctx.
Qed.
Lemma track_tracking t k s : tracking_of (track t k s) = tracking_of s.
Proof.
  unfold track. repeat (case_match; try done); by rewrite trackEffects_tracking.
Qed.
Lemma track_log t k s : log (track t k s) = log s.
Proof.
  unfold track. repeat (case_match; try done); by rewrite trackEffects_log.
Qed.
Lemma track_static t k s : static_le (effects s) (effects (track t k s)).
Proof.
  unfold track. repeat (case_match; try apply static_le_refl);
    match goal with |- static_le _ (effects (trackEffects ?d ?s')) =>
      apply (trackEffects_static d s') end.
Qed.

(** *** The two halves of [run] *)
Lemma run_enter_static e s : static_le (effects s) (effects (run_enter e s)).
Proof.
  unfold run_enter. case_match; [apply static_le_refl|].
  by apply static_le_alter.
Qed.

Lemma run_exit_static e s : static_le (effects s) (effects (run_exit e s)).
Proof.
  unfold run_exit. case_match; simpl; [|apply static_le_refl].
  apply finalizeDepMarkers_static.
Qed.

Lemma run_exit_log e s : log (run_exit e s) = log s.
Proof.
  unfold run_exit. case_match; simpl; [|done]. apply finalizeDepMarkers_log.
Qed.

Lemma run_enter_ctx e s :
  ctx_of (run_enter e s)
  = (effectStack s ++ [e], effectTrackDepth s + 1, shl1 (effectTrackDepth s + 1), Some e).
Proof. unfold run_enter. by case_match. Qed.

Lemma run_enter_tracking e s :
  tracking_of (run_enter e s) = (true, trackStack s ++ [shouldTrack s]).
Proof. unfold run_enter. by case_match. Qed.

Lemma run_enter_log e s : log (run_enter e s) = log s.
Proof. unfold run_enter. by case_match. Qed.

Lemma run_exit_ctx e s :
  ctx_of (run_exit e s)
  = (removelast (effectStack s), effectTrackDepth s - 1, shl1 (effectTrackDepth s - 1),
     last (removelast (effectStack s))).
Proof.
  unfold run_exit. case_match; [|done].
  pose proof (finalizeDepMarkers_ctx e s) as Hf. unfold ctx_of in *. simpl.
  simplify_eq. congruence.
Qed.

Lemma run_exit_tracking e s :
  tracking_of (run_exit e s)
  = (default true (last (trackStack s)), removelast (trackStack s)).
Proof.
  unfold run_exit. case_match; [|done].
  pose proof (finalizeDepMarkers_tracking e s) as Hf. unfold tracking_of in *. simpl.
  simplify_eq. congruence.
Qed.

(** ** The tracking context is a stack

    [ctx_ok st s]: the effect stack is [st], the depth is its height, the bit
    marker belongs to the depth and the active effect is the top. *)

Lemma ctx_ok_same st s s' : ctx_of s' = ctx_of s → ctx_ok st s → ctx_ok st s'.
Proof. unfold ctx_of, ctx_ok. intros ?; simplify_eq. congruence. Qed.

Lemma ctx_ok_eq st s s' : ctx_ok st s → ctx_ok st s' → ctx_of s' = ctx_of s.
Proof.
  unfold ctx_of, ctx_ok. intros (?&?&?&?) (?&?&?&?). congruence.
Qed.

Lemma ctx_ok_enter st e s : ctx_ok st s → ctx_ok (st ++ [e]) (run_enter e s).
Proof.
  intros (Hst & Hd & Hb & Ha).
  pose proof (run_enter_ctx e s) as H. unfold ctx_of, ctx_ok in *. simplify_eq.
  repeat split; try congruence.
  - rewrite length_app. simpl. lia.
  - by rewrite last_snoc.
Qed.

Lemma ctx_ok_exit st e s : ctx_ok (st ++ [e]) s → ctx_ok st (run_exit e s).
Proof.
  intros (Hst & Hd & Hb & Ha).
  pose proof (run_exit_ctx e s) as H. unfold ctx_of, ctx_ok in *. simplify_eq.
  rewrite Hst, removelast_last in *.
  repeat split; try congruence.
  rewrite length_app in Hd. simpl in Hd. lia.
Qed.

Section Context.
Variable prog : FnId → Script.

(** Every execution leaves the tracking context as it found it. *)
Lemma exec_ctx fuel c st s r s' :
  ctx_ok st s → exec prog fuel c s = Some (r, s') → ctx_ok st s'.
Proof.
  intros Hctx H.
  apply (exec_preserves prog (λ st e, st ++ [e]) ctx_ok (λ _, True)
           ltac:(done) ltac:(done)) with (i := st) in H; try done.
  - intros i x t k _ H1. eapply ctx_ok_same; [apply track_ctx|done].
  - intros i x e x0 _ H1 _ _ _. by apply ctx_ok_enter.
  - intros i x e H1. by apply ctx_ok_exit.
Qed.

(** No execution changes what is fixed in an effect at its creation, or
    revives a stopped effect. *)
Lemma exec_static fuel c s r s' :
  exec prog fuel c s = Some (r, s') → static_le (effects s) (effects s').
Proof.
  intros H.
  pose (P := λ (_ : unit) (x : State), static_le (effects s) (effects x)).
  apply (exec_preserves prog (λ i _, i) P (λ _, True)
           ltac:(done) ltac:(done)) with (i := tt) in H; try done; unfold P.
  - intros i x t k _ H2. eapply static_le_trans; [done|apply track_static].
  - intros i x e x0 _ H2 _ _ _.
    eapply static_le_trans; [done|apply run_enter_static].
  - intros i x e H2. eapply static_le_trans; [done|apply run_exit_static].
  - intros i x e eff _ H2 _ _.
    eapply static_le_trans; [done|apply cleanupEffect_static].
  - intros i x e _ H2. eapply static_le_trans; [done|]. by apply static_le_alter.
  - intros i x f o g _ H2. split; [|done].
    eapply static_le_trans; [done|apply static_le_app].
  - apply static_le_refl.
Qed.

(** ** The should-track stack under programs that do not touch it *)

Lemma exec_tracking fuel c s r s' :
  (∀ f, Forall no_tracking_op (ops (prog f))) →
  no_tracking_cmd c →
  exec prog fuel c s = Some (r, s') →
  tracking_of s' = tracking_of s.
Proof.
  intros Hprog Hc H.
  pose (P := λ (i : bool * list bool) (x : State), tracking_of x = i).
  apply (exec_preserves prog (λ i e, (true, i.2 ++ [i.1])) P no_tracking_cmd)
    with (i := tracking_of s) in H; try done; unfold P.
  - intros f _. apply Hprog.
  - intros op rest fin Hl. by apply Forall_cons_1 in Hl.
  - intros i x t k _ <-. apply track_tracking.
  - intros i x e eff _ <- _ _ _. apply run_enter_tracking.
  - intros i x e Hx. rewrite run_exit_tracking.
    unfold tracking_of in Hx. destruct i as [b ts]. simpl in *. simplify_eq.
    rewrite H1. by rewrite last_snoc, removelast_last.
Qed.
End Context.

(** ** Sets in insertion order *)

Lemma elem_of_set_add x e l : x ∈ set_add e l ↔ x = e ∨ x ∈ l.
Proof.
  unfold set_add. case_decide as H.
  - split; [by right|]. by intros [->|?].
  - rewrite elem_of_app, list_elem_of_singleton. tauto.
Qed.

Lemma NoDup_set_add e l : NoDup l → NoDup (set_add e l).
Proof.
  intros Hl. unfold set_add. case_decide as H; [done|].
  apply NoDup_app. split; [done|]. split; [|apply NoDup_singleton].
  intros x Hx ->%list_elem_of_singleton. done.
Qed.

Lemma elem_of_set_delete x e l : x ∈ set_delete e l ↔ x ≠ e ∧ x ∈ l.
Proof. unfold set_delete. by rewrite list_elem_of_filter. Qed.

Lemma NoDup_set_delete e l : NoDup l → NoDup (set_delete e l).
Proof. apply NoDup_filter. Qed.

Lemma foldl_set_add_spec l : ∀ acc,
  NoDup acc →
  NoDup (foldl (λ acc e, set_add e acc) acc l)
  ∧ ∀ x, x ∈ foldl (λ acc e, set_add e acc) acc l ↔ x ∈ acc ∨ x ∈ l.
Proof.
  induction l as [|e l IH]; intros acc Hacc; simpl.
  - split; [done|]. intros x. rewrite elem_of_nil. tauto.
  - destruct (IH (set_add e acc) (NoDup_set_add _ _ Hacc)) as [H1 H2].
    split; [done|]. intros x. rewrite H2, elem_of_set_add, elem_of_cons. tauto.
Qed.

Lemma NoDup_set_of l : NoDup (set_of l).
Proof. apply foldl_set_add_spec, NoDup_nil_2. Qed.

Lemma elem_of_set_of x l : x ∈ set_of l ↔ x ∈ l.
Proof.
  unfold set_of. destruct (foldl_set_add_spec l [] (NoDup_nil_2)) as [_ H].
  rewrite H, elem_of_nil. tauto.
Qed.


(** ** trigger: the collected Dependency Sets *)

(** The effects of the merged Set are the members of the collected Deps. *)
Lemma elem_of_merged e ds s :
  e ∈ Dep.members (createDep
        (concat (map (λ d, match d with Some d => members_of d s | None => [] end) ds)))
  ↔ ∃ d, Some d ∈ ds ∧ e ∈ members_of d s.
Proof.
  simpl. rewrite elem_of_set_of. rewrite list_elem_of_In, in_concat. split.
  - intros (l & Hl & He). apply in_map_iff in Hl as ([d|] & <- & Hd).
    + exists d. by rewrite !list_elem_of_In.
    + simpl in He. done.
  - intros (d & Hd & He). exists (members_of d s). rewrite <- !list_elem_of_In.
    split; [|done]. apply list_elem_of_In, in_map_iff. exists (Some d).
    by rewrite <- list_elem_of_In.
Qed.




(** ** The three ways of [run] *)

Lemma exec_run_inactive prog fuel e s eff :
  effects s !! e = Some eff → active eff = false →
  exec prog (S fuel) (COp (ORun e)) s
  = exec prog fuel (CCall (fn eff)) (emit (EvRun e) s).
Proof.
  intros He Ha. rewrite exec_S. simpl. unfold run.
  rewrite emit_effects, He, Ha. done.
Qed.

Lemma exec_run_on_stack prog fuel e s eff :
  effects s !! e = Some eff → active eff = true → e ∈ effectStack s →
  exec prog (S fuel) (COp (ORun e)) s = Some (Returned VUndefined, emit (EvRun e) s).
Proof.
  intros He Ha Hin. rewrite exec_S. simpl. unfold run.
  rewrite emit_effects, He, Ha. simpl. by rewrite decide_True.
Qed.

Lemma exec_run_active prog fuel e s eff :
  effects s !! e = Some eff → active eff = true → e ∉ effectStack s →
  exec prog (S fuel) (COp (ORun e)) s
  = match exec prog fuel (CCall (fn eff)) (run_enter e (emit (EvRun e) s)) with
    | Some (r, s2) => Some (r, run_exit e s2)
    | None => None
    end.
Proof.
  intros He Ha Hin. rewrite exec_S. simpl. unfold run.
  rewrite emit_effects, He, Ha. simpl. by rewrite decide_False.
Qed.

(** ** effect *)

(** C10: [effect] given a runner does not wrap it.  The new effect's
    function is the function of the runner's effect, the call behaves as if
    that function had been passed, and the run that creates the new effect
    goes from entering it straight to calling that function. *)
Theorem effect_unwraps_runner (prog : FnId → Script) (fuel : nat) (r : EffId)
    (eff : ReactiveEffect) (options : option ReactiveEffectOptions)
    (s : State) (res : Outcome) (s' : State) :
  effects s !! r = Some eff →
  Forall (λ e, (e < length (effects s))%nat) (effectStack s) →
  exec prog fuel (COp (OEffect (RunnerFn r) options)) s = Some (res, s') →
  let new := length (effects s) in
  let s1 := with_effects (effects s ++ [new_effect (fn eff) options]) s in
  exec prog fuel (COp (OEffect (PlainFn (fn eff)) options)) s = Some (res, s')
  ∧ (∃ neweff, effects s' !! new = Some neweff ∧ fn neweff = fn eff)
  ∧ (from_option lazy false options = false →
     ∃ fuel' r2 s2,
       exec prog fuel' (CCall (fn eff)) (run_enter new (emit (EvRun new) s1))
       = Some (r2, s2)
       ∧ s' = run_exit new s2
       ∧ res = match r2 with
               | Returned _ => Returned (VRunner new)
               | Threw err => Threw err
               end).
Proof.
  intros Hr Hst H new s1.
  destruct fuel as [|fuel]; [done|].
  rewrite exec_S in *. simpl in *. unfold effect in *. rewrite Hr in H. simpl in *.
  split; [done|].
  fold new in H. fold s1 in H.
  assert (effects s1 !! new = Some (new_effect (fn eff) options)) as Hnew.
  { unfold s1, new. simpl. rewrite lookup_app_r by lia.
    by rewrite Nat.sub_diag. }
  assert (fn (new_effect (fn eff) options) = fn eff) as Hfn by by destruct options.
  assert (active (new_effect (fn eff) options) = true) as Hact by by destruct options.
  assert (new ∉ effectStack s1) as Hnin.
  { intros Hin. rewrite Forall_forall in Hst. apply Hst in Hin. unfold new in Hin. lia. }
  destruct (from_option lazy false options) eqn:Hlazy.
  - simplify_eq. split; [|done]. eauto.
  - assert (∃ r1, exec prog fuel (COp (ORun new)) s1 = Some (r1, s')
                  ∧ res = match r1 with
                          | Returned _ => Returned (VRunner new)
                          | Threw err => Threw err
                          end) as (r1 & Hrun & Hres).
    { destruct (exec prog fuel (COp (ORun new)) s1) as [[[v|err] s2]|];
        simplify_eq; eauto. }
    clear H. split.
    + apply exec_static in Hrun.
      destruct (Hrun _ _ Hnew) as (neweff & ? & ? & _). exists neweff.
      split; [done|congruence].
    + intros _. destruct fuel as [|fuel]; [done|].
      rewrite (exec_run_active _ _ _ _ _ Hnew Hact Hnin), Hfn in Hrun.
      destruct (exec prog fuel _ _) as [[r2 s2]|] eqn:E2; [|done].
      injection Hrun as <- <-. by exists fuel, r2, s2.
Qed.

(** ** run: a failure restores the context *)

(** A failure of [run] is the one its wrapped function threw, unchanged, and
    it leaves the tracking context as [run] found it. *)
Lemma run_threw_inv (prog : FnId → Script) (fuel : nat) (e : EffId)
    (eff : ReactiveEffect) (st : list EffId) (s : State) (err : Err) (s' : State) :
  ctx_ok st s →
  effects s !! e = Some eff →
  exec prog fuel (COp (ORun e)) s = Some (Threw err, s') →
  (∃ fuel' s0 s2,
     exec prog fuel' (CCall (fn eff)) s0 = Some (Threw err, s2)
     ∧ ((active eff = true ∧ (e ∉ st)
         ∧ s0 = run_enter e (emit (EvRun e) s) ∧ s' = run_exit e s2
         ∧ effectStack s2 = st ++ [e]
         ∧ effectTrackDepth s2 = effectTrackDepth s + 1)
        ∨ (active eff = false ∧ s0 = emit (EvRun e) s ∧ s' = s2)))
  ∧ effectTrackDepth s' = effectTrackDepth s
  ∧ trackOpBit s' = trackOpBit s
  ∧ effectStack s' = effectStack s
  ∧ activeEffect s' = activeEffect s
  ∧ ((∀ f, Forall no_tracking_op (ops (prog f))) →
     shouldTrack s' = shouldTrack s ∧ trackStack s' = trackStack s).
Proof.
  intros Hctx He H.
  pose proof (exec_ctx _ _ _ _ _ _ _ Hctx H) as Hctx'.
  pose proof (ctx_ok_eq _ _ _ Hctx Hctx') as Heq. unfold ctx_of in Heq.
  split; [|split_and!; try congruence].
  - destruct fuel as [|fuel]; [done|].
    destruct (active eff) eqn:Ha.
    + destruct (decide (e ∈ effectStack s)) as [Hin|Hnin].
      { by rewrite (exec_run_on_stack _ _ _ _ _ He Ha Hin) in H. }
      rewrite (exec_run_active _ _ _ _ _ He Ha Hnin) in H.
      destruct (exec prog fuel _ _) as [[r2 s2]|] eqn:E2; [|done].
      injection H as -> <-.
      exists fuel, (run_enter e (emit (EvRun e) s)), s2. split; [done|]. left.
      assert (ctx_ok (st ++ [e]) s2) as (Hst2 & Hd2 & _).
      { eapply exec_ctx; [|exact E2]. apply ctx_ok_enter.
        by eapply ctx_ok_same; [|exact Hctx]. }
      destruct Hctx as (Hst & Hd & _).
      repeat split; try done; try congruence.
      rewrite Hd2, Hd, length_app. simpl. lia.
    + rewrite (exec_run_inactive _ _ _ _ _ He Ha) in H.
      exists fuel, (emit (EvRun e) s), s'. split; [done|]. by right.
  - intros Hprog. apply (exec_tracking _ _ _ _ _ _ Hprog) in H; [|done].
    unfold tracking_of in H. by simplify_eq.
Qed.

(** The state in which [run] calls the wrapped function, and the state it
    leaves behind once the call has ended in [s2]: a stopped effect is a plain
    call, a live one goes through the two halves of the [try ... finally]. *)
Lemma exec_run_call prog fuel e s eff r s2 :
  effects s !! e = Some eff → active eff = false ∨ e ∉ effectStack s →
  exec prog fuel (CCall (fn eff))
    (if active eff then run_enter e (emit (EvRun e) s) else emit (EvRun e) s)
  = Some (r, s2) →
  exec prog (S fuel) (COp (ORun e)) s
  = Some (r, if active eff then run_exit e s2 else s2).
Proof.
  intros He Hor H. destruct (active eff) eqn:Ha.
  - destruct Hor as [?|Hnin]; [done|].
    by rewrite (exec_run_active _ _ _ _ _ He Ha Hnin), H.
  - by rewrite (exec_run_inactive _ _ _ _ _ He Ha).
Qed.

(** C3: when the wrapped function of an effect throws, [run] throws the same
    value to its caller, and the exit bookkeeping has been done on the way
    out.  For a live effect the [finally] block has taken the depth back by
    one and its bit marker with it, popped the effect off the stack, made the
    new top of the stack (or none) the active effect, and popped the
    should-track stack once: depth, bit marker, effect stack and active
    effect are what they were before the call, and so is the should-track
    state when the function left the should-track stack as it found it, as
    every program does that does not itself pause or resume tracking.  The
    run of a stopped effect is a plain call and has nothing to restore. *)
Theorem run_failure_restores (prog : FnId → Script) (fuel : nat) (e : EffId)
    (eff : ReactiveEffect) (st : list EffId) (s : State) (err : Err) (s2 : State) :
  ctx_ok st s →
  effects s !! e = Some eff →
  active eff = false ∨ e ∉ st →
  exec prog fuel (CCall (fn eff))
    (if active eff then run_enter e (emit (EvRun e) s) else emit (EvRun e) s)
  = Some (Threw err, s2) →
  ∃ s',
    exec prog (S fuel) (COp (ORun e)) s = Some (Threw err, s')
    ∧ s' = (if active eff then run_exit e s2 else s2)
    ∧ effectTrackDepth s' = effectTrackDepth s
    ∧ trackOpBit s' = trackOpBit s
    ∧ effectStack s' = effectStack s
    ∧ activeEffect s' = activeEffect s
    ∧ (active eff = true →
       effectTrackDepth s2 = effectTrackDepth s + 1
       ∧ effectStack s2 = effectStack s ++ [e]
       ∧ shouldTrack s' = default true (last (trackStack s2))
       ∧ trackStack s' = removelast (trackStack s2)
       ∧ (trackStack s2 = trackStack s ++ [shouldTrack s] →
          shouldTrack s' = shouldTrack s ∧ trackStack s' = trackStack s))
    ∧ ((∀ f, Forall no_tracking_op (ops (prog f))) →
       shouldTrack s' = shouldTrack s ∧ trackStack s' = trackStack s).
Proof.
  intros Hctx He Hor Hcall.
  assert (active eff = false ∨ e ∉ effectStack s) as Hor'
    by (destruct Hctx as [-> _]; done).
  pose proof (exec_run_call _ _ _ _ _ _ _ He Hor' Hcall) as Hrun.
  destruct (run_threw_inv _ _ _ _ _ _ _ _ Hctx He Hrun)
    as (Hinv & Hd & Hb & Hst & Ha & Htr).
  eexists. split; [exact Hrun|]. split; [done|].
  split_and!; try done.
  intros Hact. rewrite Hact in *.
  destruct Hinv as (fuel' & s0 & s2' & _ & [(_ & _ & _ & _ & _ & _)|(Hf & _)]);
    [|congruence].
  assert (ctx_ok (st ++ [e]) s2) as (Hst2 & Hd2 & _).
  { eapply exec_ctx; [|exact Hcall]. apply ctx_ok_enter.
    by eapply ctx_ok_same; [|exact Hctx]. }
  pose proof (f_equal fst (run_exit_tracking e s2)) as Hx1.
  pose proof (f_equal snd (run_exit_tracking e s2)) as Hx2.
  change (shouldTrack (run_exit e s2) = default true (last (trackStack s2))) in Hx1.
  change (trackStack (run_exit e s2) = removelast (trackStack s2)) in Hx2.
  destruct Hctx as (Hs & Hds & _).
  split_and!.
  - rewrite Hd2, Hds, length_app. simpl. lia.
  - by rewrite Hst2, Hs.
  - exact Hx1.
  - exact Hx2.
  - intros Hbal. rewrite Hx1, Hx2, Hbal.
    by rewrite last_snoc, removelast_last.
Qed.

(** A function that pauses tracking and throws before it resets it.  The
    effect is run while tracking is paused by the caller: the should-track
    state is [false] over the stack [[true]].  [run] throws what the function
    threw; the [finally] block pops the should-track stack once, which takes
    back the pause of the function and not the [enableTracking] of [run]
    itself.  Depth, bit marker, effect stack and active effect are as before
    the call; the should-track state is [true] over [[true; false]], and is
    not the one before the call. *)
Lemma run_failure_unbalanced_pause :
  ∃ s',
    ctx_ok [] (pauseTracking (w_state [w_eff 0]))
    ∧ exec w_pause_thrower 9 (COp (ORun 0)) (pauseTracking (w_state [w_eff 0]))
      = Some (Threw (UserError 7), s')
    ∧ tracking_of (pauseTracking (w_state [w_eff 0])) = (false, [true])
    ∧ tracking_of s' = (true, [true; false])
    ∧ ctx_of s' = ctx_of (pauseTracking (w_state [w_eff 0]))
    ∧ shouldTrack s' ≠ shouldTrack (pauseTracking (w_state [w_eff 0])).
Proof.
  eexists. split; [by repeat split|].
  split; [vm_compute; reflexivity|]. by vm_compute.
Qed.

(** ** triggerEffects: one decision per effect of the snapshot *)

Lemma exec_te_nil prog fuel s :
  exec prog (S fuel) (CTriggerEffects []) s = Some (Returned VUndefined, s).
Proof. done. Qed.

Lemma exec_te_cons prog fuel e rest s eff :
  effects s !! e = Some eff →
  exec prog (S fuel) (CTriggerEffects (e :: rest)) s
  = if bool_decide (activeEffect s ≠ Some e) || allowRecurse eff then
      match
        match scheduler eff with
        | Some f => exec prog fuel (CCall f) (emit (EvSched e) (emit (EvTrigger e) s))
        | None => exec prog fuel (COp (ORun e)) (emit (EvTrigger e) s)
        end
      with
      | Some (Returned _, s2) => exec prog fuel (CTriggerEffects rest) s2
      | r => r
      end
    else exec prog fuel (CTriggerEffects rest) s.
Proof. intros He. rewrite exec_S. simpl. by rewrite He. Qed.

Lemma exec_te_undefined prog l : ∀ fuel s v s',
  exec prog fuel (CTriggerEffects l) s = Some (Returned v, s') → v = VUndefined.
Proof.
  induction l as [|e l IH]; intros fuel s v s' H;
    (destruct fuel as [|fuel]; [done|]).
  - rewrite exec_te_nil in H. by simplify_eq.
  - destruct (effects s !! e) as [eff|] eqn:He.
    2:{ rewrite exec_S in H. simpl in H. by rewrite He in H. }
    rewrite (exec_te_cons _ _ _ _ _ _ He) in H.
    destruct (_ || _); [|by eapply IH].
    destruct (scheduler eff);
      (destruct (exec prog fuel _ _) as [[[v1|err] s1]|]; [|done|done]);
      by eapply IH.
Qed.

Lemma ctx_ok_emit st ev s : ctx_ok st s → ctx_ok st (emit ev s).
Proof. by apply ctx_ok_same. Qed.

(** C5: what [triggerEffects] does with each effect of the list it iterates.
    When the loop runs to its end, it has reached every effect [e] of the
    list with the active effect it started with; it has passed over [e]
    exactly when [e] is that active effect and does not allow recursion;
    otherwise it has called the scheduler of [e] if there is one, and not
    [run], or else [run] of [e], then and there. *)
Theorem triggerEffects_each (prog : FnId → Script) (l1 : list EffId) :
  ∀ (fuel : nat) (st : list EffId) (s : State) (e : EffId) (l2 : list EffId)
    (eff : ReactiveEffect) (v : Value) (s' : State),
  ctx_ok st s →
  effects s !! e = Some eff →
  exec prog fuel (CTriggerEffects (l1 ++ e :: l2)) s = Some (Returned v, s') →
  ∃ s1 s2,
    exec prog fuel (CTriggerEffects l1) s = Some (Returned VUndefined, s1)
    ∧ activeEffect s1 = activeEffect s
    ∧ (if bool_decide (activeEffect s = Some e) && negb (allowRecurse eff)
       then s2 = s1
       else ∃ v',
         match scheduler eff with
         | Some f =>
             exec prog fuel (CCall f) (emit (EvSched e) (emit (EvTrigger e) s1))
             = Some (Returned v', s2)
         | None =>
             exec prog fuel (COp (ORun e)) (emit (EvTrigger e) s1)
             = Some (Returned v', s2)
         end)
    ∧ exec prog fuel (CTriggerEffects l2) s2 = Some (Returned VUndefined, s').
Proof.
  induction l1 as [|a l1 IH]; intros fuel st s e l2 eff v s' Hctx He H;
    (destruct fuel as [|fuel]; [done|]).
  - change ([] ++ e :: l2) with (e :: l2) in H.
    rewrite (exec_te_cons _ _ _ _ _ _ He) in H.
    exists s. rewrite exec_te_nil.
    destruct (bool_decide (activeEffect s = Some e)) eqn:Hact.
    + apply bool_decide_eq_true in Hact.
      rewrite (bool_decide_eq_false_2 (activeEffect s ≠ Some e)) in H by tauto.
      simpl in *. destruct (allowRecurse eff); simpl in *.
      * destruct (scheduler eff) as [f|];
          (destruct (exec prog fuel _ _) as [[[v1|err] s1]|] eqn:E1; [|done|done]);
          exists s1; (split; [done|]); (split; [done|]);
          (split; [exists v1; by apply exec_fuel_S|]);
          rewrite (exec_te_undefined _ _ _ _ _ _ H) in H; by apply exec_fuel_S.
      * exists s. repeat split; try done.
        rewrite (exec_te_undefined _ _ _ _ _ _ H) in H. by apply exec_fuel_S.
    + apply bool_decide_eq_false in Hact.
      rewrite (bool_decide_eq_true_2 (activeEffect s ≠ Some e)) in H by done.
      simpl in *.
      destruct (scheduler eff) as [f|];
        (destruct (exec prog fuel _ _) as [[[v1|err] s1]|] eqn:E1; [|done|done]);
        exists s1; (split; [done|]); (split; [done|]);
        (split; [exists v1; by apply exec_fuel_S|]);
        rewrite (exec_te_undefined _ _ _ _ _ _ H) in H; by apply exec_fuel_S.
  - change ((a :: l1) ++ e :: l2) with (a :: (l1 ++ e :: l2)) in H.
    destruct (effects s !! a) as [ea|] eqn:Ha.
    2:{ rewrite exec_S in H. simpl in H. by rewrite Ha in H. }
    rewrite (exec_te_cons _ _ _ _ _ _ Ha) in H.
    rewrite (exec_te_cons _ _ _ _ _ _ Ha).
    assert (∀ sa : State,
              ctx_ok st sa → static_le (effects s) (effects sa) →
              exec prog fuel (CTriggerEffects (l1 ++ e :: l2)) sa = Some (Returned v, s') →
              ∃ s1 s2,
                exec prog fuel (CTriggerEffects l1) sa = Some (Returned VUndefined, s1)
                ∧ activeEffect s1 = activeEffect s
                ∧ (if bool_decide (activeEffect s = Some e) && negb (allowRecurse eff)
                   then s2 = s1
                   else ∃ v',
                     match scheduler eff with
                     | Some f =>
                         exec prog (S fuel) (CCall f)
                           (emit (EvSched e) (emit (EvTrigger e) s1))
                         = Some (Returned v', s2)
                     | None =>
                         exec prog (S fuel) (COp (ORun e)) (emit (EvTrigger e) s1)
                         = Some (Returned v', s2)
                     end)
                ∧ exec prog (S fuel) (CTriggerEffects l2) s2
                  = Some (Returned VUndefined, s')) as Hrest.
    { intros sa Hsa Hstat Hx.
      destruct (Hstat _ _ He) as (eff' & He' & _ & Hsch & Hrec & _).
      destruct (IH _ _ _ _ _ _ _ _ Hsa He' Hx) as (s1 & s2 & H1 & H2 & H3 & H4).
      exists s1, s2. split; [done|].
      assert (activeEffect sa = activeEffect s) as Heq.
      { destruct Hctx as (_ & _ & _ & ->). by destruct Hsa as (_ & _ & _ & ->). }
      rewrite Heq, Hsch, Hrec in *. split; [done|]. split.
      - destruct (_ && _); [done|]. destruct H3 as [v' H3]. exists v'.
        destruct (scheduler eff); by apply exec_fuel_S.
      - by apply exec_fuel_S. }
    destruct (_ || _).
    + destruct (scheduler ea) as [f|].
      * destruct (exec prog fuel (CCall f) _) as [[[v1|err] sa]|] eqn:E1; [|done|done].
        apply Hrest; [|exact (exec_static _ _ _ _ _ _ E1)|done].
        eapply exec_ctx; [|exact E1]. by do 2 apply ctx_ok_emit.
      * destruct (exec prog fuel (COp (ORun a)) _) as [[[v1|err] sa]|] eqn:E1;
          [|done|done].
        apply Hrest; [|exact (exec_static _ _ _ _ _ _ E1)|done].
        eapply exec_ctx; [|exact E1]. by apply ctx_ok_emit.
    + apply Hrest; [done|apply static_le_refl|done].
Qed.

(** ** Bit markers *)

Lemma shl1_small d : 0 ≤ d ≤ 30 → shl1 d = 2 ^ d.
Proof.
  intros Hd. unfold shl1. rewrite Z.mod_small by lia.
  destruct (Z.eqb_spec d 31); [lia|done].
Qed.

Lemma land_pow2 x d : 0 ≤ d → Z.land x (2 ^ d) = if Z.testbit x d then 2 ^ d else 0.
Proof.
  intros Hd. apply Z.bits_inj'. intros j Hj.
  rewrite Z.land_spec, Z.pow2_bits_eqb by done.
  destruct (Z.eqb_spec d j) as [->|Hne].
  - destruct (Z.testbit x j); simpl.
    + rewrite Z.pow2_bits_eqb by done. by rewrite Z.eqb_refl.
    + by rewrite Z.bits_0.
  - rewrite andb_false_r. destruct (Z.testbit x d).
    + rewrite Z.pow2_bits_eqb by done. symmetry. by apply Z.eqb_neq.
    + by rewrite Z.bits_0.
Qed.

Lemma tracked_testbit x d : 0 ≤ d → (0 <? Z.land x (2 ^ d)) = Z.testbit x d.
Proof.
  intros Hd. rewrite land_pow2 by done.
  destruct (Z.testbit x d); [|done].
  apply Z.ltb_lt. by apply Z.pow_pos_nonneg.
Qed.

Lemma testbit_mark x d j :
  0 ≤ d → Z.testbit (Z.lor x (2 ^ d)) j = Z.testbit x j || (d =? j).
Proof. intros Hd. by rewrite Z.lor_spec, Z.pow2_bits_eqb. Qed.

Lemma testbit_clear x d j :
  0 ≤ d → 0 ≤ j → Z.testbit (Z.land x (Z.lnot (2 ^ d))) j = Z.testbit x j && negb (d =? j).
Proof. intros Hd Hj. by rewrite Z.land_spec, Z.lnot_spec, Z.pow2_bits_eqb. Qed.

(** ** Heap operations, pointwise *)

Lemma foldl_alter_lookup {A} (f : A → A) (ds : list nat) : ∀ (h : list A) (d : nat),
  (∀ x, f (f x) = f x) →
  foldl (λ h d, alter f d h) h ds !! d
  = (if decide (d ∈ ds) then f else id) <$> h !! d.
Proof.
  induction ds as [|a ds IH]; intros h d Hf; simpl.
  - by destruct (h !! d).
  - rewrite IH by done. destruct (decide (a = d)) as [->|Hne].
    + rewrite list_lookup_alter_eq. rewrite (decide_True (P := d ∈ d :: ds)) by left.
      destruct (h !! d) as [x|]; simpl; [|done].
      case_decide; simpl; by rewrite ?Hf.
    + rewrite list_lookup_alter_ne by done.
      destruct (decide (d ∈ ds)) as [Hin|Hnin].
      * by rewrite decide_True by by right.
      * rewrite decide_False; [done|]. rewrite elem_of_cons. by intros [?|?].
Qed.

Lemma deps_of_alter_deps f e e' l s :
  deps_of e' (with_effects (alter (λ eff, set_deps (f eff) eff) e l) s)
  = match l !! e' with
    | Some eff => if decide (e = e') then f eff else deps eff
    | None => []
    end.
Proof.
  unfold deps_of. simpl. destruct (decide (e = e')) as [->|Hne].
  - rewrite list_lookup_alter_eq. by destruct (l !! e').
  - by rewrite list_lookup_alter_ne.
Qed.

(** *** [cleanupEffect] *)

Lemma Dep_delete_idem e x : Dep.delete e (Dep.delete e x) = Dep.delete e x.
Proof.
  unfold Dep.delete, set_delete. simpl. f_equal.
  induction (Dep.members x) as [|a l IH]; [done|].
  rewrite !filter_cons. case_decide; [|done].
  rewrite filter_cons, decide_True by done. by rewrite IH.
Qed.

Lemma cleanupEffect_dep e s d :
  depHeap (cleanupEffect e s) !! d
  = (if decide (d ∈ deps_of e s) then Dep.delete e else id) <$> depHeap s !! d.
Proof. unfold cleanupEffect. simpl. apply foldl_alter_lookup, Dep_delete_idem. Qed.

Lemma cleanupEffect_members e s d :
  members_of d (cleanupEffect e s)
  = if decide (d ∈ deps_of e s) then set_delete e (members_of d s) else members_of d s.
Proof.
  unfold members_of. rewrite cleanupEffect_dep.
  destruct (depHeap s !! d) as [dep|]; simpl; by case_decide.
Qed.

Lemma cleanupEffect_deps e s e' :
  deps_of e' (cleanupEffect e s) = if decide (e = e') then [] else deps_of e' s.
Proof.
  unfold cleanupEffect.
  rewrite (deps_of_alter_deps (λ _, []) e e' (effects s)).
  unfold deps_of. simpl. destruct (effects s !! e'); by case_decide.
Qed.

Lemma cleanupEffect_length e s :
  length (effects (cleanupEffect e s)) = length (effects s)
  ∧ length (depHeap (cleanupEffect e s)) = length (depHeap s).
Proof.
  unfold cleanupEffect. simpl. by rewrite length_alter, foldl_alter_length.
Qed.

(** *** [initDepMarkers] *)

Lemma mark_w_idem bit x : mark_w bit (mark_w bit x) = mark_w bit x.
Proof.
  unfold mark_w, Dep.set_w. simpl. f_equal.
  by rewrite <- Z.lor_assoc, Z.lor_diag.
Qed.

Lemma initDepMarkers_dep e s d :
  depHeap (initDepMarkers e s) !! d
  = (if decide (d ∈ deps_of e s) then mark_w (trackOpBit s) else id) <$> depHeap s !! d.
Proof. unfold initDepMarkers. simpl. apply foldl_alter_lookup, mark_w_idem. Qed.

Lemma initDepMarkers_members e s d : members_of d (initDepMarkers e s) = members_of d s.
Proof.
  unfold members_of. rewrite initDepMarkers_dep.
  destruct (depHeap s !! d) as [dep|]; simpl; [by case_decide|done].
Qed.

Lemma initDepMarkers_deps e s e' : deps_of e' (initDepMarkers e s) = deps_of e' s.
Proof. done. Qed.

(** *** [finalizeDepMarkers] *)

Lemma finalize_loop_spec e bit ds : ∀ h,
  NoDup ds →
  (∀ d, (finalize_loop e bit ds h).1 !! d
        = (if decide (d ∈ ds) then finalize_dep e bit else id) <$> h !! d)
  ∧ (∀ d, d ∈ (finalize_loop e bit ds h).2 ↔ d ∈ ds ∧ stale_at bit h d = false)
  ∧ NoDup (finalize_loop e bit ds h).2.
Proof.
  induction ds as [|a ds IH]; intros h Hnd; simpl.
  - split; [|split].
    + intros d. by destruct (h !! d).
    + intros d. rewrite elem_of_nil. tauto.
    + apply NoDup_nil_2.
  - apply NoDup_cons in Hnd as [Ha Hnd].
    assert (∀ (g : Dep.t → Dep.t) d,
              d ≠ a → stale_at bit (alter g a h) d = stale_at bit h d) as Hst.
    { intros g d Hd. unfold stale_at. by rewrite list_lookup_alter_ne. }
    destruct (h !! a) as [dep|] eqn:Eh.
    + fold (stale bit dep). destruct (stale bit dep) eqn:Es.
      * destruct (IH (alter (λ x, clear_marks bit (Dep.delete e x)) a h) Hnd)
          as (H1 & H2 & H3).
        split; [|split; [|done]].
        -- intros d. rewrite H1. destruct (decide (a = d)) as [->|Hne].
           ++ rewrite list_lookup_alter_eq, Eh. simpl.
              rewrite decide_False by done. rewrite decide_True by left.
              simpl. unfold finalize_dep. by rewrite Es.
           ++ rewrite list_lookup_alter_ne by done.
              destruct (decide (d ∈ ds)) as [Hin|Hnin].
              ** by rewrite decide_True by by right.
              ** rewrite decide_False; [done|]. rewrite elem_of_cons.
                 intros [?|?]; congruence.
        -- intros d. rewrite H2, elem_of_cons. split.
           ++ intros [Hin Hs]. split; [by right|].
              rewrite Hst in Hs; [done|]. by intros ->.
           ++ intros [[->|Hin] Hs].
              ** unfold stale_at in Hs. rewrite Eh in Hs. congruence.
              ** split; [done|]. rewrite Hst; [done|]. by intros ->.
      * destruct (finalize_loop e bit ds (alter (clear_marks bit) a h))
          as [h' kept] eqn:Ef.
        destruct (IH (alter (clear_marks bit) a h) Hnd) as (H1 & H2 & H3).
        rewrite Ef in H1, H2, H3. simpl in *.
        split; [|split].
        -- intros d. rewrite H1. destruct (decide (a = d)) as [->|Hne].
           ++ rewrite list_lookup_alter_eq, Eh. simpl.
              rewrite decide_False by done. rewrite decide_True by left.
              simpl. unfold finalize_dep. by rewrite Es.
           ++ rewrite list_lookup_alter_ne by done.
              destruct (decide (d ∈ ds)) as [Hin|Hnin].
              ** by rewrite decide_True by by right.
              ** rewrite decide_False; [done|]. rewrite elem_of_cons.
                 intros [?|?]; congruence.
        -- intros d. rewrite !elem_of_cons, H2. split.
           ++ intros [->|[Hin Hs]].
              ** split; [by left|]. unfold stale_at. by rewrite Eh.
              ** split; [by right|]. rewrite Hst in Hs; [done|]. by intros ->.
           ++ intros [[->|Hin] Hs]; [by left|]. right.
              split; [done|]. rewrite Hst; [done|]. by intros ->.
        -- apply NoDup_cons. split; [|done]. rewrite H2. tauto.
    + destruct (finalize_loop e bit ds h) as [h' kept] eqn:Ef.
      destruct (IH h Hnd) as (H1 & H2 & H3).
      rewrite Ef in H1, H2, H3. simpl in *.
      split; [|split].
      * intros d. rewrite H1. destruct (decide (a = d)) as [->|Hne].
        -- rewrite Eh. simpl. done.
        -- destruct (decide (d ∈ ds)) as [Hin|Hnin].
           ++ by rewrite decide_True by by right.
           ++ rewrite decide_False; [done|]. rewrite elem_of_cons.
              intros [?|?]; congruence.
      * intros d. rewrite !elem_of_cons, H2. split.
        -- intros [->|[Hin Hs]].
           ++ split; [by left|]. unfold stale_at. by rewrite Eh.
           ++ split; [by right|done].
        -- intros [[->|Hin] Hs]; [by left|]. by right.
      * apply NoDup_cons. split; [|done]. rewrite H2. tauto.
Qed.

(** ** The dependency graph and its markers

    [graph_ok]: the two directions of the bookkeeping agree, and neither an
    effect's list nor a Dep repeats an entry.  [marks_ok st]: for an effect
    that is running at a depth within the marker bits, each Dep of its list
    carries one of the two marks of that depth. *)

Lemma marks_keep_refl J h : marks_keep J h h.
Proof. intros d dep H. by exists dep. Qed.

Lemma graph_ok_pointwise s s' :
  (∀ d, members_of d s' = members_of d s) →
  (∀ e, deps_of e s' = deps_of e s) →
  graph_ok s → graph_ok s'.
Proof.
  intros Hm Hd [H1 H2 H3]. split; intros.
  - by rewrite Hm, Hd.
  - by rewrite Hd.
  - by rewrite Hm.
Qed.

Lemma marks_ok_keep st s s' :
  (∀ e d, e ∈ st → d ∈ deps_of e s' → d ∈ deps_of e s) →
  marks_keep (λ j, 1 ≤ j ≤ Z.of_nat (length st)) (depHeap s) (depHeap s') →
  marks_ok st s → marks_ok st s'.
Proof.
  intros Hd Hk H i e d Hi Hle Hin.
  destruct (H i e d Hi Hle) as (dep & Hdep & Hm).
  { eapply Hd; [|done]. by eapply list_elem_of_lookup_2. }
  destruct (Hk _ _ Hdep) as (dep' & Hdep' & Hj).
  exists dep'. split; [done|]. apply Hj; [|done].
  apply lookup_lt_Some in Hi. lia.
Qed.

Lemma stack_ok_static st s s' :
  static_le (effects s) (effects s') → stack_ok st s → stack_ok st s'.
Proof.
  intros Hs [H1 H2]. split; [done|]. intros e He.
  destruct (H2 _ He) as [eff Heff]. destruct (Hs _ _ Heff) as (eff' & ? & _). eauto.
Qed.

Lemma heap_ok_frame st s s' :
  effects s' = effects s → depHeap s' = depHeap s → ctx_of s' = ctx_of s →
  heap_ok st s → heap_ok st s'.
Proof.
  intros He Hh Hc [H1 H2 H3 H4]. split.
  - by eapply ctx_ok_same.
  - eapply stack_ok_static; [|done]. rewrite He. apply static_le_refl.
  - eapply graph_ok_pointwise; [| |done].
    + intros d. unfold members_of. by rewrite Hh.
    + intros e. unfold deps_of. by rewrite He.
  - eapply marks_ok_keep; [| |done].
    + intros e d _. unfold deps_of. by rewrite He.
    + rewrite Hh. apply marks_keep_refl.
Qed.

(** *** A new effect, a stopped effect *)

Lemma heap_ok_new_effect st s eff :
  deps eff = [] → heap_ok st s →
  heap_ok st (with_effects (effects s ++ [eff]) s).
Proof.
  intros Hnil [H1 H2 H3 H4].
  assert (∀ e, deps_of e (with_effects (effects s ++ [eff]) s) = deps_of e s) as Hd.
  { intros e. unfold deps_of. simpl.
    destruct (decide (e < length (effects s))%nat) as [Hlt|Hge].
    - by rewrite lookup_app_l.
    - rewrite lookup_app_r by lia. rewrite (lookup_ge_None_2 (effects s)) by lia.
      by destruct (e - length (effects s))%nat. }
  split.
  - by eapply ctx_ok_same.
  - eapply stack_ok_static; [|done]. apply static_le_app.
  - apply graph_ok_pointwise with (s := s); [done|exact Hd|done].
  - eapply marks_ok_keep; [| |done].
    + intros e d _. by rewrite Hd.
    + apply marks_keep_refl.
Qed.

Lemma heap_ok_deactivate st s e :
  heap_ok st s → heap_ok st (with_effects (alter (set_active false) e (effects s)) s).
Proof.
  intros [H1 H2 H3 H4].
  assert (∀ e', deps_of e' (with_effects (alter (set_active false) e (effects s)) s)
                = deps_of e' s) as Hd.
  { intros e'. unfold deps_of. simpl. destruct (decide (e = e')) as [->|Hne].
    - rewrite list_lookup_alter_eq. by destruct (effects s !! e').
    - by rewrite list_lookup_alter_ne. }
  split.
  - by eapply ctx_ok_same.
  - eapply stack_ok_static; [|done]. by apply static_le_alter.
  - apply graph_ok_pointwise with (s := s); [done|exact Hd|done].
  - eapply marks_ok_keep; [| |done].
    + intros e' d _. by rewrite Hd.
    + apply marks_keep_refl.
Qed.

(** *** [cleanupEffect] *)

Lemma graph_ok_cleanup e s : graph_ok s → graph_ok (cleanupEffect e s).
Proof.
  intros [H1 H2 H3]. split.
  - intros e' d. rewrite cleanupEffect_members, cleanupEffect_deps.
    destruct (decide (e = e')) as [<-|Hne].
    + rewrite elem_of_nil. split; [|done].
      case_decide as Hin.
      * rewrite elem_of_set_delete. tauto.
      * by rewrite H1.
    + case_decide as Hin; [|apply H1].
      rewrite elem_of_set_delete, H1. split; [tauto|]. intros ?. split; [congruence|done].
  - intros e'. rewrite cleanupEffect_deps. case_decide; [apply NoDup_nil_2|apply H2].
  - intros d. rewrite cleanupEffect_members.
    case_decide; [apply NoDup_set_delete|]; apply H3.
Qed.

Lemma marks_keep_cleanup J e s : marks_keep J (depHeap s) (depHeap (cleanupEffect e s)).
Proof.
  intros d dep Hd. rewrite cleanupEffect_dep, Hd. simpl.
  eexists. split; [done|]. intros j _. by case_decide.
Qed.

Lemma heap_ok_cleanup st e s : heap_ok st s → heap_ok st (cleanupEffect e s).
Proof.
  intros [H1 H2 H3 H4]. split.
  - by eapply ctx_ok_same.
  - eapply stack_ok_static; [|done]. apply cleanupEffect_static.
  - by apply graph_ok_cleanup.
  - eapply marks_ok_keep; [| |done].
    + intros e' d _. rewrite cleanupEffect_deps. case_decide; [|done].
      by rewrite elem_of_nil.
    + apply marks_keep_cleanup.
Qed.

(** *** [track] *)

Lemma add_edge_members d e s d' :
  is_Some (depHeap s !! d) →
  members_of d' (add_edge d e s)
  = if decide (d' = d) then set_add e (members_of d' s) else members_of d' s.
Proof.
  intros [dep Hd]. unfold members_of, add_edge. simpl.
  destruct (decide (d' = d)) as [->|Hne].
  - by rewrite list_lookup_alter_eq, Hd.
  - by rewrite list_lookup_alter_ne.
Qed.

Lemma add_edge_deps d e s e' :
  is_Some (effects s !! e) →
  deps_of e' (add_edge d e s)
  = if decide (e' = e) then deps_of e' s ++ [d] else deps_of e' s.
Proof.
  intros [eff He]. unfold add_edge.
  rewrite (deps_of_alter_deps (λ eff, deps eff ++ [d])).
  unfold deps_of. destruct (decide (e' = e)) as [->|Hne].
  - rewrite He. by rewrite decide_True.
  - destruct (effects s !! e'); [|done]. by rewrite decide_False.
Qed.

Lemma graph_ok_add_edge d e s :
  is_Some (depHeap s !! d) → is_Some (effects s !! e) → d ∉ deps_of e s →
  graph_ok s → graph_ok (add_edge d e s).
Proof.
  intros Hd He Hnin [H1 H2 H3]. split.
  - intros e' d'. rewrite add_edge_members, add_edge_deps by done.
    destruct (decide (d' = d)) as [->|Hnd], (decide (e' = e)) as [->|Hne].
    + rewrite elem_of_set_add, elem_of_app, list_elem_of_singleton. tauto.
    + rewrite elem_of_set_add, H1. tauto.
    + rewrite elem_of_app, list_elem_of_singleton, H1. tauto.
    + apply H1.
  - intros e'. rewrite add_edge_deps by done. case_decide as Heq; [|apply H2].
    subst e'. apply NoDup_app. split; [apply H2|]. split; [|apply NoDup_singleton].
    by intros x Hx ->%list_elem_of_singleton.
  - intros d'. rewrite add_edge_members by done.
    case_decide; [apply NoDup_set_add|]; apply H3.
Qed.

Lemma add_edge_dep d e s d' dep :
  depHeap s !! d' = Some dep →
  ∃ dep', depHeap (add_edge d e s) !! d' = Some dep'
          ∧ Dep.w dep' = Dep.w dep ∧ Dep.n dep' = Dep.n dep.
Proof.
  intros Hd. unfold add_edge. simpl. destruct (decide (d = d')) as [->|Hne].
  - rewrite list_lookup_alter_eq, Hd. simpl. by eexists.
  - rewrite list_lookup_alter_ne by done. by eexists.
Qed.

Lemma marks_ok_add_edge st d e s :
  is_Some (effects s !! e) →
  (∀ i, st !! i = Some e → Z.of_nat (S i) ≤ maxMarkerBits →
        ∃ dep, depHeap s !! d = Some dep ∧ level_marked (Z.of_nat (S i)) dep = true) →
  marks_ok st s → marks_ok st (add_edge d e s).
Proof.
  intros He Hnew H i e' d' Hi Hle Hin.
  rewrite add_edge_deps in Hin by done.
  assert (∃ dep, depHeap s !! d' = Some dep
                 ∧ level_marked (Z.of_nat (S i)) dep = true) as (dep & Hd & Hm).
  { case_decide as Heq.
    - subst e'. apply elem_of_app in Hin as [Hin| ->%list_elem_of_singleton].
      + by eapply H.
      + by apply Hnew.
    - by eapply H. }
  destruct (add_edge_dep d e s d' dep Hd) as (dep' & Hd' & Hw & Hn).
  exists dep'. split; [done|]. unfold level_marked in *. by rewrite Hw, Hn.
Qed.

Lemma level_marked_mark_n bit j dep :
  level_marked j dep = true → level_marked j (mark_n bit dep) = true.
Proof.
  unfold level_marked, mark_n. simpl. rewrite Z.lor_spec.
  intros [H|H]%orb_true_iff; rewrite H; by rewrite ?orb_true_r.
Qed.

Lemma level_marked_mark_w bit j dep :
  level_marked j dep = true → level_marked j (mark_w bit dep) = true.
Proof.
  unfold level_marked, mark_w. simpl. rewrite Z.lor_spec.
  intros [H|H]%orb_true_iff; rewrite H; by rewrite ?orb_true_r.
Qed.

Lemma heap_ok_alter_marks st s (g : Dep.t → Dep.t) d :
  (∀ dep, Dep.members (g dep) = Dep.members dep) →
  (∀ j dep, level_marked j dep = true → level_marked j (g dep) = true) →
  heap_ok st s → heap_ok st (with_depHeap (alter g d (depHeap s)) s).
Proof.
  intros Hg1 Hg2 [H1 H2 H3 H4]. split.
  - by eapply ctx_ok_same.
  - done.
  - apply graph_ok_pointwise with (s := s); [|done|done].
    intros d'. unfold members_of. simpl. destruct (decide (d = d')) as [->|Hne].
    + rewrite list_lookup_alter_eq. destruct (depHeap s !! d'); simpl; [apply Hg1|done].
    + by rewrite list_lookup_alter_ne.
  - eapply marks_ok_keep; [| |done].
    + by intros e d' _.
    + intros d' dep Hd'. simpl. destruct (decide (d = d')) as [->|Hne].
      * rewrite list_lookup_alter_eq, Hd'. simpl. eexists. split; [done|].
        intros j _. apply Hg2.
      * rewrite list_lookup_alter_ne by done. by exists dep.
Qed.

(** The active effect is the last of the stack, at the level of the depth. *)
Lemma ctx_ok_active st s e :
  ctx_ok st s → NoDup st → activeEffect s = Some e →
  ∀ i, st !! i = Some e → Z.of_nat (S i) = effectTrackDepth s.
Proof.
  intros (Hst & Hd & Hb & Ha) Hnd Hact i Hi.
  rewrite Ha in Hact. rewrite last_lookup in Hact.
  pose proof (NoDup_lookup _ _ _ _ Hnd Hi Hact) as ->.
  rewrite Hd. apply lookup_lt_Some in Hi. lia.
Qed.

Lemma heap_ok_trackEffects st d s : heap_ok st s → heap_ok st (trackEffects d s).
Proof.
  intros Hok. unfold trackEffects.
  destruct (activeEffect s) as [e|] eqn:Hact; [|done].
  destruct (depHeap s !! d) as [dep|] eqn:Hd; [|done].
  pose proof Hok as [Hctx [Hnd Hval] Hg Hm].
  assert (is_Some (effects s !! e)) as He.
  { apply Hval. destruct Hctx as (_ & _ & _ & Ha). rewrite Ha in Hact.
    by apply last_Some_elem_of. }
  pose proof (ctx_ok_active _ _ _ Hctx Hnd Hact) as Hlevel.
  destruct (Z.leb_spec (effectTrackDepth s) maxMarkerBits) as [Hle|Hgt].
  - assert (trackOpBit s = 2 ^ effectTrackDepth s ∧ 0 ≤ effectTrackDepth s)
      as [Hbit Hpos].
    { destruct Hctx as (_ & Hdp & -> & _). split; [|lia].
      apply shl1_small. unfold maxMarkerBits in Hle. lia. }
    destruct (newTracked (trackOpBit s) dep) eqn:Hnew; simpl; [done|].
    set (s1 := with_depHeap (alter (mark_n (trackOpBit s)) d (depHeap s)) s).
    assert (heap_ok st s1) as Hok1.
    { apply heap_ok_alter_marks; [done| |done]. intros j x. apply level_marked_mark_n. }
    destruct (wasTracked (trackOpBit s) dep) eqn:Hwas; simpl; [done|].
    destruct Hok1 as [Hctx1 Hst1 Hg1 Hm1].
    assert (depHeap s1 !! d = Some (mark_n (trackOpBit s) dep)) as Hd1.
    { unfold s1. simpl. by rewrite list_lookup_alter_eq, Hd. }
    split.
    + by eapply ctx_ok_same.
    + eapply stack_ok_static; [|done]. apply add_edge_static.
    + apply graph_ok_add_edge; [by rewrite Hd1|done| |done].
      intros Hin.
      destruct Hctx as (_ & _ & _ & Ha). rewrite Ha, last_lookup in Hact.
      destruct (Hm _ _ d Hact) as (dep0 & Hd0 & Hmk).
      { rewrite (Hlevel _ Hact). done. }
      { done. }
      rewrite Hd in Hd0. injection Hd0 as <-.
      rewrite (Hlevel _ Hact) in Hmk. unfold level_marked in Hmk.
      unfold wasTracked, newTracked in *. rewrite Hbit in *.
      rewrite tracked_testbit in Hwas, Hnew by done.
      by rewrite Hwas, Hnew in Hmk.
    + apply marks_ok_add_edge; [done| |done].
      intros i Hi _. exists (mark_n (trackOpBit s) dep). split; [done|].
      rewrite (Hlevel _ Hi). unfold level_marked, mark_n. simpl.
      rewrite Hbit, testbit_mark by done. rewrite Z.eqb_refl.
      by rewrite !orb_true_r.
  - destruct (decide (e ∈ Dep.members dep)) as [Hin|Hnin]; [done|].
    split.
    + by eapply ctx_ok_same.
    + eapply stack_ok_static; [|done]. apply add_edge_static.
    + apply graph_ok_add_edge; [by rewrite Hd|done| |done].
      intros Hin. apply Hnin. apply (ok_sym _ Hg) in Hin.
      unfold members_of in Hin. by rewrite Hd in Hin.
    + apply marks_ok_add_edge; [done| |done].
      intros i Hi Hle. rewrite (Hlevel _ Hi) in Hle. lia.
Qed.

Lemma heap_ok_alloc_dep st s :
  heap_ok st s → heap_ok st (with_depHeap (depHeap s ++ [createDep []]) s).
Proof.
  intros [H1 H2 H3 H4]. split.
  - by eapply ctx_ok_same.
  - done.
  - apply graph_ok_pointwise with (s := s); [|done|done].
    intros d. unfold members_of. simpl.
    destruct (decide (d < length (depHeap s))%nat) as [Hlt|Hge].
    + by rewrite lookup_app_l.
    + rewrite lookup_app_r by lia. rewrite (lookup_ge_None_2 (depHeap s)) by lia.
      by destruct (d - length (depHeap s))%nat as [|[|]].
  - eapply marks_ok_keep; [| |done].
    + by intros e d _.
    + intros d dep Hd. simpl. exists dep. split; [|done]. by apply lookup_app_l_Some.
Qed.

Lemma heap_ok_targetMap st s tm : heap_ok st s → heap_ok st (with_targetMap tm s).
Proof. by apply heap_ok_frame. Qed.

Lemma heap_ok_track st t k s : heap_ok st s → heap_ok st (track t k s).
Proof.
  intros Hok. unfold track. destruct (negb (isTracking s)); [done|].
  set (s1 := match alist_get t (targetMap s) with
             | Some _ => s
             | None => with_targetMap (alist_set t [] (targetMap s)) s
             end).
  assert (heap_ok st s1) as Hok1.
  { unfold s1. destruct (alist_get t (targetMap s)); [done|]. by apply heap_ok_targetMap. }
  simpl. destruct (alist_get k _) as [d|].
  - by apply heap_ok_trackEffects.
  - apply heap_ok_trackEffects, heap_ok_targetMap. by apply heap_ok_alloc_dep.
Qed.

(** *** [finalizeDepMarkers], pointwise *)

Lemma finalizeDepMarkers_dep e s d :
  NoDup (deps_of e s) →
  depHeap (finalizeDepMarkers e s) !! d
  = (if decide (d ∈ deps_of e s) then finalize_dep e (trackOpBit s) else id)
      <$> depHeap s !! d.
Proof.
  intros Hnd. unfold finalizeDepMarkers.
  destruct (finalize_loop_spec e (trackOpBit s) (deps_of e s) (depHeap s) Hnd)
    as (H1 & _).
  destruct (finalize_loop _ _ _ _) as [h kept]. simpl in *. apply H1.
Qed.

Lemma finalizeDepMarkers_members e s d :
  NoDup (deps_of e s) →
  members_of d (finalizeDepMarkers e s)
  = if decide (d ∈ deps_of e s) then
      if stale_at (trackOpBit s) (depHeap s) d then set_delete e (members_of d s)
      else members_of d s
    else members_of d s.
Proof.
  intros Hnd. unfold members_of, stale_at. rewrite finalizeDepMarkers_dep by done.
  destruct (depHeap s !! d) as [dep|]; simpl.
  - case_decide; [|done]. unfold finalize_dep. by destruct (stale _ dep).
  - by case_decide.
Qed.

Lemma finalizeDepMarkers_deps e s :
  NoDup (deps_of e s) →
  (∀ e', e' ≠ e → deps_of e' (finalizeDepMarkers e s) = deps_of e' s)
  ∧ (∀ d, d ∈ deps_of e (finalizeDepMarkers e s)
          ↔ d ∈ deps_of e s ∧ stale_at (trackOpBit s) (depHeap s) d = false)
  ∧ NoDup (deps_of e (finalizeDepMarkers e s)).
Proof.
  intros Hnd. unfold finalizeDepMarkers.
  destruct (finalize_loop_spec e (trackOpBit s) (deps_of e s) (depHeap s) Hnd)
    as (_ & H2 & H3).
  destruct (finalize_loop _ _ _ _) as [h kept]. simpl in *.
  unfold deps_of in *. simpl. split; [|rewrite list_lookup_alter_eq].
  - intros e' Hne. by rewrite list_lookup_alter_ne.
  - destruct (effects s !! e) as [eff|]; simpl; [done|].
    split; [|apply NoDup_nil_2]. intros d. rewrite elem_of_nil. tauto.
Qed.

(** *** Entering and leaving a run *)

Lemma deps_of_valid s e d : graph_ok s → d ∈ deps_of e s → is_Some (depHeap s !! d).
Proof.
  intros Hg Hin. apply (ok_sym _ Hg) in Hin. unfold members_of in Hin.
  destruct (depHeap s !! d); [done|]. by apply elem_of_nil in Hin.
Qed.

Lemma run_enter_eq e s :
  run_enter e s
  = if effectTrackDepth s + 1 <=? maxMarkerBits
    then initDepMarkers e
           (with_depth (effectTrackDepth s + 1) (shl1 (effectTrackDepth s + 1))
              (enableTracking (with_stack (effectStack s ++ [e]) (Some e) s)))
    else cleanupEffect e
           (with_depth (effectTrackDepth s + 1) (shl1 (effectTrackDepth s + 1))
              (enableTracking (with_stack (effectStack s ++ [e]) (Some e) s))).
Proof. done. Qed.

Lemma heap_parts_ext st s s' :
  effects s' = effects s → depHeap s' = depHeap s →
  stack_ok st s → graph_ok s → marks_ok st s →
  stack_ok st s' ∧ graph_ok s' ∧ marks_ok st s'.
Proof.
  intros He Hh H2 H3 H4. split; [|split].
  - eapply stack_ok_static; [|done]. rewrite He. apply static_le_refl.
  - eapply graph_ok_pointwise; [| |done].
    + intros d. unfold members_of. by rewrite Hh.
    + intros e. unfold deps_of. by rewrite He.
  - eapply marks_ok_keep; [| |done].
    + intros e d _. unfold deps_of. by rewrite He.
    + rewrite Hh. apply marks_keep_refl.
Qed.

Lemma heap_ok_enter st e s :
  heap_ok st s → is_Some (effects s !! e) → e ∉ st →
  heap_ok (st ++ [e]) (run_enter e s).
Proof.
  intros Hok He Hnin. pose proof Hok as [Hctx [Hnd Hval] Hg Hm].
  pose proof (ctx_ok_enter _ e _ Hctx) as Hctx'.
  assert (stack_ok (st ++ [e]) s) as Hst.
  { split.
    - apply NoDup_app. split; [done|]. split; [|apply NoDup_singleton].
      by intros x Hx ->%list_elem_of_singleton.
    - intros x [Hx| ->%list_elem_of_singleton]%elem_of_app; [by apply Hval|done]. }
  rewrite run_enter_eq in *.
  set (s1 := with_depth (effectTrackDepth s + 1) (shl1 (effectTrackDepth s + 1))
               (enableTracking (with_stack (effectStack s ++ [e]) (Some e) s))) in *.
  assert (stack_ok (st ++ [e]) s1) as Hst1.
  { eapply stack_ok_static; [|exact Hst]. apply static_le_refl. }
  assert (stack_ok st s1 ∧ graph_ok s1 ∧ marks_ok st s1) as (_ & Hg1 & Hm1).
  { by apply (heap_parts_ext st s). }
  destruct (Z.leb_spec (effectTrackDepth s + 1) maxMarkerBits) as [Hle|Hgt].
  - split; [done| | |].
    + eapply stack_ok_static; [|exact Hst1]. apply static_le_refl.
    + apply graph_ok_pointwise with (s := s1); [|done|done].
      intros d. by rewrite initDepMarkers_members.
    + intros i x d Hi Hlev Hin. rewrite initDepMarkers_deps in Hin.
      rewrite initDepMarkers_dep.
      destruct (deps_of_valid _ _ _ Hg1 Hin) as [dep Hdep]. rewrite Hdep. simpl.
      eexists. split; [done|].
      apply lookup_app_Some in Hi as [Hi|[Hlen Hi]].
      * destruct (Hm1 _ _ _ Hi Hlev Hin) as (dep0 & Hd0 & Hmk).
        rewrite Hdep in Hd0. injection Hd0 as <-.
        case_decide; [|done]. by apply level_marked_mark_w.
      * apply list_lookup_singleton_Some in Hi as [Hi <-].
        rewrite decide_True by done.
        assert (i = length st) as -> by lia.
        destruct Hctx as (_ & Hdp & _).
        change (trackOpBit s1) with (shl1 (effectTrackDepth s + 1)).
        rewrite shl1_small by (unfold maxMarkerBits in *; lia).
        unfold level_marked, mark_w, Dep.set_w. cbn [Dep.w Dep.n].
        rewrite testbit_mark by lia.
        replace (effectTrackDepth s + 1 =? Z.of_nat (S (length st))) with true.
        { by rewrite orb_true_r. }
        symmetry. apply Z.eqb_eq. lia.
  - assert (heap_ok st (cleanupEffect e s)) as [_ _ Hg' Hm'] by by apply heap_ok_cleanup.
    split; [done| | |].
    + eapply stack_ok_static; [|exact Hst1]. apply (cleanupEffect_static e s1).
    + apply graph_ok_pointwise with (s := cleanupEffect e s); done.
    + intros i x d Hi Hlev Hin.
      apply lookup_app_Some in Hi as [Hi|[Hlen Hi]].
      * by apply (Hm' i x d).
      * apply list_lookup_singleton_Some in Hi as [Hi <-].
        destruct Hctx as (_ & Hdp & _). lia.
Qed.

Lemma level_marked_clear d j dep :
  0 ≤ d → 0 ≤ j → j ≠ d →
  level_marked j (clear_marks (2 ^ d) dep) = level_marked j dep.
Proof.
  intros Hd Hj Hne. unfold level_marked, clear_marks. simpl.
  rewrite !testbit_clear by done.
  replace (d =? j) with false; [by rewrite !andb_true_r|].
  symmetry. apply Z.eqb_neq. lia.
Qed.

Lemma graph_ok_finalize e s :
  is_Some (effects s !! e) → graph_ok s → graph_ok (finalizeDepMarkers e s).
Proof.
  intros He Hg. pose proof Hg as [H1 H2 H3].
  destruct (finalizeDepMarkers_deps e s (H2 e)) as (Hd1 & Hd2 & Hd3).
  split.
  - intros e' d. rewrite finalizeDepMarkers_members by done.
    destruct (decide (e' = e)) as [->|Hne].
    + rewrite Hd2. case_decide as Hin.
      * destruct (stale_at _ _ d).
        -- rewrite elem_of_set_delete. split; [tauto|]. intros [_ ?]. done.
        -- rewrite H1. tauto.
      * rewrite H1. tauto.
    + rewrite (Hd1 _ Hne). case_decide as Hin; [|apply H1].
      destruct (stale_at _ _ d); [|apply H1].
      rewrite elem_of_set_delete, H1. tauto.
  - intros e'. destruct (decide (e' = e)) as [->|Hne]; [done|].
    rewrite (Hd1 _ Hne). apply H2.
  - intros d. rewrite finalizeDepMarkers_members by done.
    repeat case_match; try apply H3. apply NoDup_set_delete, H3.
Qed.

Lemma run_exit_heaps e s :
  effects (run_exit e s)
  = effects (if effectTrackDepth s <=? maxMarkerBits then finalizeDepMarkers e s else s)
  ∧ depHeap (run_exit e s)
    = depHeap (if effectTrackDepth s <=? maxMarkerBits then finalizeDepMarkers e s else s).
Proof. unfold run_exit. by destruct (_ <=? _). Qed.

Lemma marks_keep_finalize e s (D : Z) :
  NoDup (deps_of e s) → 0 ≤ D → trackOpBit s = 2 ^ D →
  marks_keep (λ j, 1 ≤ j ∧ j ≠ D) (depHeap s) (depHeap (finalizeDepMarkers e s)).
Proof.
  intros Hnd HD Hbit d dep Hd. rewrite finalizeDepMarkers_dep, Hd by done. simpl.
  eexists. split; [done|]. intros j [Hj1 Hj2].
  case_decide; [|done]. unfold finalize_dep. rewrite Hbit.
  rewrite level_marked_clear by lia. by destruct (stale _ dep).
Qed.

Lemma heap_ok_exit st e s : heap_ok (st ++ [e]) s → heap_ok st (run_exit e s).
Proof.
  intros Hok. pose proof Hok as [Hctx [Hnd Hval] Hg Hm].
  pose proof (ctx_ok_exit _ _ _ Hctx) as Hctx'.
  apply NoDup_app in Hnd as (Hnd & Hne & _).
  assert (e ∉ st) as Hnin.
  { intros Hin. apply (Hne _ Hin). by apply list_elem_of_singleton. }
  assert (marks_ok st s) as Hm0.
  { intros i x d Hi. apply Hm. by apply lookup_app_l_Some. }
  assert (stack_ok st s) as Hst.
  { split; [done|]. intros x Hx. apply Hval, elem_of_app. by left. }
  assert (is_Some (effects s !! e)) as He.
  { apply Hval, elem_of_app. right. by apply list_elem_of_singleton. }
  destruct (run_exit_heaps e s) as [Heff Hheap].
  set (s1 := if effectTrackDepth s <=? maxMarkerBits
             then finalizeDepMarkers e s else s) in *.
  assert (stack_ok st s1 ∧ graph_ok s1 ∧ marks_ok st s1) as (P1 & P2 & P3).
  { unfold s1. destruct (Z.leb_spec (effectTrackDepth s) maxMarkerBits) as [Hle|Hgt];
      [|done].
    destruct (finalizeDepMarkers_deps e s (ok_deps_nodup _ Hg e)) as (Hd1 & Hd2 & Hd3).
    split; [|split].
    - eapply stack_ok_static; [|exact Hst]. apply finalizeDepMarkers_static.
    - by apply graph_ok_finalize.
    - eapply marks_ok_keep; [| |exact Hm0].
      + intros x d Hx. rewrite Hd1; [done|]. by intros ->.
      + destruct Hctx as (_ & Hdp & Hb & _).
        rewrite length_app in Hdp. simpl in Hdp.
        intros d dep Hd.
        destruct (marks_keep_finalize e s (effectTrackDepth s)
                    (ok_deps_nodup _ Hg e) ltac:(lia)) with (d := d) (dep := dep)
          as (dep' & Hd' & Hk); [|done|].
        { rewrite Hb. apply shl1_small. unfold maxMarkerBits in Hle. lia. }
        exists dep'. split; [done|]. intros j Hj. apply Hk. lia. }
  destruct (heap_parts_ext st s1 (run_exit e s) Heff Hheap P1 P2 P3) as (Q1 & Q2 & Q3).
  by split.
Qed.

(** ** Every execution keeps the graph *)

Lemma heap_ok_emit st ev s : heap_ok st s → heap_ok st (emit ev s).
Proof. by apply heap_ok_frame. Qed.

Lemma exec_heap_ok prog fuel c st s r s' :
  heap_ok st s → exec prog fuel c s = Some (r, s') → heap_ok st s'.
Proof.
  intros Hok H.
  apply (exec_preserves prog (λ st e, st ++ [e]) heap_ok (λ _, True)
           ltac:(done) ltac:(done)) with (i := st) in H; try done.
  - intros i x t k _. apply heap_ok_track.
  - intros i x _. by apply heap_ok_frame.
  - intros i x _. by apply heap_ok_frame.
  - intros i x _. by apply heap_ok_frame.
  - intros i x e _. apply heap_ok_emit.
  - intros i x e eff _ Hx He _ Hnin. apply heap_ok_enter; [done|by rewrite He|].
    by destruct Hx as [(<- & _) _ _ _].
  - intros i x e. apply heap_ok_exit.
  - intros i x e eff _ Hx _ _. by apply heap_ok_cleanup.
  - intros i x e _. apply heap_ok_emit.
  - intros i x e _. apply heap_ok_deactivate.
  - intros i x e rest _. apply heap_ok_emit.
  - intros i x e rest _. apply heap_ok_emit.
  - intros i x f o g _ Hx. split; [|done]. apply heap_ok_new_effect; [|done].
    by destruct o.
Qed.

Lemma heap_ok_initial : heap_ok [] initial_state.
Proof.
  split.
  - done.
  - split; [apply NoDup_nil_2|]. by intros e Hin%elem_of_nil.
  - split.
    + intros e d. unfold members_of, deps_of. simpl.
      split; intros Hx; by apply elem_of_nil in Hx.
    + intros e. apply NoDup_nil_2.
    + intros d. apply NoDup_nil_2.
  - by intros i e d Hi.
Qed.

(** C2: symmetric bookkeeping.  Whatever the program and whatever calls are
    made from the start, once they have returned a Dep contains an effect if
    and only if the list of that effect contains the Dep. *)
Theorem symmetric_bookkeeping (prog : FnId → Script) (fuel : nat) (c : Cmd)
    (r : Outcome) (s : State) :
  exec prog fuel c initial_state = Some (r, s) →
  ∀ e d, e ∈ members_of d s ↔ d ∈ deps_of e s.
Proof.
  intros H. apply (exec_heap_ok _ _ _ _ _ _ _ heap_ok_initial) in H.
  apply (ok_sym _ (ok_graph _ _ H)).
Qed.

(** ** Counting events *)

Lemma count_ev_snoc ev l x :
  count_ev ev (l ++ [x]) = (count_ev ev l + if decide (x = ev) then 1 else 0)%nat.
Proof.
  unfold count_ev. rewrite filter_app, length_app, filter_cons, filter_nil.
  by case_decide.
Qed.

Lemma count_ev_emit ev x s :
  count_ev ev (log (emit x s))
  = (count_ev ev (log s) + if decide (x = ev) then 1 else 0)%nat.
Proof. apply count_ev_snoc. Qed.

(** ** Who can enter a Dep *)

Lemma trackEffects_members_sub d s d' e :
  e ∈ members_of d' (trackEffects d s) →
  e ∈ members_of d' s ∨ activeEffect s = Some e.
Proof.
  unfold trackEffects.
  destruct (activeEffect s) as [a|] eqn:Ha; [|by left].
  destruct (depHeap s !! d) as [dep|] eqn:Hd; [|by left].
  assert (∀ s0 : State,
            is_Some (depHeap s0 !! d) →
            (∀ x, members_of x s0 = members_of x s) →
            e ∈ members_of d' (add_edge d a s0) → e ∈ members_of d' s ∨ Some a = Some e)
    as Hadd.
  { intros s0 Hs0 Hm. rewrite add_edge_members by done.
    case_decide; rewrite ?elem_of_set_add, Hm; [|by left].
    intros [->|?]; [by right|by left]. }
  assert (∀ x, members_of x (with_depHeap (alter (mark_n (trackOpBit s)) d (depHeap s)) s)
               = members_of x s) as Hmark.
  { intros x. unfold members_of. simpl. destruct (decide (d = x)) as [->|Hne].
    - rewrite list_lookup_alter_eq. by destruct (depHeap s !! x).
    - by rewrite list_lookup_alter_ne. }
  destruct (_ <=? _).
  - destruct (negb (newTracked _ _)); [|by left].
    destruct (negb (wasTracked _ _)).
    + apply Hadd; [|done]. simpl. by rewrite list_lookup_alter_eq, Hd.
    + rewrite Hmark. by left.
  - case_decide; [by left|]. apply Hadd; [by rewrite Hd|done].
Qed.

Lemma track_members_sub t k s d e :
  e ∈ members_of d (track t k s) → e ∈ members_of d s ∨ activeEffect s = Some e.
Proof.
  unfold track. destruct (negb (isTracking s)); [by left|].
  set (s1 := match alist_get t (targetMap s) with
             | Some _ => s
             | None => with_targetMap (alist_set t [] (targetMap s)) s
             end).
  assert (depHeap s1 = depHeap s ∧ activeEffect s1 = activeEffect s) as [Hh Ha].
  { unfold s1. by destruct (alist_get t (targetMap s)). }
  assert (∀ x, members_of x s1 = members_of x s) as Hm.
  { intros x. unfold members_of. by rewrite Hh. }
  simpl. destruct (alist_get k _) as [d0|].
  - intros H. apply trackEffects_members_sub in H. by rewrite Hm, Ha in H.
  - intros H. apply trackEffects_members_sub in H. simpl in H. rewrite Ha in H.
    destruct H as [H|H]; [left|by right].
    unfold members_of in *. simpl in H. rewrite Hh in H.
    destruct (decide (d < length (depHeap s))%nat) as [Hlt|Hge].
    + by rewrite lookup_app_l in H.
    + rewrite lookup_app_r in H by lia.
      destruct (d - length (depHeap s))%nat as [|[|]]; simpl in H;
        by apply elem_of_nil in H.
Qed.

Lemma run_enter_members_sub x s d e :
  e ∈ members_of d (run_enter x s) → e ∈ members_of d s.
Proof.
  rewrite run_enter_eq. destruct (_ <=? _).
  - by rewrite initDepMarkers_members.
  - rewrite cleanupEffect_members. case_decide; [|done].
    rewrite elem_of_set_delete. by intros [_ ?].
Qed.

Lemma run_exit_members_sub x s d e :
  graph_ok s → e ∈ members_of d (run_exit x s) → e ∈ members_of d s.
Proof.
  intros Hg. destruct (run_exit_heaps x s) as [_ Hh].
  unfold members_of at 1. rewrite Hh. destruct (_ <=? _); [|done].
  fold (members_of d (finalizeDepMarkers x s)).
  rewrite finalizeDepMarkers_members by apply (ok_deps_nodup _ Hg).
  repeat case_match; try done. rewrite elem_of_set_delete. by intros [_ ?].
Qed.

Lemma cleanupEffect_members_sub x s d e :
  e ∈ members_of d (cleanupEffect x s) → e ∈ members_of d s.
Proof.
  rewrite cleanupEffect_members. case_decide; [|done].
  rewrite elem_of_set_delete. by intros [_ ?].
Qed.

(** ** A stopped effect stays out *)

Lemma inactive_static e s s' :
  static_le (effects s) (effects s') → inactive e s → inactive e s'.
Proof.
  intros Hs (eff & He & Ha). destruct (Hs _ _ He) as (eff' & He' & _ & _ & _ & _ & Hact).
  exists eff'. split; [done|]. by apply Hact.
Qed.

Lemma stopped_out_frame e k st s s' :
  effects s' = effects s → depHeap s' = depHeap s → ctx_of s' = ctx_of s →
  count_ev (EvTrigger e) (log s') = count_ev (EvTrigger e) (log s) →
  stopped_out e k st s → stopped_out e k st s'.
Proof.
  intros He Hh Hc Hl (H1 & H2 & H3 & H4 & H5). split; [|split; [|split; [|split]]].
  - by eapply heap_ok_frame.
  - done.
  - unfold inactive. by rewrite He.
  - intros d. unfold members_of. rewrite Hh. apply H4.
  - congruence.
Qed.

Lemma snapshot_members ds s l e :
  snapshot_of ds s = Some l → e ∈ l → ∃ d, e ∈ members_of d s.
Proof.
  unfold snapshot_of. intros H Hin.
  assert (Some (Dep.members (createDep (concat (map
            (λ d, match d with Some d => members_of d s | None => [] end) ds)))) = Some l
          → ∃ d, e ∈ members_of d s) as Hmerged.
  { intros [= <-]. apply elem_of_merged in Hin as (d & _ & Hd). eauto. }
  destruct ds as [|[d|] [|d2 ds]]; try (by apply Hmerged); try done.
  injection H as <-. eauto.
Qed.

Lemma exec_stopped_out prog fuel c e k st s r s' :
  avoids e c → stopped_out e k st s →
  exec prog fuel c s = Some (r, s') → stopped_out e k st s'.
Proof.
  intros Hc Hs H.
  apply (exec_preserves prog (λ st x, st ++ [x]) (stopped_out e k) (avoids e))
    with (i := st) in H; try done.
  - (* track *)
    intros i x t key _ (H1 & H2 & H3 & H4 & H5). split; [|split; [|split; [|split]]].
    + by apply heap_ok_track.
    + done.
    + eapply inactive_static; [apply track_static|done].
    + intros d Hin. apply track_members_sub in Hin as [Hin|Hact]; [by eapply H4|].
      destruct H1 as [(_ & _ & _ & Ha) _ _ _]. rewrite Ha in Hact.
      by apply last_Some_elem_of in Hact.
    + by rewrite track_log.
  - intros i x _. by apply stopped_out_frame.
  - intros i x _. by apply stopped_out_frame.
  - intros i x _. by apply stopped_out_frame.
  - (* EvRun *)
    intros i x a _. apply stopped_out_frame; try done.
    rewrite count_ev_emit. rewrite decide_False by done. lia.
  - (* enter *)
    intros i x a eff _ (H1 & H2 & H3 & H4 & H5) Ha Hact Hnin.
    assert (a ≠ e) as Hne.
    { intros ->. destruct H3 as (eff' & He' & Hf). congruence. }
    split; [|split; [|split; [|split]]].
    + apply heap_ok_enter; [done|by rewrite Ha|].
      by destruct H1 as [(<- & _) _ _ _].
    + rewrite elem_of_app, list_elem_of_singleton. intros [?|?]; congruence.
    + eapply inactive_static; [apply run_enter_static|done].
    + intros d Hin. apply run_enter_members_sub in Hin. by eapply H4.
    + by rewrite run_enter_log.
  - (* exit *)
    intros i x a (H1 & H2 & H3 & H4 & H5). split; [|split; [|split; [|split]]].
    + by apply heap_ok_exit.
    + intros Hin. apply H2, elem_of_app. by left.
    + eapply inactive_static; [apply run_exit_static|done].
    + intros d Hin. apply run_exit_members_sub in Hin; [by eapply H4|].
      apply (ok_graph _ _ H1).
    + by rewrite run_exit_log.
  - (* cleanupEffect *)
    intros i x a eff _ (H1 & H2 & H3 & H4 & H5) _ _.
    split; [|split; [|split; [|split]]].
    + by apply heap_ok_cleanup.
    + done.
    + eapply inactive_static; [apply cleanupEffect_static|done].
    + intros d Hin. apply cleanupEffect_members_sub in Hin. by eapply H4.
    + done.
  - (* EvOnStop *)
    intros i x a _. apply stopped_out_frame; try done.
    rewrite count_ev_emit. rewrite decide_False by done. lia.
  - (* active := false *)
    intros i x a _ (H1 & H2 & H3 & H4 & H5). split; [|split; [|split; [|split]]].
    + by apply heap_ok_deactivate.
    + done.
    + eapply inactive_static; [|done]. by apply static_le_alter.
    + done.
    + done.
  - (* the snapshot of a trigger *)
    intros i x t ty key v m ds l _ (H1 & H2 & H3 & H4 & H5) _ _ Hl Hin.
    destruct (snapshot_members _ _ _ _ Hl Hin) as [d Hd]. by eapply H4.
  - intros a rest Hl Hin. apply Hl. by right.
  - (* EvTrigger *)
    intros i x a rest Hl. apply stopped_out_frame; try done.
    rewrite count_ev_emit. rewrite decide_False; [lia|].
    intros [= ->]. apply Hl. by left.
  - intros i x a rest Hl. apply stopped_out_frame; try done.
    rewrite count_ev_emit. rewrite decide_False by done. lia.
  - (* a new effect *)
    intros i x f o g _ (H1 & H2 & H3 & H4 & H5). split; [|done].
    split; [|split; [|split; [|split]]]; try done.
    + apply heap_ok_new_effect; [by destruct o|done].
    + eapply inactive_static; [|done]. apply static_le_app.
Qed.

(** ** stop *)

Lemma exec_stop_inactive prog fuel e s :
  inactive e s → exec prog (S fuel) (COp (OStop e)) s = Some (Returned VUndefined, s).
Proof.
  intros (eff & He & Ha). rewrite exec_S. simpl. unfold stop. by rewrite He, Ha.
Qed.

Lemma inactive_deactivate e s :
  is_Some (effects s !! e) →
  inactive e (with_effects (alter (set_active false) e (effects s)) s).
Proof.
  intros [eff He]. exists (set_active false eff). simpl.
  by rewrite list_lookup_alter_eq, He.
Qed.

(** X19: [stop] of an active effect.  It takes the effect out of every Dep of
    its list and empties the list, calls the [onStop] callback if there is
    one, and leaves the effect inactive; a second [stop] changes nothing;
    [run] of the stopped effect is the plain call of its function, with the
    result of that call; and when the effect was not running as it was
    stopped, then from there on, as long as it is in no Dep (which is the
    case when there is no [onStop] callback), no sequence of calls whatever
    makes [triggerEffects] let it through again. *)
Theorem stop_terminal (prog : FnId → Script) (fuel : nat) (e : EffId)
    (eff : ReactiveEffect) (st : list EffId) (s : State) (v : Value) (s' : State) :
  heap_ok st s →
  effects s !! e = Some eff → active eff = true →
  exec prog fuel (COp (OStop e)) s = Some (Returned v, s') →
  (∀ d, d ∈ deps eff → e ∉ members_of d (cleanupEffect e s))
  ∧ deps_of e (cleanupEffect e s) = []
  ∧ match onStop eff with
    | Some f =>
        ∃ fuel' v' s2,
          exec prog fuel' (CCall f) (emit (EvOnStop e) (cleanupEffect e s))
          = Some (Returned v', s2)
          ∧ s' = with_effects (alter (set_active false) e (effects s2)) s2
    | None =>
        s' = with_effects (alter (set_active false) e (effects (cleanupEffect e s)))
               (cleanupEffect e s)
    end
  ∧ inactive e s'
  ∧ (∀ fuel', exec prog (S fuel') (COp (OStop e)) s' = Some (Returned VUndefined, s'))
  ∧ (onStop eff = None → ∀ d, e ∉ members_of d s')
  ∧ (e ∉ st → (∀ d, e ∉ members_of d s') →
     ∀ fuel' l fin r s'',
       exec prog fuel' (COps l fin) s' = Some (r, s'') →
       count_ev (EvTrigger e) (log s'') = count_ev (EvTrigger e) (log s'))
  ∧ (∀ fuel', exec prog (S fuel') (COp (ORun e)) s'
              = exec prog fuel' (CCall (fn eff)) (emit (EvRun e) s')).
Proof.
  intros Hok He Ha H.
  pose proof (exec_heap_ok _ _ _ _ _ _ _ Hok H) as Hok'.
  pose proof (exec_static _ _ _ _ _ _ H) as Hstat.
  destruct (Hstat _ _ He) as (eff' & He' & Hfn & _).
  assert (deps_of e (cleanupEffect e s) = []) as Hnil.
  { rewrite cleanupEffect_deps. by rewrite decide_True. }
  assert (∀ d, e ∉ members_of d (cleanupEffect e s)) as Hout.
  { intros d Hin.
    apply (ok_sym _ (ok_graph _ _ (heap_ok_cleanup _ e _ Hok))) in Hin.
    rewrite Hnil in Hin. by apply elem_of_nil in Hin. }
  destruct fuel as [|fuel]; [done|].
  rewrite exec_S in H. simpl in H. unfold stop in H. rewrite He, Ha in H.
  assert (match onStop eff with
          | Some f =>
              ∃ fuel' v' s2,
                exec prog fuel' (CCall f) (emit (EvOnStop e) (cleanupEffect e s))
                = Some (Returned v', s2)
                ∧ s' = with_effects (alter (set_active false) e (effects s2)) s2
          | None =>
              s' = with_effects (alter (set_active false) e (effects (cleanupEffect e s)))
                     (cleanupEffect e s)
          end
          ∧ inactive e s') as [Hcb Hin'].
  { destruct (onStop eff) as [f|].
    - destruct (exec prog fuel (CCall f) _) as [[[v1|err] s2]|] eqn:E1; [|done|done].
      injection H as _ <-. split; [by exists fuel, v1, s2|].
      apply inactive_deactivate.
      apply exec_static in E1. simpl in E1.
      destruct (cleanupEffect_static e s _ _ He) as (eff1 & He1 & _).
      destruct (E1 _ _ He1) as (eff2 & He2 & _). by rewrite He2.
    - injection H as _ <-. split; [done|].
      apply (inactive_deactivate e (cleanupEffect e s)).
      destruct (cleanupEffect_static e s _ _ He) as (eff1 & He1 & _). by rewrite He1. }
  split; [by intros d _|]. split; [done|]. split; [done|]. split; [done|].
  split; [intros fuel'; by apply exec_stop_inactive|].
  split; [|split].
  - intros Hnone d. rewrite Hnone in Hcb. subst s'. apply Hout.
  - intros Hnin Hfree fuel' l fin r s'' Hrun.
    assert (stopped_out e (count_ev (EvTrigger e) (log s')) st s') as Hso.
    { unfold stopped_out. by split_and!. }
    eapply exec_stopped_out in Hrun; [|done|exact Hso].
    by destruct Hrun as (_ & _ & _ & _ & ?).
  - intros fuel'. destruct Hin' as (eff2 & He2 & Ha2).
    rewrite (exec_run_inactive _ _ _ _ _ He2 Ha2). congruence.
Qed.

(** ** stop, called by the effect that is running

    [stop] leaves [activeEffect] and the effect stack alone, so the rest of
    the run goes on tracking for the stopped effect. *)

(** C4, on the code: [stop] called by the effect that is running is not
    terminal.  First, within the marker bits: an effect created lazily whose
    function stops the effect and then reads [w_obj.x].  After its one run
    the effect is stopped and the engine is at rest, yet the effect sits in
    the Dep of [x]; a [trigger] on [x] lets it through [triggerEffects] and
    enters its [run], which calls the function once more.  Second, beyond the
    marker bits and for a key read before the [stop] as well: the effect 30
    runs nested in thirty others, reads [w_obj.x], stops itself and reads
    [w_obj.x] again; the membership test of the second read finds it gone and
    adds it back, and a later [trigger] on [x] runs it. *)
Theorem stop_in_own_run_resubscribes :
  (∃ s1 s2,
     exec w_self_stop 20
       (COps [OEffect (PlainFn 0) (Some w_lazy); ORun 0] (Return VUndefined))
       initial_state
     = Some (Returned VUndefined, s1)
     ∧ active <$> effects s1 !! 0%nat = Some false
     ∧ ctx_of s1 = ([], 0, 1, None)
     ∧ dep_of w_obj (KStr "x") s1 = Some 0%nat
     ∧ members_of 0 s1 = [0%nat]
     ∧ exec w_self_stop 20 (COp (OTrigger w_obj SET (Some (KStr "x")) (Some 1))) s1
       = Some (Returned VUndefined, s2)
     ∧ log s2 = log s1 ++ [EvTrigger 0; EvRun 0])
  ∧ (∃ s1 s2,
       exec w_nest 400 (COp (OEffect (PlainFn 0) None)) initial_state
       = Some (Returned (VRunner 0), s1)
       ∧ active <$> effects s1 !! 30%nat = Some false
       ∧ ctx_of s1 = ([], 0, 1, None)
       ∧ dep_of w_obj (KStr "x") s1 = Some 0%nat
       ∧ members_of 0 s1 = [30%nat]
       ∧ exec w_nest 20 (COp (OTrigger w_obj SET (Some (KStr "x")) (Some 1))) s1
         = Some (Returned VUndefined, s2)
       ∧ log s2 = log s1 ++ [EvTrigger 30; EvRun 30]).
Proof.
  split.
  - eexists _, _. split; [vm_compute; reflexivity|]. by vm_compute.
  - eexists _, _. split; [vm_compute; reflexivity|]. by vm_compute.
Qed.

(** ** Functions that only read *)

Lemma exec_reads prog rs : ∀ fuel s fin,
  (length rs + 2 ≤ fuel)%nat →
  exec prog fuel (COps (reads rs) fin) s = Some (outcome_of fin, tracks rs s).
Proof.
  induction rs as [|[t k] rs IH]; intros fuel s fin Hfuel; simpl in Hfuel.
  - destruct fuel as [|fuel]; [lia|]. done.
  - destruct fuel as [|[|fuel]]; [lia|lia|].
    rewrite exec_S. simpl. apply IH. lia.
Qed.

Lemma exec_run_reads prog fuel e eff rs v s :
  effects s !! e = Some eff → active eff = true → e ∉ effectStack s →
  prog (fn eff) = mkScript (reads rs) (Return v) →
  (length rs + 4 ≤ fuel)%nat →
  exec prog fuel (COp (ORun e)) s
  = Some (Returned v, run_exit e (tracks rs (run_enter e (emit (EvRun e) s)))).
Proof.
  intros He Ha Hnin Hprog Hfuel.
  destruct fuel as [|[|fuel]]; [lia|lia|].
  rewrite (exec_run_active _ _ _ _ _ He Ha Hnin).
  rewrite exec_S. simpl. rewrite Hprog. simpl.
  by rewrite exec_reads by lia.
Qed.

(** ** The two regimes of a run, side by side

    [sim e D lo hi]: [lo] is inside a run of [e] at depth [D], within the
    marker bits, and [hi] inside a run of [e] beyond them, both started from
    the same graph and both having made the same reads so far. *)

Lemma sim_targetMap e D lo hi tm :
  sim e D lo hi → sim e D (with_targetMap tm lo) (with_targetMap tm hi).
Proof. intros []. by split. Qed.

Lemma members_of_alloc s d :
  members_of d (with_depHeap (depHeap s ++ [createDep []]) s) = members_of d s.
Proof.
  unfold members_of. simpl.
  destruct (decide (d < length (depHeap s))%nat) as [Hlt|Hge].
  - by rewrite lookup_app_l.
  - rewrite lookup_app_r by lia. rewrite (lookup_ge_None_2 (depHeap s)) by lia.
    by destruct (d - length (depHeap s))%nat as [|[|]].
Qed.

Lemma createDep_unmarked D l :
  level_marked D (createDep l) = false ∧ Z.testbit (Dep.n (createDep l)) D = false.
Proof.
  unfold level_marked, createDep. cbn [Dep.w Dep.n]. by rewrite Z.bits_0.
Qed.

Lemma sim_alloc e D lo hi :
  0 ≤ D →
  sim e D lo hi →
  sim e D (with_depHeap (depHeap lo ++ [createDep []]) lo)
          (with_depHeap (depHeap hi ++ [createDep []]) hi).
Proof.
  intros HD []. split; try done.
  - simpl. rewrite !length_app. simpl. lia.
  - intros d x Hx. rewrite !members_of_alloc. by apply sim_others0.
  - intros d dep. simpl. intros Hd. apply lookup_app_Some in Hd as [Hd|[Hlen Hd]].
    + by apply (sim_lo_marks0 d).
    + apply list_lookup_singleton_Some in Hd as [_ <-].
      rewrite (proj1 (createDep_unmarked D [])).
      split; [by intros ?%elem_of_nil|done].
  - intros d dep. simpl. intros Hd. rewrite members_of_alloc.
    apply lookup_app_Some in Hd as [Hd|[Hlen Hd]].
    + by apply sim_hi_n0.
    + apply list_lookup_singleton_Some in Hd as [_ <-].
      rewrite (proj2 (createDep_unmarked D [])).
      unfold members_of. rewrite lookup_ge_None_2 by lia.
      split; [by intros ?%elem_of_nil|done].
  - intros d. rewrite members_of_alloc. apply sim_lo_sym0.
  - intros d. rewrite members_of_alloc. apply sim_hi_sym0.
Qed.

Lemma mark_at_members b d s d' : members_of d' (mark_at b d s) = members_of d' s.
Proof.
  unfold members_of, mark_at. simpl. destruct (decide (d = d')) as [->|Hne].
  - rewrite list_lookup_alter_eq. by destruct (depHeap s !! d').
  - by rewrite list_lookup_alter_ne.
Qed.

Lemma mark_at_dep b d s d' :
  depHeap (mark_at b d s) !! d'
  = (if decide (d = d') then mark_n b else id) <$> depHeap s !! d'.
Proof.
  unfold mark_at. simpl. case_decide as H.
  - subst. by rewrite list_lookup_alter_eq.
  - rewrite list_lookup_alter_ne by done. by destruct (depHeap s !! d').
Qed.

Lemma add_edge_dep_eq d e s d' :
  depHeap (add_edge d e s) !! d'
  = (if decide (d = d') then Dep.add e else id) <$> depHeap s !! d'.
Proof.
  unfold add_edge. simpl. case_decide as H.
  - subst. by rewrite list_lookup_alter_eq.
  - rewrite list_lookup_alter_ne by done. by destruct (depHeap s !! d').
Qed.

Lemma level_marked_set_n D dep :
  0 ≤ D → level_marked D (mark_n (2 ^ D) dep) = true
          ∧ Z.testbit (Dep.n (mark_n (2 ^ D) dep)) D = true.
Proof.
  intros HD. unfold level_marked, mark_n, Dep.set_n. cbn [Dep.w Dep.n].
  rewrite testbit_mark by done. rewrite Z.eqb_refl. by rewrite !orb_true_r.
Qed.

Lemma sim_hi_lookup e D lo hi d :
  sim e D lo hi → is_Some (depHeap lo !! d) → is_Some (depHeap hi !! d).
Proof.
  intros Hs Hd. apply lookup_lt_is_Some. rewrite <- (sim_len _ _ _ _ Hs).
  by apply lookup_lt_is_Some.
Qed.

(** The read of a Dep that carries, on the marker side, the "was tracked"
    mark of this run but not yet the "newly tracked" one. *)
Lemma sim_read_known e D lo hi d dep :
  0 ≤ D → sim e D lo hi →
  depHeap lo !! d = Some dep →
  Z.testbit (Dep.n dep) D = false → Z.testbit (Dep.w dep) D = true →
  sim e D (mark_at (2 ^ D) d lo) (add_edge d e hi).
Proof.
  intros HD Hs Hd Hn Hw. pose proof (sim_hi_lookup _ _ _ _ d Hs) as Hhi.
  rewrite Hd in Hhi. specialize (Hhi (mk_is_Some _ _ eq_refl)).
  destruct Hs. split; try done.
  - unfold mark_at, add_edge. simpl. by rewrite !length_alter.
  - unfold add_edge. simpl. destruct sim_eff_hi0 as [x Hx].
    rewrite list_lookup_alter_eq, Hx. by eexists.
  - intros d' x Hx. rewrite mark_at_members, add_edge_members by done.
    case_decide; [|by apply sim_others0].
    rewrite elem_of_set_add. rewrite (sim_others0 d' x Hx). split; [by right|].
    by intros [?|?].
  - intros x Hx. rewrite add_edge_deps by done. rewrite decide_False by done.
    by apply sim_others_deps0.
  - intros d' dep'. rewrite mark_at_dep. case_decide as Heq.
    + subst d'. rewrite Hd. simpl. intros [= <-].
      rewrite (proj1 (level_marked_set_n D dep HD)).
      rewrite (sim_lo_marks0 d dep Hd). unfold level_marked. by rewrite Hw.
    + destruct (depHeap lo !! d') as [x|] eqn:Hx; simpl; [|done].
      intros [= <-]. by apply (sim_lo_marks0 d').
  - intros d' dep'. rewrite mark_at_dep, add_edge_members by done.
    case_decide as Heq.
    + subst d'. rewrite decide_True by done. rewrite Hd. simpl. intros [= <-].
      rewrite (proj2 (level_marked_set_n D dep HD)). rewrite elem_of_set_add.
      split; [done|by left].
    + rewrite decide_False by done.
      destruct (depHeap lo !! d') as [x|] eqn:Hx; simpl; [|done].
      intros [= <-]. by apply (sim_hi_n0 d').
  - intros d'. rewrite mark_at_members. apply sim_lo_sym0.
  - intros d'. rewrite add_edge_deps, add_edge_members by done.
    rewrite decide_True by done. rewrite elem_of_app, list_elem_of_singleton.
    case_decide as Heq.
    + subst. rewrite elem_of_set_add. split; [by left|by right].
    + rewrite sim_hi_sym0. split; [|by left]. by intros [?|?].
Qed.

(** The read of a Dep that carries neither mark of this run on the marker
    side. *)
Lemma sim_read_new e D lo hi d dep :
  0 ≤ D → sim e D lo hi →
  depHeap lo !! d = Some dep →
  Z.testbit (Dep.n dep) D = false → Z.testbit (Dep.w dep) D = false →
  sim e D (add_edge d e (mark_at (2 ^ D) d lo)) (add_edge d e hi).
Proof.
  intros HD Hs Hd Hn Hw. pose proof (sim_hi_lookup _ _ _ _ d Hs) as Hhi.
  rewrite Hd in Hhi. specialize (Hhi (mk_is_Some _ _ eq_refl)).
  assert (is_Some (depHeap (mark_at (2 ^ D) d lo) !! d)) as Hlo.
  { rewrite mark_at_dep, Hd. by eexists. }
  destruct Hs.
  assert (is_Some (effects (mark_at (2 ^ D) d lo) !! e)) as Helo by done.
  assert (e ∉ Dep.members dep) as Hnotin.
  { rewrite (sim_lo_marks0 d dep Hd). unfold level_marked. by rewrite Hw, Hn. }
  split; try done.
  - unfold mark_at, add_edge. simpl. by rewrite !length_alter.
  - unfold add_edge. simpl. destruct sim_eff_lo0 as [x Hx].
    rewrite list_lookup_alter_eq, Hx. by eexists.
  - unfold add_edge. simpl. destruct sim_eff_hi0 as [x Hx].
    rewrite list_lookup_alter_eq, Hx. by eexists.
  - intros d' x Hx. rewrite !add_edge_members by done. rewrite mark_at_members.
    case_decide; [|by apply sim_others0].
    rewrite !elem_of_set_add. rewrite (sim_others0 d' x Hx). done.
  - intros x Hx. rewrite !add_edge_deps by done. rewrite !decide_False by done.
    by apply sim_others_deps0.
  - intros d' dep'. rewrite add_edge_dep_eq, mark_at_dep. case_decide as Heq.
    + subst d'. rewrite Hd. simpl. intros [= <-].
      unfold level_marked, Dep.add. cbn [Dep.w Dep.n Dep.members].
      destruct (level_marked_set_n D dep HD) as [Hl _]. unfold level_marked in Hl.
      rewrite Hl. rewrite elem_of_set_add. split; [done|by left].
    + destruct (depHeap lo !! d') as [x|] eqn:Hx; simpl; [|done].
      intros [= <-]. by apply (sim_lo_marks0 d').
  - intros d' dep'. rewrite add_edge_dep_eq, mark_at_dep, add_edge_members by done.
    case_decide as Heq.
    + subst d'. rewrite decide_True by done. rewrite Hd. simpl. intros [= <-].
      cbn [Dep.n Dep.add].
      rewrite (proj2 (level_marked_set_n D dep HD)). rewrite elem_of_set_add.
      split; [done|by left].
    + rewrite decide_False by done.
      destruct (depHeap lo !! d') as [x|] eqn:Hx; simpl; [|done].
      intros [= <-]. by apply (sim_hi_n0 d').
  - intros d'. rewrite add_edge_deps, add_edge_members by done.
    rewrite decide_True by done. rewrite elem_of_app, list_elem_of_singleton.
    rewrite mark_at_members.
    change (deps_of e (mark_at (2 ^ D) d lo)) with (deps_of e lo).
    case_decide as Heq.
    + subst. rewrite elem_of_set_add. split; [by left|by right].
    + rewrite sim_lo_sym0. split; [|by left]. by intros [?|?].
  - rewrite add_edge_deps by done. rewrite decide_True by done.
    change (deps_of e (mark_at (2 ^ D) d lo)) with (deps_of e lo).
    apply NoDup_app. split; [done|]. split; [|apply NoDup_singleton].
    intros x Hx ->%list_elem_of_singleton. apply sim_lo_sym0 in Hx.
    unfold members_of in Hx. by rewrite Hd in Hx.
  - intros d'. rewrite add_edge_deps, add_edge_members by done.
    rewrite decide_True by done. rewrite elem_of_app, list_elem_of_singleton.
    case_decide as Heq.
    + subst. rewrite elem_of_set_add. split; [by left|by right].
    + rewrite sim_hi_sym0. split; [|by left]. by intros [?|?].
Qed.

Lemma sim_trackEffects e D lo hi d :
  0 ≤ D ≤ maxMarkerBits → sim e D lo hi →
  sim e D (trackEffects d lo) (trackEffects d hi).
Proof.
  intros [HD1 HD2] Hs. pose proof Hs as Hs0. destruct Hs0.
  destruct sim_tracking_lo0 as [_ Hal], sim_tracking_hi0 as [_ Hah].
  destruct sim_depth_lo0 as [HdL HbL].
  unfold trackEffects. rewrite Hal, Hah.
  destruct (depHeap lo !! d) as [dep|] eqn:Hd.
  2:{ rewrite (lookup_ge_None_2 (depHeap hi)); [done|].
      rewrite <- sim_len0. by apply lookup_ge_None_1. }
  destruct (sim_hi_lookup _ _ _ _ d Hs) as [dep_hi Hdhi]; [by rewrite Hd|].
  rewrite Hdhi.
  assert (members_of d hi = Dep.members dep_hi) as Hmh.
  { unfold members_of. by rewrite Hdhi. }
  replace (effectTrackDepth lo <=? maxMarkerBits) with true
    by (symmetry; apply Z.leb_le; lia).
  replace (effectTrackDepth hi <=? maxMarkerBits) with false
    by (symmetry; apply Z.leb_gt; lia).
  unfold newTracked, wasTracked. rewrite HbL, !tracked_testbit by done.
  pose proof (sim_hi_n0 d dep Hd) as Hn. rewrite Hmh in Hn.
  destruct (Z.testbit (Dep.n dep) D) eqn:En; simpl.
  - rewrite decide_True by by apply Hn. done.
  - rewrite decide_False by (intros Hx; apply Hn in Hx; done).
    destruct (Z.testbit (Dep.w dep) D) eqn:Ew; simpl.
    + by apply (sim_read_known e D lo hi d dep).
    + by apply (sim_read_new e D lo hi d dep).
Qed.

Lemma sim_track e D lo hi t k :
  0 ≤ D ≤ maxMarkerBits → sim e D lo hi →
  sim e D (track t k lo) (track t k hi).
Proof.
  intros HD Hs. pose proof Hs as Hs0. destruct Hs0.
  destruct sim_tracking_lo0 as [Hsl Hal], sim_tracking_hi0 as [Hsh Hah].
  unfold track, isTracking. rewrite Hsl, Hsh, Hal, Hah. simpl.
  rewrite <- sim_tm0.
  set (lo1 := match alist_get t (targetMap lo) with
              | Some _ => lo
              | None => with_targetMap (alist_set t [] (targetMap lo)) lo
              end).
  set (hi1 := match alist_get t (targetMap lo) with
              | Some _ => hi
              | None => with_targetMap (alist_set t [] (targetMap lo)) hi
              end).
  assert (sim e D lo1 hi1) as Hs1.
  { unfold lo1, hi1. destruct (alist_get t (targetMap lo)); [done|].
    by apply sim_targetMap. }
  assert (targetMap hi1 = targetMap lo1) as Htm by (symmetry; apply Hs1).
  assert (length (depHeap hi1) = length (depHeap lo1)) as Hlen
    by (symmetry; apply Hs1).
  rewrite Htm, Hlen.
  destruct (alist_get k _) as [d|].
  - by apply sim_trackEffects.
  - apply sim_trackEffects; [done|]. apply sim_targetMap, sim_alloc; [lia|done].
Qed.

Lemma sim_tracks e D rs : ∀ lo hi,
  0 ≤ D ≤ maxMarkerBits → sim e D lo hi →
  sim e D (tracks rs lo) (tracks rs hi).
Proof.
  induction rs as [|[t k] rs IH]; intros lo hi HD Hs; [done|].
  simpl. apply IH; [done|]. by apply sim_track.
Qed.

Lemma sim_enter e s_lo s_hi :
  effects s_lo = effects s_hi → depHeap s_lo = depHeap s_hi →
  targetMap s_lo = targetMap s_hi →
  graph_ok s_lo → is_Some (effects s_lo !! e) →
  0 ≤ effectTrackDepth s_lo < maxMarkerBits →
  maxMarkerBits ≤ effectTrackDepth s_hi →
  clean_at (effectTrackDepth s_lo + 1) s_lo →
  sim e (effectTrackDepth s_lo + 1) (run_enter e s_lo) (run_enter e s_hi).
Proof.
  intros Heff Hheap Htm Hg He HD Hhi Hclean.
  rewrite !run_enter_eq.
  replace (effectTrackDepth s_lo + 1 <=? maxMarkerBits) with true
    by (symmetry; apply Z.leb_le; lia).
  replace (effectTrackDepth s_hi + 1 <=? maxMarkerBits) with false
    by (symmetry; apply Z.leb_gt; lia).
  set (D := effectTrackDepth s_lo + 1).
  set (lo1 := with_depth D (shl1 D)
                (enableTracking (with_stack (effectStack s_lo ++ [e]) (Some e) s_lo))).
  set (hi1 := with_depth (effectTrackDepth s_hi + 1) (shl1 (effectTrackDepth s_hi + 1))
                (enableTracking (with_stack (effectStack s_hi ++ [e]) (Some e) s_hi))).
  assert (shl1 D = 2 ^ D) as Hbit
    by (apply shl1_small; unfold D, maxMarkerBits in *; lia).
  assert (∀ x, deps_of x lo1 = deps_of x s_lo) as Hdl by done.
  assert (∀ x, deps_of x hi1 = deps_of x s_lo) as Hdh.
  { intros x. unfold deps_of. simpl. by rewrite Heff. }
  assert (∀ d, members_of d hi1 = members_of d s_lo) as Hmh.
  { intros d. unfold members_of. simpl. by rewrite Hheap. }
  pose proof Hg as [Hsym Hnd _].
  split.
  - done.
  - unfold initDepMarkers, cleanupEffect. simpl.
    rewrite !foldl_alter_length. by rewrite Hheap.
  - done.
  - done.
  - done.
  - simpl. lia.
  - done.
  - simpl. rewrite <- Heff. destruct He as [x Hx].
    destruct (decide (e = e)); [|done]. rewrite list_lookup_alter_eq, Hx. by eexists.
  - intros d x Hx. rewrite initDepMarkers_members, cleanupEffect_members, Hmh.
    case_decide; [|done]. rewrite elem_of_set_delete. tauto.
  - intros x Hx. rewrite initDepMarkers_deps, cleanupEffect_deps, Hdl, Hdh.
    by rewrite decide_False.
  - intros d dep'. rewrite initDepMarkers_dep, Hdl.
    change (depHeap lo1) with (depHeap s_lo). change (trackOpBit lo1) with (shl1 D).
    destruct (depHeap s_lo !! d) as [dep|] eqn:Hd; simpl; [|done].
    intros [= <-]. specialize (Hsym e d). unfold members_of in Hsym.
    rewrite Hd in Hsym. pose proof (Hclean d dep Hd) as Hc.
    case_decide as Hin.
    + rewrite Hbit. unfold level_marked, mark_w, Dep.set_w. cbn [Dep.w Dep.n Dep.members].
      rewrite testbit_mark by (unfold D; lia). rewrite Z.eqb_refl, orb_true_r.
      simpl. split; [done|]. intros _. by apply Hsym.
    + simpl. fold D in Hc. rewrite Hc. split; [|done]. intros Hx. by apply Hsym in Hx.
  - intros d dep'. rewrite initDepMarkers_dep, Hdl, cleanupEffect_members, Hdh, Hmh.
    change (depHeap lo1) with (depHeap s_lo). change (trackOpBit lo1) with (shl1 D).
    destruct (depHeap s_lo !! d) as [dep|] eqn:Hd; simpl; [|done].
    intros [= <-]. pose proof (Hclean d dep Hd) as Hc. fold D in Hc.
    unfold level_marked in Hc. apply orb_false_iff in Hc as [_ Hc].
    case_decide as Hin; simpl; rewrite Hc; (split; [|done]).
    + rewrite elem_of_set_delete. tauto.
    + intros Hx. by apply Hsym in Hx.
  - intros d. rewrite initDepMarkers_deps, initDepMarkers_members, Hdl.
    symmetry. apply Hsym.
  - rewrite initDepMarkers_deps, Hdl. apply Hnd.
  - intros d. rewrite cleanupEffect_deps, cleanupEffect_members, Hdh, Hmh.
    rewrite decide_True by done. split; [by intros ?%elem_of_nil|].
    case_decide as Hin.
    + rewrite elem_of_set_delete. tauto.
    + intros Hx. by apply Hsym in Hx.
Qed.

Lemma run_exit_targetMap e s : targetMap (run_exit e s) = targetMap s.
Proof.
  unfold run_exit. destruct (_ <=? _); simpl; [|done].
  apply finalizeDepMarkers_targetMap.
Qed.

(** What the two regimes leave behind is the same graph: the same members in
    every Dep and the same Deps in every list. *)
Lemma sim_exit e D lo hi :
  0 ≤ D ≤ maxMarkerBits → sim e D lo hi →
  targetMap (run_exit e lo) = targetMap (run_exit e hi)
  ∧ (∀ d x, x ∈ members_of d (run_exit e lo) ↔ x ∈ members_of d (run_exit e hi))
  ∧ (∀ x d, d ∈ deps_of x (run_exit e lo) ↔ d ∈ deps_of x (run_exit e hi)).
Proof.
  intros [HD1 HD2] Hs. pose proof Hs as Hs0. destruct Hs0.
  destruct sim_depth_lo0 as [HdL HbL].
  destruct (run_exit_heaps e lo) as [Hel Hhl].
  destruct (run_exit_heaps e hi) as [Heh Hhh].
  replace (effectTrackDepth lo <=? maxMarkerBits) with true in *
    by (symmetry; apply Z.leb_le; lia).
  replace (effectTrackDepth hi <=? maxMarkerBits) with false in *
    by (symmetry; apply Z.leb_gt; lia).
  assert (∀ d, members_of d (run_exit e lo) = members_of d (finalizeDepMarkers e lo))
    as Hml by (intros d; unfold members_of; by rewrite Hhl).
  assert (∀ d, members_of d (run_exit e hi) = members_of d hi)
    as Hmh by (intros d; unfold members_of; by rewrite Hhh).
  assert (∀ x, deps_of x (run_exit e lo) = deps_of x (finalizeDepMarkers e lo))
    as Hdl by (intros x; unfold deps_of; by rewrite Hel).
  assert (∀ x, deps_of x (run_exit e hi) = deps_of x hi)
    as Hdh by (intros x; unfold deps_of; by rewrite Heh).
  destruct (finalizeDepMarkers_deps e lo sim_lo_nodup0) as (Hf1 & Hf2 & _).
  (* on the marker side, [e] stays in a Dep exactly when it was read *)
  assert (∀ d, (d ∈ deps_of e lo ∧ stale_at (trackOpBit lo) (depHeap lo) d = false)
               ↔ e ∈ members_of d hi) as Hkey.
  { intros d. rewrite sim_lo_sym0. unfold stale_at, members_of at 1.
    destruct (depHeap lo !! d) as [dep|] eqn:Hd.
    - rewrite (sim_hi_n0 d dep Hd), (sim_lo_marks0 d dep Hd).
      unfold stale, wasTracked, newTracked, level_marked.
      rewrite HbL, !tracked_testbit by done.
      destruct (Z.testbit (Dep.w dep) D), (Z.testbit (Dep.n dep) D); simpl;
        intuition congruence.
    - unfold members_of. rewrite (lookup_ge_None_2 (depHeap hi)).
      + split; [by intros [?%elem_of_nil _]|by intros ?%elem_of_nil].
      + rewrite <- sim_len0. by apply lookup_ge_None_1. }
  split; [|split].
  - rewrite !run_exit_targetMap. done.
  - intros d x. rewrite Hml, Hmh, finalizeDepMarkers_members by done.
    destruct (decide (x = e)) as [->|Hne].
    + rewrite <- Hkey. case_decide as Hin.
      * destruct (stale_at _ _ d).
        -- rewrite elem_of_set_delete. split; [tauto|]. by intros [_ ?].
        -- rewrite <- sim_lo_sym0. tauto.
      * rewrite <- sim_lo_sym0. tauto.
    + rewrite <- (sim_others0 d x Hne). repeat case_match; try done.
      rewrite elem_of_set_delete. tauto.
  - intros x d. rewrite Hdl, Hdh. destruct (decide (x = e)) as [->|Hne].
    + rewrite Hf2, Hkey. symmetry. apply sim_hi_sym0.
    + rewrite (Hf1 _ Hne). by rewrite (sim_others_deps0 _ Hne).
Qed.

Lemma trackEffects_fallback d dep e s :
  maxMarkerBits < effectTrackDepth s → activeEffect s = Some e →
  depHeap s !! d = Some dep →
  trackEffects d s = if decide (e ∈ Dep.members dep) then s else add_edge d e s.
Proof.
  intros Hd Ha Hdep. unfold trackEffects. rewrite Ha, Hdep.
  by replace (effectTrackDepth s <=? maxMarkerBits) with false
    by (symmetry; apply Z.leb_gt; lia).
Qed.

(** Beyond the marker bits the tracking step decides by membership in the
    Dep; and a run of an effect whose function only reads leaves the same
    dependency edges whether it is made within the marker bits, from clean
    marks, or beyond them: the same members in every Dep, the same Deps in
    every effect's list, the same registry. *)
Lemma depth_fallback_same_edges (prog : FnId → Script) (fuel : nat) (e : EffId)
    (eff : ReactiveEffect) (rs : list (Target * Key)) (v : Value)
    (st_lo st_hi : list EffId) (s_lo s_hi : State) :
  heap_ok st_lo s_lo → ctx_ok st_hi s_hi →
  effects s_lo = effects s_hi → depHeap s_lo = depHeap s_hi →
  targetMap s_lo = targetMap s_hi →
  e ∉ st_lo → e ∉ st_hi →
  effects s_lo !! e = Some eff → active eff = true →
  prog (fn eff) = mkScript (reads rs) (Return v) →
  (length st_lo < 30)%nat → (30 ≤ length st_hi)%nat →
  clean_at (Z.of_nat (length st_lo) + 1) s_lo →
  (length rs + 4 ≤ fuel)%nat →
  (∀ d dep s, maxMarkerBits < effectTrackDepth s → activeEffect s = Some e →
     depHeap s !! d = Some dep →
     trackEffects d s = if decide (e ∈ Dep.members dep) then s else add_edge d e s)
  ∧ ∃ lo' hi',
      exec prog fuel (COp (ORun e)) s_lo = Some (Returned v, lo')
      ∧ exec prog fuel (COp (ORun e)) s_hi = Some (Returned v, hi')
      ∧ targetMap lo' = targetMap hi'
      ∧ (∀ d x, x ∈ members_of d lo' ↔ x ∈ members_of d hi')
      ∧ (∀ x d, d ∈ deps_of x lo' ↔ d ∈ deps_of x hi').
Proof.
  intros Hok Hctx Heff Hheap Htm Hnl Hnh He Ha Hprog Hlo Hhi Hclean Hfuel.
  split; [intros d dep s; apply trackEffects_fallback|].
  pose proof Hok as [(Hstl & Hdl & _) _ Hg _].
  pose proof Hctx as (Hsth & Hdh & _).
  eexists _, _. split; [|split].
  - apply (exec_run_reads prog fuel e eff rs v); try done. by rewrite Hstl.
  - apply (exec_run_reads prog fuel e eff rs v); try done.
    + by rewrite <- Heff.
    + by rewrite Hsth.
  - apply (sim_exit e (effectTrackDepth s_lo + 1)).
    { unfold maxMarkerBits. lia. }
    apply sim_tracks; [unfold maxMarkerBits; lia|].
    apply (sim_enter e (emit (EvRun e) s_lo) (emit (EvRun e) s_hi)); try done.
    + apply graph_ok_pointwise with (s := s_lo); done.
    + simpl. unfold maxMarkerBits. lia.
    + simpl. unfold maxMarkerBits. lia.
    + simpl. by rewrite Hdl.
Qed.

(** C9, on the code: the two regimes do not leave the same edges when the
    function stops the effect that is running it.  One function body, which
    reads [w_obj.x], stops its own effect and reads [w_obj.x] again, is run
    from the start at depth 1, at depth 30, the last one with a marker bit,
    and at depth 31.  Within the marker bits [stop] takes the effect out of
    the Dep of [x] and leaves the bit of this run in the Dep's mask of new
    subscriptions, so the second read finds the Dep marked and adds nothing:
    the run ends with no edge.  Beyond them the second read finds the effect
    gone from the Dep and adds it back: the run ends with the edge.  The same
    holds side by side, for one effect over the same heaps, entered at depth
    1 and at depth 31. *)
Theorem self_stop_splits_the_regimes :
  (∃ s1,
     exec (w_nest_to 0) 20 (COp (OEffect (PlainFn 0) None)) initial_state
     = Some (Returned (VRunner 0), s1)
     ∧ dep_of w_obj (KStr "x") s1 = Some 0%nat
     ∧ members_of 0 s1 = [] ∧ deps_of 0 s1 = [])
  ∧ (∃ s1,
     exec (w_nest_to 29) 400 (COp (OEffect (PlainFn 0) None)) initial_state
     = Some (Returned (VRunner 0), s1)
     ∧ dep_of w_obj (KStr "x") s1 = Some 0%nat
     ∧ members_of 0 s1 = [] ∧ deps_of 29 s1 = [])
  ∧ (∃ s1,
     exec (w_nest_to 30) 400 (COp (OEffect (PlainFn 0) None)) initial_state
     = Some (Returned (VRunner 0), s1)
     ∧ dep_of w_obj (KStr "x") s1 = Some 0%nat
     ∧ members_of 0 s1 = [30%nat] ∧ deps_of 30 s1 = [0%nat])
  ∧ (∃ lo hi,
     exec (w_nest_to 0) 9 (COp (ORun 0)) (w_state (replicate 31 (w_eff 0)))
     = Some (Returned VUndefined, lo)
     ∧ exec (w_nest_to 0) 9 (COp (ORun 0)) (w_deep (replicate 31 (w_eff 0)))
       = Some (Returned VUndefined, hi)
     ∧ members_of 0 lo = [] ∧ members_of 0 hi = [0%nat]).
Proof.
  split_and!.
  - eexists. split; [vm_compute; reflexivity|]. by vm_compute.
  - eexists. split; [vm_compute; reflexivity|]. by vm_compute.
  - eexists. split; [vm_compute; reflexivity|]. by vm_compute.
  - eexists _, _. split; [vm_compute; reflexivity|].
    split; [vm_compute; reflexivity|]. by vm_compute.
Qed.

(** ** The registry *)

Lemma alist_get_set_eq {K V} `{EqDecision K} (k : K) (v : V) m :
  alist_get k (alist_set k v m) = Some v.
Proof.
  induction m as [|[k' v'] m IH]; simpl.
  - by rewrite decide_True.
  - destruct (decide (k = k')) as [->|Hne]; simpl.
    + by rewrite decide_True.
    + by rewrite decide_False.
Qed.

Lemma alist_get_set_ne {K V} `{EqDecision K} (k k' : K) (v : V) m :
  k ≠ k' → alist_get k' (alist_set k v m) = alist_get k' m.
Proof.
  intros Hne. induction m as [|[k0 v0] m IH]; simpl.
  - by rewrite decide_False.
  - destruct (decide (k = k0)) as [->|Hne0]; simpl.
    + by rewrite !decide_False.
    + destruct (decide (k' = k0)); [done|]. apply IH.
Qed.

Lemma trackEffects_length d s :
  length (depHeap (trackEffects d s)) = length (depHeap s)
  ∧ length (effects (trackEffects d s)) = length (effects s).
Proof.
  unfold trackEffects, add_edge. repeat case_match; simpl; by rewrite ?length_alter.
Qed.

Lemma trackEffects_dep_of d s t k : dep_of t k (trackEffects d s) = dep_of t k s.
Proof. unfold dep_of. by rewrite trackEffects_targetMap. Qed.

(** A tracked read records its key, with the Dep it had or a new one, and
    leaves the other keys alone. *)
Lemma track_dep_of t k s t' k' :
  isTracking s = true →
  dep_of t' k' (track t k s)
  = if decide (t' = t ∧ k' = k)
    then Some (default (length (depHeap s)) (dep_of t k s))
    else dep_of t' k' s.
Proof.
  intros Htr. unfold track. rewrite Htr. simpl.
  unfold dep_of at 2 3.
  destruct (alist_get t (targetMap s)) as [m|] eqn:Hm; simpl.
  - rewrite Hm. simpl. destruct (alist_get k m) as [d|] eqn:Hk.
    + rewrite trackEffects_dep_of. case_decide as Heq; [|done].
      destruct Heq as [-> ->]. unfold dep_of. by rewrite Hm.
    + rewrite trackEffects_dep_of. unfold dep_of. simpl.
      destruct (decide (t' = t)) as [->|Hnt].
      * rewrite alist_get_set_eq. destruct (decide (k' = k)) as [->|Hnk].
        -- rewrite decide_True by done. by rewrite alist_get_set_eq.
        -- rewrite decide_False by tauto. rewrite alist_get_set_ne by done.
           by rewrite Hm.
      * rewrite decide_False by tauto. by rewrite alist_get_set_ne.
  - rewrite alist_get_set_eq. simpl.
    rewrite trackEffects_dep_of. unfold dep_of. simpl.
    destruct (decide (t' = t)) as [->|Hnt].
    + rewrite alist_get_set_eq. destruct (decide (k' = k)) as [->|Hnk].
      * rewrite decide_True by done. simpl. by rewrite decide_True.
      * rewrite decide_False by tauto. simpl. rewrite decide_False by done.
        by rewrite Hm.
    + rewrite decide_False by tauto. rewrite !alist_get_set_ne by done. done.
Qed.

Lemma track_length t k s :
  (length (depHeap s) ≤ length (depHeap (track t k s)))%nat
  ∧ (dep_of t k s = None → isTracking s = true →
     length (depHeap (track t k s)) = S (length (depHeap s)))
  ∧ length (effects (track t k s)) = length (effects s).
Proof.
  unfold track. destruct (isTracking s); simpl; [|split; [lia|split; done]].
  unfold dep_of.
  destruct (alist_get t (targetMap s)) as [m|] eqn:Hm; simpl.
  - rewrite Hm. simpl. destruct (alist_get k m) as [d|] eqn:Hk.
    + destruct (trackEffects_length d s) as [-> ->]. split; [lia|]. by split.
    + match goal with |- context [trackEffects ?d ?x] =>
        destruct (trackEffects_length d x) as [-> ->] end.
      simpl. rewrite length_app. simpl. split; [lia|]. split; [intros; lia|done].
  - rewrite alist_get_set_eq. simpl.
    match goal with |- context [trackEffects ?d ?x] =>
      destruct (trackEffects_length d x) as [-> ->] end.
    simpl. rewrite length_app. simpl. split; [lia|]. split; [intros; lia|done].
Qed.

Lemma tm_ok_track t k s : tm_ok s → tm_ok (track t k s).
Proof.
  intros Hok t' k' d Hd. destruct (track_length t k s) as (Hle & Hnew & _).
  destruct (isTracking s) eqn:Htr.
  - rewrite track_dep_of in Hd by done. case_decide as Heq.
    + destruct (dep_of t k s) as [d0|] eqn:Hd0; simpl in Hd; injection Hd as <-.
      * apply Hok in Hd0. lia.
      * rewrite Hnew by done. lia.
    + apply Hok in Hd. lia.
  - unfold track in *. rewrite Htr in *. simpl in *. by apply Hok in Hd.
Qed.

Lemma track_members_mono t k s d x :
  x ∈ members_of d s → x ∈ members_of d (track t k s).
Proof.
  assert (∀ d0 s0, x ∈ members_of d s0 → x ∈ members_of d (trackEffects d0 s0)) as Hte.
  { intros d0 s0 Hx. unfold trackEffects.
    destruct (activeEffect s0) as [a|]; [|done].
    destruct (depHeap s0 !! d0) as [dep|] eqn:Hd0; [|done].
    assert (∀ s1, is_Some (depHeap s1 !! d0) → x ∈ members_of d s1 →
                  x ∈ members_of d (add_edge d0 a s1)) as Hadd.
    { intros s1 Hs1 Hx1. rewrite add_edge_members by done.
      case_decide; [|done]. rewrite elem_of_set_add. by right. }
    fold (mark_at (trackOpBit s0) d0 s0).
    destruct (_ <=? _).
    - destruct (negb (newTracked _ _)); [|done].
      destruct (negb (wasTracked _ _)).
      + apply Hadd; [|by rewrite mark_at_members].
        rewrite mark_at_dep, Hd0. by eexists.
      + by rewrite mark_at_members.
    - case_decide; [done|]. apply Hadd; [|done]. by rewrite Hd0. }
  intros Hx. unfold track. destruct (negb (isTracking s)); [done|].
  set (s1 := match alist_get t (targetMap s) with
             | Some _ => s
             | None => with_targetMap (alist_set t [] (targetMap s)) s
             end).
  assert (x ∈ members_of d s1) as Hx1.
  { unfold s1. by destruct (alist_get t (targetMap s)). }
  simpl. destruct (alist_get k _); apply Hte; [done|].
  by rewrite <- (members_of_alloc s1) in Hx1.
Qed.

(** ** A run subscribes to what it reads *)

Lemma hi_mode_track e t k s : hi_mode e s → hi_mode e (track t k s).
Proof.
  intros (H1 & H2 & H3).
  pose proof (track_ctx t k s) as Hc. pose proof (track_tracking t k s) as Ht.
  unfold ctx_of, tracking_of, hi_mode in *. simplify_eq. split_and!; congruence.
Qed.

Lemma hi_mode_tracks e rs : ∀ s, hi_mode e s → hi_mode e (tracks rs s).
Proof.
  induction rs as [|[t k] rs IH]; intros s Hs; [done|].
  simpl. by apply IH, hi_mode_track.
Qed.

Lemma hi_mode_isTracking e s : hi_mode e s → isTracking s = true.
Proof. intros (H1 & H2 & _). unfold isTracking. by rewrite H1, H2. Qed.

Lemma trackEffects_subscribes_hi e d s :
  hi_mode e s → is_Some (depHeap s !! d) → e ∈ members_of d (trackEffects d s).
Proof.
  intros (_ & Ha & Hd) [dep Hdep].
  rewrite (trackEffects_fallback d dep e s Hd Ha Hdep).
  case_decide as Hin.
  - unfold members_of. by rewrite Hdep.
  - rewrite add_edge_members by by rewrite Hdep. rewrite decide_True by done.
    apply elem_of_set_add. by left.
Qed.

Lemma track_existing t k s m d :
  isTracking s = true → alist_get t (targetMap s) = Some m → alist_get k m = Some d →
  track t k s = trackEffects d s.
Proof.
  intros Htr Hm Hk. unfold track. rewrite Htr. simpl. rewrite !Hm. simpl.
  by rewrite Hk.
Qed.

Lemma track_new_key t k s m :
  isTracking s = true → alist_get t (targetMap s) = Some m → alist_get k m = None →
  track t k s
  = trackEffects (length (depHeap s))
      (with_targetMap (alist_set t (alist_set k (length (depHeap s)) m) (targetMap s))
         (with_depHeap (depHeap s ++ [createDep []]) s)).
Proof.
  intros Htr Hm Hk. unfold track. rewrite Htr. simpl. rewrite !Hm. simpl.
  by rewrite Hk.
Qed.

Lemma track_new_target t k s :
  isTracking s = true → alist_get t (targetMap s) = None →
  track t k s
  = trackEffects (length (depHeap s))
      (with_targetMap
         (alist_set t [(k, length (depHeap s))] (alist_set t [] (targetMap s)))
         (with_depHeap (depHeap s ++ [createDep []]) s)).
Proof.
  intros Htr Hm. unfold track. rewrite Htr. simpl. rewrite !Hm. simpl.
  by rewrite alist_get_set_eq.
Qed.

Lemma track_subscribes_hi e t k s :
  hi_mode e s → tm_ok s →
  ∃ d, dep_of t k (track t k s) = Some d ∧ e ∈ members_of d (track t k s).
Proof.
  intros Hhi Htm. pose proof (hi_mode_isTracking _ _ Hhi) as Htr.
  eexists. split.
  { rewrite track_dep_of by done. by rewrite decide_True. }
  assert (∀ tm, e ∈ members_of (length (depHeap s))
            (trackEffects (length (depHeap s))
               (with_targetMap tm (with_depHeap (depHeap s ++ [createDep []]) s))))
    as Hnew.
  { intros tm. apply trackEffects_subscribes_hi; [done|]. simpl.
    apply lookup_lt_is_Some. rewrite length_app. simpl. lia. }
  unfold dep_of.
  destruct (alist_get t (targetMap s)) as [m|] eqn:Hm.
  - destruct (alist_get k m) as [d|] eqn:Hk; simpl.
    + rewrite (track_existing t k s m d) by done.
      apply trackEffects_subscribes_hi; [done|].
      apply lookup_lt_is_Some. apply (Htm t k). unfold dep_of. by rewrite Hm.
    + rewrite (track_new_key t k s m) by done. apply Hnew.
  - simpl. rewrite (track_new_target t k s) by done. apply Hnew.
Qed.

Lemma track_dep_of_stable t k s t' k' d :
  dep_of t' k' s = Some d → dep_of t' k' (track t k s) = Some d.
Proof.
  intros Hd. destruct (isTracking s) eqn:Htr.
  - rewrite track_dep_of by done. case_decide as Heq; [|done].
    destruct Heq as [-> ->]. by rewrite Hd.
  - unfold track. by rewrite Htr.
Qed.

Lemma tracks_stable rs : ∀ s t k d x,
  dep_of t k s = Some d → x ∈ members_of d s →
  dep_of t k (tracks rs s) = Some d ∧ x ∈ members_of d (tracks rs s).
Proof.
  induction rs as [|[t0 k0] rs IH]; intros s t k d x Hd Hx; [done|].
  simpl. apply IH; [by apply track_dep_of_stable|by apply track_members_mono].
Qed.

Lemma tracks_subscribe_hi e rs : ∀ s t k,
  hi_mode e s → tm_ok s → (t, k) ∈ rs →
  ∃ d, dep_of t k (tracks rs s) = Some d ∧ e ∈ members_of d (tracks rs s).
Proof.
  induction rs as [|[t0 k0] rs IH]; intros s t k Hhi Htm Hin.
  - by apply elem_of_nil in Hin.
  - simpl. apply elem_of_cons in Hin as [[= -> ->]|Hin].
    + destruct (track_subscribes_hi e t0 k0 s Hhi Htm) as (d & Hd & Hx).
      exists d. by apply tracks_stable.
    + apply IH; [by apply hi_mode_track|by apply tm_ok_track|done].
Qed.

Lemma run_enter_length e s :
  length (depHeap (run_enter e s)) = length (depHeap s).
Proof.
  rewrite run_enter_eq. unfold initDepMarkers, cleanupEffect.
  destruct (_ <=? _); simpl; by rewrite foldl_alter_length.
Qed.

Lemma run_enter_targetMap e s : targetMap (run_enter e s) = targetMap s.
Proof. rewrite run_enter_eq. by destruct (_ <=? _). Qed.

Lemma tm_ok_ext s s' :
  targetMap s' = targetMap s → (length (depHeap s) ≤ length (depHeap s'))%nat →
  tm_ok s → tm_ok s'.
Proof.
  intros Htm Hlen Hok t k d. unfold dep_of. rewrite Htm. intros Hd.
  apply (Hok t k) in Hd. lia.
Qed.

(** After a run of an effect whose function only reads, from clean marks
    when within the marker bits, the effect is in the Dep of every key it
    read. *)
Lemma run_subscribes e rs s t k :
  graph_ok s → tm_ok s → is_Some (effects s !! e) →
  0 ≤ effectTrackDepth s →
  (effectTrackDepth s < maxMarkerBits → clean_at (effectTrackDepth s + 1) s) →
  (t, k) ∈ rs →
  ∃ d, dep_of t k (run_exit e (tracks rs (run_enter e s))) = Some d
       ∧ e ∈ members_of d (run_exit e (tracks rs (run_enter e s))).
Proof.
  intros Hg Htm He Hd0 Hclean Hin.
  assert (∀ s_hi : State,
            targetMap s_hi = targetMap s → depHeap s_hi = depHeap s →
            maxMarkerBits ≤ effectTrackDepth s_hi →
            ∃ d, dep_of t k (run_exit e (tracks rs (run_enter e s_hi))) = Some d
                 ∧ e ∈ members_of d (run_exit e (tracks rs (run_enter e s_hi))))
    as Hhi.
  { intros s_hi Ht Hh Hdp.
    assert (hi_mode e (run_enter e s_hi)) as Hm.
    { pose proof (run_enter_ctx e s_hi) as Hc.
      pose proof (run_enter_tracking e s_hi) as Htr.
      unfold ctx_of, tracking_of, hi_mode in *. simplify_eq. split_and!; try done. lia. }
    assert (tm_ok (run_enter e s_hi)) as Htm'.
    { apply (tm_ok_ext s); [by rewrite run_enter_targetMap|
                            by rewrite run_enter_length, Hh|done]. }
    destruct (tracks_subscribe_hi e rs _ t k Hm Htm' Hin) as (d & Hd & Hx).
    exists d.
    assert (maxMarkerBits < effectTrackDepth (tracks rs (run_enter e s_hi))) as Hdeep.
    { by apply (hi_mode_tracks e rs). }
    destruct (run_exit_heaps e (tracks rs (run_enter e s_hi))) as [_ Hheap].
    replace (effectTrackDepth (tracks rs (run_enter e s_hi)) <=? maxMarkerBits)
      with false in Hheap by (symmetry; apply Z.leb_gt; lia).
    split.
    - unfold dep_of in *. by rewrite run_exit_targetMap.
    - unfold members_of in *. by rewrite Hheap. }
  destruct (Z.lt_ge_cases (effectTrackDepth s) maxMarkerBits) as [Hlo|Hge].
  - set (s_hi := with_depth maxMarkerBits (shl1 maxMarkerBits) s).
    destruct (Hhi s_hi) as (d & Hd & Hx); [done|done|simpl; lia|].
    assert (sim e (effectTrackDepth s + 1) (run_enter e s) (run_enter e s_hi)) as Hs.
    { apply sim_enter; try done. by apply Hclean. }
    apply (sim_tracks e _ rs) in Hs; [|lia].
    apply sim_exit in Hs as (Ht & Hm & _); [|lia].
    exists d. split.
    + unfold dep_of in *. by rewrite Ht.
    + by apply Hm.
  - by apply Hhi.
Qed.

(** ** Programs whose functions only read *)

Lemma tracks_log rs : ∀ s, log (tracks rs s) = log s.
Proof.
  induction rs as [|[t k] rs IH]; intros s; [done|].
  simpl. by rewrite IH, track_log.
Qed.

Lemma exec_call_reads prog f s :
  only_reads prog →
  ∃ fuel v s', exec prog fuel (CCall f) s = Some (Returned v, s') ∧ log s' = log s.
Proof.
  intros Hp. destruct (Hp f) as (rs & v & Hf).
  exists (S (length rs + 2)), v, (tracks rs s). split; [|apply tracks_log].
  rewrite exec_S. simpl. rewrite Hf. simpl. by rewrite exec_reads.
Qed.

Lemma exec_run_reader prog x s :
  only_reads prog → is_Some (effects s !! x) →
  ∃ fuel v s', exec prog fuel (COp (ORun x)) s = Some (Returned v, s')
               ∧ log s' = log s ++ [EvRun x].
Proof.
  intros Hp [eff He]. destruct (active eff) eqn:Ha.
  - destruct (decide (x ∈ effectStack s)) as [Hin|Hnin].
    + exists 1%nat, VUndefined, (emit (EvRun x) s).
      by rewrite (exec_run_on_stack _ _ _ _ _ He Ha Hin).
    + destruct (Hp (fn eff)) as (rs & v & Hf).
      exists (length rs + 4)%nat, v. eexists. split.
      * by apply (exec_run_reads prog _ x eff rs v).
      * by rewrite run_exit_log, tracks_log, run_enter_log.
  - destruct (exec_call_reads prog (fn eff) (emit (EvRun x) s) Hp)
      as (fuel & v & s' & Hrun & Hlog).
    exists (S fuel), v, s'. by rewrite (exec_run_inactive _ _ _ _ _ He Ha).
Qed.

(** [triggerEffects] in a program that only reads: it runs to its end, and
    an effect without scheduler that is not running has been run once for
    each of its occurrences in the list. *)
Lemma te_readers prog e l : ∀ st s,
  only_reads prog → heap_ok st s → e ∉ st →
  Forall (λ x, is_Some (effects s !! x)) l →
  (∃ eff, effects s !! e = Some eff ∧ scheduler eff = None) →
  ∃ fuel s',
    exec prog fuel (CTriggerEffects l) s = Some (Returned VUndefined, s')
    ∧ count_ev (EvRun e) (log s')
      = (count_ev (EvRun e) (log s) + length (filter (λ x, x = e) l))%nat.
Proof.
  induction l as [|x l IH]; intros st s Hp Hok Hnin Hall Hsched.
  - exists 1%nat, s. split; [done|]. simpl. lia.
  - apply Forall_cons in Hall as [[effx Hx] Hall].
    assert (∀ fuel0 v0 s0,
              exec prog fuel0 (CTriggerEffects [x]) s = Some (Returned v0, s0) →
              count_ev (EvRun e) (log s0)
              = (count_ev (EvRun e) (log s) + if decide (x = e) then 1 else 0)%nat →
              ∃ fuel s',
                exec prog fuel (CTriggerEffects (x :: l)) s = Some (Returned VUndefined, s')
                ∧ count_ev (EvRun e) (log s')
                  = (count_ev (EvRun e) (log s)
                     + length (filter (λ x, x = e) (x :: l)))%nat) as Hstep.
    { intros fuel0 v0 s0 H0 Hc0.
      pose proof (exec_heap_ok _ _ _ _ _ _ _ Hok H0) as Hok0.
      pose proof (exec_static _ _ _ _ _ _ H0) as Hst0.
      destruct (IH st s0 Hp Hok0 Hnin) as (fuel1 & s' & H1 & Hc1).
      { eapply Forall_impl; [exact Hall|]. intros y [effy Hy].
        destruct (Hst0 _ _ Hy) as (effy' & Hy' & _). by rewrite Hy'. }
      { destruct Hsched as (eff & He & Hs).
        destruct (Hst0 _ _ He) as (eff' & He' & _ & Hs' & _).
        exists eff'. split; [done|congruence]. }
      exists (S (fuel0 + fuel1)), s'. split.
      - destruct fuel0 as [|fuel0]; [done|].
        rewrite (exec_te_cons _ _ _ _ _ _ Hx) in H0.
        rewrite (exec_te_cons _ _ _ _ _ _ Hx).
        assert (exec prog (S fuel0 + fuel1) (CTriggerEffects l) s0
                = Some (Returned VUndefined, s')) as H1'.
        { eapply exec_fuel_le; [|exact H1]. lia. }
        destruct (_ || _).
        + destruct (scheduler effx) as [f|].
          * destruct (exec prog fuel0 (CCall f) _) as [[[v1|err] s1]|] eqn:E1;
              [|done|done].
            eapply (exec_fuel_le _ _ (S fuel0 + fuel1)) in E1; [|lia].
            rewrite E1.
            destruct fuel0 as [|fuel0]; [done|]. rewrite exec_te_nil in H0.
            by simplify_eq.
          * destruct (exec prog fuel0 (COp (ORun x)) _) as [[[v1|err] s1]|] eqn:E1;
              [|done|done].
            eapply (exec_fuel_le _ _ (S fuel0 + fuel1)) in E1; [|lia].
            rewrite E1.
            destruct fuel0 as [|fuel0]; [done|]. rewrite exec_te_nil in H0.
            by simplify_eq.
        + destruct fuel0 as [|fuel0]; [done|]. rewrite exec_te_nil in H0.
          by simplify_eq.
      - rewrite Hc1, Hc0, filter_cons. case_decide; simpl; lia. }
    destruct (bool_decide (activeEffect s ≠ Some x) || allowRecurse effx) eqn:Hg.
    + destruct (scheduler effx) as [f|] eqn:Hf.
      * destruct (exec_call_reads prog f (emit (EvSched x) (emit (EvTrigger x) s)) Hp)
          as (fuel0 & v0 & s0 & H0 & Hl0).
        apply (Hstep (S (S fuel0)) VUndefined s0).
        -- rewrite (exec_te_cons _ _ _ _ _ _ Hx), Hg, Hf.
           rewrite (exec_fuel_S _ _ _ _ _ H0). apply exec_te_nil.
        -- rewrite Hl0. simpl. rewrite !count_ev_snoc.
           rewrite !(decide_False (P := _ = EvRun e)) by done.
           rewrite decide_False; [lia|]. intros ->.
           destruct Hsched as (eff & He & Hs). congruence.
      * destruct (exec_run_reader prog x (emit (EvTrigger x) s) Hp)
          as (fuel0 & v0 & s0 & H0 & Hl0); [by rewrite emit_effects, Hx|].
        apply (Hstep (S (S fuel0)) VUndefined s0).
        -- rewrite (exec_te_cons _ _ _ _ _ _ Hx), Hg, Hf.
           rewrite (exec_fuel_S _ _ _ _ _ H0). apply exec_te_nil.
        -- rewrite Hl0. simpl. rewrite !count_ev_snoc.
           rewrite (decide_False (P := EvTrigger x = EvRun e)) by done.
           destruct (decide (x = e)) as [->|Hne].
           ++ rewrite decide_True by done. lia.
           ++ rewrite decide_False by congruence. lia.
    + apply (Hstep 2%nat VUndefined s).
      * rewrite (exec_te_cons _ _ _ _ _ _ Hx), Hg. apply exec_te_nil.
      * rewrite decide_False; [lia|]. intros ->.
        apply orb_false_iff in Hg as [Hg _]. apply bool_decide_eq_false in Hg.
        apply Hnin. destruct Hok as [(_ & _ & _ & Ha) _ _ _].
        apply last_Some_elem_of. rewrite <- Ha.
        destruct (activeEffect s) as [a|]; [|by destruct Hg].
        destruct (decide (a = e)) as [->|Hne]; [done|].
        exfalso. apply Hg. congruence.
Qed.

(** ** The round trip *)

Lemma length_deps_contains m nv ds d :
  length_deps m nv = Some (inr ds) → alist_get LENGTH_KEY m = Some d → Some d ∈ ds.
Proof.
  revert ds. induction m as [|[k d0] m IH]; intros ds Hl Hg; simpl in *; [done|].
  destruct (decide (k = LENGTH_KEY)) as [->|Hne].
  - rewrite decide_True in Hg by done. injection Hg as ->.
    destruct (length_deps m nv) as [[err|l]|]; [done| |done].
    injection Hl as <-. by left.
  - rewrite decide_False in Hg by congruence.
    destruct (key_ge k nv) as [[err|b]|]; [done| |done].
    destruct (length_deps m nv) as [[err|l]|]; [done| |done]. injection Hl as <-.
    specialize (IH l eq_refl Hg). destruct b; [by right|done].
Qed.

Lemma collect_contains_key m t ty k nv ds d :
  ty ≠ CLEAR → collect_deps m t ty (Some k) nv = Some (inr ds) →
  alist_get k m = Some d → Some d ∈ ds.
Proof.
  intros Hty Hc Hk. unfold collect_deps in Hc. rewrite decide_False in Hc by done.
  destruct (bool_decide (Some k = Some LENGTH_KEY) && isArray t) eqn:Hb.
  - apply andb_true_iff in Hb as [Hb _]. apply bool_decide_eq_true in Hb.
    injection Hb as ->. by eapply length_deps_contains.
  - injection Hc as <-. rewrite Hk. by left.
Qed.

Lemma collect_general m t ty k nv :
  isArray t = false ∨ k ≠ LENGTH_KEY →
  ∃ ds, collect_deps m t ty (Some k) nv = Some (inr ds).
Proof.
  intros H. unfold collect_deps. case_decide; [by eexists|].
  replace (bool_decide (Some k = Some LENGTH_KEY) && isArray t) with false;
    [by eexists|].
  symmetry. apply andb_false_iff. destruct H as [H|H]; [by right|left].
  apply bool_decide_eq_false. congruence.
Qed.

Lemma snapshot_contains ds s d e :
  graph_ok s → Some d ∈ ds → e ∈ members_of d s →
  ∃ l, snapshot_of ds s = Some l ∧ NoDup l ∧ e ∈ l
       ∧ Forall (λ x, is_Some (effects s !! x)) l.
Proof.
  intros Hg Hd He.
  assert (∀ l, (∀ x, x ∈ l → ∃ d', x ∈ members_of d' s) →
               Forall (λ x, is_Some (effects s !! x)) l) as Hex.
  { intros l Hl. apply Forall_forall. intros x Hx.
    destruct (Hl x Hx) as [d' Hd']. apply (ok_sym _ Hg) in Hd'.
    unfold deps_of in Hd'. destruct (effects s !! x); [done|].
    by apply elem_of_nil in Hd'. }
  destruct (decide (length ds = 1%nat)) as [Hone|Hmany].
  - destruct ds as [|d1 [|d2 ds]]; simpl in Hone; try lia.
    apply list_elem_of_singleton in Hd as <-. simpl.
    exists (members_of d s). split; [done|]. split; [apply (ok_members_nodup _ Hg)|].
    split; [done|]. apply Hex. eauto.
  - assert (snapshot_of ds s = Some (Dep.members (createDep (concat (map
              (λ d, match d with Some d => members_of d s | None => [] end) ds)))))
      as Hsnap.
    { destruct ds as [|d1 [|d2 ds]]; simpl in *; done || lia. }
    eexists. split; [exact Hsnap|]. split; [apply NoDup_set_of|]. split.
    + apply elem_of_merged. eauto.
    + apply Hex. intros x Hx. apply elem_of_merged in Hx as (d' & _ & Hx). eauto.
Qed.

Lemma filter_eq_absent (l : list EffId) e :
  e ∉ l → length (filter (λ x, x = e) l) = 0%nat.
Proof.
  induction l as [|x l IH]; intros Hnin; [done|].
  rewrite filter_cons. apply not_elem_of_cons in Hnin as [Hne Hnin].
  rewrite decide_False by congruence. by apply IH.
Qed.

Lemma NoDup_filter_eq_1 (l : list EffId) e :
  NoDup l → e ∈ l → length (filter (λ x, x = e) l) = 1%nat.
Proof.
  induction 1 as [|x l Hx Hl IH]; intros Hin; [by apply elem_of_nil in Hin|].
  rewrite filter_cons. apply elem_of_cons in Hin as [->|Hin].
  - rewrite decide_True by done. simpl. by rewrite filter_eq_absent.
  - rewrite decide_False; [by apply IH|]. by intros ->.
Qed.

(** The round trip of [track] and [trigger], in a program whose
    functions only read.  An effect without scheduler that is not running
    reads a key among others; its run returns.  After that run a [trigger]
    that sets that key returns, and in the course of it [run] of the effect
    has been entered exactly once.  The case left out is the one where
    collecting the Deps throws, which can only happen for the key "length"
    of an array. *)
Lemma track_trigger_round_trip (prog : FnId → Script) (e : EffId)
    (eff : ReactiveEffect) (rs : list (Target * Key)) (v : Value)
    (st : list EffId) (s : State) (C : Target) (K : Key) (newValue : option Z) :
  only_reads prog → heap_ok st s → tm_ok s → e ∉ st →
  effects s !! e = Some eff → active eff = true → scheduler eff = None →
  prog (fn eff) = mkScript (reads rs) (Return v) → (C, K) ∈ rs →
  ((length st < 30)%nat → clean_at (Z.of_nat (length st) + 1) s) →
  ∃ s1,
    exec prog (length rs + 4) (COp (ORun e)) s = Some (Returned v, s1)
    ∧ ((∀ m, alist_get C (targetMap s1) = Some m →
             ∃ ds, collect_deps m C SET (Some K) newValue = Some (inr ds)) →
       ∃ fuel s2,
         exec prog fuel (COp (OTrigger C SET (Some K) newValue)) s1
         = Some (Returned VUndefined, s2)
         ∧ count_ev (EvRun e) (log s2) = S (count_ev (EvRun e) (log s1)))
    ∧ (isArray C = false ∨ K ≠ LENGTH_KEY →
       ∀ m, ∃ ds, collect_deps m C SET (Some K) newValue = Some (inr ds)).
Proof.
  intros Hp Hok Htm Hnin He Ha Hsch Hprog Hin Hclean.
  pose proof Hok as [(Hst & Hdp & _) _ Hg _].
  eexists. split; [|split].
  - apply (exec_run_reads prog _ e eff rs v); try done. by rewrite Hst.
  - intros Hcollect.
    set (s1 := run_exit e (tracks rs (run_enter e (emit (EvRun e) s)))) in *.
    assert (exec prog (length rs + 4) (COp (ORun e)) s = Some (Returned v, s1)) as Hrun.
    { apply (exec_run_reads prog _ e eff rs v); try done. by rewrite Hst. }
    pose proof (exec_heap_ok _ _ _ _ _ _ _ Hok Hrun) as Hok1.
    pose proof (exec_static _ _ _ _ _ _ Hrun) as Hst1.
    assert (graph_ok (emit (EvRun e) s)) as Hg0
      by (apply graph_ok_pointwise with (s := s); done).
    assert (effectTrackDepth s < maxMarkerBits →
            clean_at (effectTrackDepth s + 1) (emit (EvRun e) s)) as Hclean0.
    { intros Hlt. rewrite Hdp in *. apply Hclean. unfold maxMarkerBits in Hlt. lia. }
    destruct (run_subscribes e rs (emit (EvRun e) s) C K Hg0 Htm
                ltac:(by rewrite emit_effects, He) ltac:(simpl; lia) Hclean0 Hin)
      as (d & Hd & Hmem).
    fold s1 in Hd, Hmem. unfold dep_of in Hd.
    destruct (alist_get C (targetMap s1)) as [m|] eqn:Hm; [|done].
    destruct (Hcollect m eq_refl) as [ds Hds].
    assert (Some d ∈ ds) as Hdin
      by (by apply (collect_contains_key m C SET K newValue ds d)).
    destruct (snapshot_contains ds s1 d e (ok_graph _ _ Hok1) Hdin Hmem)
      as (l & Hl & Hnd & Hel & Hall).
    destruct (te_readers prog e l st s1 Hp Hok1 Hnin Hall) as (fuel & s2 & Hte & Hcount).
    { destruct (Hst1 _ _ He) as (eff' & He' & _ & Hs' & _).
      exists eff'. split; [done|congruence]. }
    exists (S fuel), s2. split.
    + rewrite exec_S. simpl. unfold trigger. rewrite Hm, Hds. unfold notify_deps.
      by rewrite Hl.
    + rewrite Hcount, NoDup_filter_eq_1 by done. lia.
  - intros Hgen m. by apply collect_general.
Qed.


(** C1, on the code: two effects that have read a key and run once, which
    a write to that key does not run.  First, a stale marker: the effect 0,
    created lazily, reads [w_obj.x] and stops itself; [stop] empties its list
    of Deps, so the [finally] block of its run finds no Dep to clear and the
    Dep of [x] keeps the bit of depth 1 in its mask of new subscriptions.
    The effect 1, live, without scheduler, is then created and runs its
    function once at that same depth: the read of [w_obj.x] finds the Dep
    marked as subscribed in this run and adds nothing.  The engine is at
    rest, the effect 1 has run once and is in no Dep; a [trigger] that sets
    [x] returns with the state unchanged, and the effect has not run again.
    Second, the key "length" of an array: the effect 0 has read a symbol key
    and "length" of [w_arr], and sits in the Dep of "length"; a [trigger]
    that sets "length" throws a [TypeError] while it collects the Deps, and
    the effect has not run again. *)
Theorem trigger_misses_subscriber :
  (∃ s1 s2 d,
     exec w_stale 20
       (COps [OEffect (PlainFn 0) (Some w_lazy); ORun 0; OEffect (PlainFn 1) None]
          (Return VUndefined))
       initial_state
     = Some (Returned VUndefined, s1)
     ∧ effects s1 !! 1%nat = Some (mkEffect true [] false None 1 None)
     ∧ ops (w_stale 1) = [OTrack w_obj (KStr "x")]
     ∧ count_ev (EvRun 1) (log s1) = 1%nat
     ∧ ctx_of s1 = ([], 0, 1, None)
     ∧ tracking_of s1 = (true, [])
     ∧ dep_of w_obj (KStr "x") s1 = Some 0%nat
     ∧ depHeap s1 !! 0%nat = Some d
     ∧ Dep.members d = [] ∧ Dep.n d = 2
     ∧ exec w_stale 20 (COp (OTrigger w_obj SET (Some (KStr "x")) (Some 1))) s1
       = Some (Returned VUndefined, s2)
     ∧ s2 = s1)
  ∧ (∃ s1,
       exec w_arr_prog 20 (COp (OEffect (PlainFn 0) None)) initial_state
       = Some (Returned (VRunner 0), s1)
       ∧ effects s1 !! 0%nat = Some (mkEffect true [0%nat; 1%nat] false None 0 None)
       ∧ count_ev (EvRun 0) (log s1) = 1%nat
       ∧ dep_of w_arr LENGTH_KEY s1 = Some 1%nat
       ∧ members_of 1 s1 = [0%nat]
       ∧ exec w_arr_prog 20 (COp (OTrigger w_arr SET (Some LENGTH_KEY) (Some 0))) s1
         = Some (Threw TypeError, s1)).
Proof.
  split.
  - eexists _, _, _. split; [vm_compute; reflexivity|]. by vm_compute.
  - eexists. split; [vm_compute; reflexivity|]. by vm_compute.
Qed.

(** ** States at rest *)

Lemma heap_ok_no_deps effs :
  Forall (λ eff, deps eff = []) effs → heap_ok [] (w_state effs).
Proof.
  intros Hall.
  assert (∀ e, deps_of e (w_state effs) = []) as Hd.
  { intros e. unfold deps_of. simpl. destruct (effs !! e) as [eff|] eqn:He; [|done].
    by apply (Forall_lookup_1 _ _ _ _ Hall He). }
  split.
  - done.
  - split; [apply NoDup_nil_2|]. by intros e Hin%elem_of_nil.
  - split.
    + intros e d. rewrite Hd. unfold members_of. simpl.
      split; intros Hx; by apply elem_of_nil in Hx.
    + intros e. rewrite Hd. apply NoDup_nil_2.
    + intros d. apply NoDup_nil_2.
  - by intros i e d Hi.
Qed.

Lemma tm_ok_empty effs : tm_ok (w_state effs).
Proof. by intros t k d Hd. Qed.

Lemma clean_at_empty D effs : clean_at D (w_state effs).
Proof. by intros d dep Hd. Qed.

Lemma only_reads_w_reader : only_reads w_reader.
Proof. intros [|f]; by eexists _, _. Qed.

(** ** trigger on the length of an array

    The loop over the registry of the array compares every key but "length"
    with the new length. *)

(** C8, on the code: an array whose registry holds a symbol key besides
    "length".  The effect has read both keys and sits in the Dep of
    "length"; setting the length throws a [TypeError] out of [trigger] while
    the Deps are being collected, and nothing is notified. *)
Theorem length_trigger_symbol_key_throws :
  ∃ s,
    exec w_arr_prog 20 (COp (OEffect (PlainFn 0) None)) initial_state
    = Some (Returned (VRunner 0), s)
    ∧ dep_of w_arr (KSym 7) s = Some 0%nat
    ∧ dep_of w_arr LENGTH_KEY s = Some 1%nat
    ∧ members_of 1 s = [0%nat]
    ∧ exec w_arr_prog 20 (COp (OTrigger w_arr SET (Some LENGTH_KEY) (Some 0))) s
      = Some (Threw TypeError, s).
Proof. eexists. split; [vm_compute; reflexivity|]. by vm_compute. Qed.

(** ** trigger: the structural keys, notified *)





(** ** Instances *)

Lemma track_trigger_round_trip_witness :
  ∃ s1 fuel s2,
    exec w_reader 5 (COp (ORun 0)) (w_state [w_eff 0]) = Some (Returned (VNum 1), s1)
    ∧ exec w_reader fuel (COp (OTrigger w_obj SET (Some (KStr "x")) (Some 5))) s1
      = Some (Returned VUndefined, s2)
    ∧ count_ev (EvRun 0) (log s2) = S (count_ev (EvRun 0) (log s1)).
Proof.
  destruct (track_trigger_round_trip w_reader 0 (w_eff 0) [(w_obj, KStr "x")]
              (VNum 1) [] (w_state [w_eff 0]) w_obj (KStr "x") (Some 5))
    as (s1 & Hrun & Htrig & Hgen).
  - exact only_reads_w_reader.
  - apply heap_ok_no_deps. by repeat constructor.
  - apply tm_ok_empty.
  - apply not_elem_of_nil.
  - reflexivity.
  - reflexivity.
  - reflexivity.
  - reflexivity.
  - apply list_elem_of_here.
  - intros _. apply clean_at_empty.
  - destruct Htrig as (fuel & s2 & H1 & H2).
    + intros m _. apply Hgen. by left.
    + by exists s1, fuel, s2.
Defined.

Lemma symmetric_bookkeeping_witness :
  ∃ r s,
    exec w_reader 20
      (COps [OEffect (PlainFn 0) None; OTrigger w_obj SET (Some (KStr "x")) (Some 1)]
         (Return VUndefined)) initial_state = Some (r, s)
    ∧ ∀ e d, e ∈ members_of d s ↔ d ∈ deps_of e s.
Proof.
  eexists _, _. split; [vm_compute; reflexivity|].
  apply (symmetric_bookkeeping w_reader 20
           (COps [OEffect (PlainFn 0) None; OTrigger w_obj SET (Some (KStr "x")) (Some 1)]
              (Return VUndefined)) (Returned VUndefined)).
  vm_compute. reflexivity.
Defined.

Lemma no_tracking_w_thrower : ∀ f, Forall no_tracking_op (ops (w_thrower f)).
Proof. intros [|f]; by repeat constructor. Qed.

Lemma run_failure_restores_witness :
  ∃ s',
    exec w_thrower 10 (COp (ORun 0)) (w_state [w_eff 0])
    = Some (Threw (UserError 7), s')
    ∧ effectTrackDepth s' = 0 ∧ trackOpBit s' = 1 ∧ effectStack s' = []
    ∧ activeEffect s' = None ∧ shouldTrack s' = true ∧ trackStack s' = [].
Proof.
  destruct (run_failure_restores w_thrower 9 0 (w_eff 0) [] (w_state [w_eff 0])
              (UserError 7)
              (match exec w_thrower 9 (CCall 0)
                       (run_enter 0 (emit (EvRun 0) (w_state [w_eff 0]))) with
               | Some (_, x) => x
               | None => initial_state
               end))
    as (s' & Hrun & _ & H1 & H2 & H3 & H4 & _ & H5).
  - by repeat split.
  - reflexivity.
  - right. apply not_elem_of_nil.
  - vm_compute. reflexivity.
  - destruct (H5 no_tracking_w_thrower) as [H6 H7].
    exists s'. split; [exact Hrun|].
    split; [exact H1|]. split; [exact H2|]. split; [exact H3|].
    split; [exact H4|]. split; [exact H6|exact H7].
Defined.

Lemma stop_terminal_witness :
  ∃ s',
    exec w_reader 5 (COp (OStop 0)) (w_state [w_eff 0]) = Some (Returned VUndefined, s')
    ∧ inactive 0 s'
    ∧ ∀ fuel l fin r s'',
        exec w_reader fuel (COps l fin) s' = Some (r, s'') →
        count_ev (EvTrigger 0) (log s'') = count_ev (EvTrigger 0) (log s').
Proof.
  eexists. split; [vm_compute; reflexivity|].
  match goal with
  | |- inactive _ ?s' ∧ _ =>
      destruct (stop_terminal w_reader 5 0 (w_eff 0) [] (w_state [w_eff 0])
                  VUndefined s') as (_ & _ & _ & H1 & _ & H2 & H3 & _)
  end.
  - apply heap_ok_no_deps. by repeat constructor.
  - reflexivity.
  - reflexivity.
  - vm_compute. reflexivity.
  - split; [exact H1|]. apply H3; [apply not_elem_of_nil|]. by apply H2.
Defined.

Lemma triggerEffects_each_witness :
  ∃ s1 s2 v',
    exec w_reader 20 (CTriggerEffects [0%nat]) (w_state [w_eff 0; w_eff 1])
    = Some (Returned VUndefined, s1)
    ∧ exec w_reader 20 (COp (ORun 1)) (emit (EvTrigger 1) s1) = Some (Returned v', s2).
Proof.
  destruct (triggerEffects_each w_reader [0%nat] 20 [] (w_state [w_eff 0; w_eff 1])
              1%nat [] (w_eff 1) VUndefined
              (match exec w_reader 20 (CTriggerEffects [0%nat; 1%nat])
                       (w_state [w_eff 0; w_eff 1]) with
               | Some (_, s) => s
               | None => initial_state
               end))
    as (s1 & s2 & H1 & _ & H2 & _).
  - by repeat split.
  - reflexivity.
  - vm_compute. reflexivity.
  - simpl in H2. destruct H2 as [v' H2]. by exists s1, s2, v'.
Defined.



Lemma depth_fallback_same_edges_witness :
  ∃ lo' hi',
    exec w_reader 5 (COp (ORun 0)) (w_state (replicate 31 (w_eff 0)))
    = Some (Returned (VNum 1), lo')
    ∧ exec w_reader 5 (COp (ORun 0)) (w_deep (replicate 31 (w_eff 0)))
      = Some (Returned (VNum 1), hi')
    ∧ ∀ d x, x ∈ members_of d lo' ↔ x ∈ members_of d hi'.
Proof.
  destruct (depth_fallback_same_edges w_reader 5 0 (w_eff 0) [(w_obj, KStr "x")]
              (VNum 1) [] (seq 1 30) (w_state (replicate 31 (w_eff 0)))
              (w_deep (replicate 31 (w_eff 0))))
    as (_ & lo' & hi' & H1 & H2 & _ & H3 & _).
  - apply heap_ok_no_deps. by repeat constructor.
  - by repeat split.
  - reflexivity.
  - reflexivity.
  - reflexivity.
  - apply not_elem_of_nil.
  - intros Hin. apply elem_of_seq in Hin. lia.
  - reflexivity.
  - reflexivity.
  - reflexivity.
  - simpl. lia.
  - simpl. lia.
  - apply clean_at_empty.
  - simpl. lia.
  - by exists lo', hi'.
Defined.

Lemma effect_unwraps_runner_witness :
  ∃ res s',
    exec w_reader 20 (COp (OEffect (RunnerFn 0) None)) (w_state [w_eff 0])
    = Some (res, s')
    ∧ exec w_reader 20 (COp (OEffect (PlainFn 0) None)) (w_state [w_eff 0])
      = Some (res, s')
    ∧ ∃ neweff, effects s' !! 1%nat = Some neweff ∧ fn neweff = 0%nat.
Proof.
  eexists _, _. split; [vm_compute; reflexivity|].
  match goal with
  | |- exec _ _ _ _ = Some (?res, ?s') ∧ _ =>
      destruct (effect_unwraps_runner w_reader 20 0 (w_eff 0) None (w_state [w_eff 0])
                  res s') as (H1 & H2 & _)
  end.
  - reflexivity.
  - constructor.
  - vm_compute. reflexivity.
  - split; [exact H1|exact H2].
Defined.

(** * Further properties of the engine *)

(** ** The tracking context and the should-track stack *)

(** X1: whatever is called and however it ends, by a return or by a throw,
    the call leaves the effect stack, the tracking depth, its bit marker and
    the active effect as it found them. *)
Theorem engine_restores_context (prog : FnId → Script) (fuel : nat) (c : Cmd)
    (st : list EffId) (s : State) (r : Outcome) (s' : State) :
  ctx_ok st s →
  exec prog fuel c s = Some (r, s') →
  effectStack s' = effectStack s
  ∧ effectTrackDepth s' = effectTrackDepth s
  ∧ trackOpBit s' = trackOpBit s
  ∧ activeEffect s' = activeEffect s.
Proof.
  intros Hctx H.
  pose proof (exec_ctx _ _ _ _ _ _ _ Hctx H) as Hctx'.
  pose proof (ctx_ok_eq _ _ _ Hctx Hctx') as Heq. unfold ctx_of in Heq.
  by simplify_eq.
Qed.

Lemma engine_restores_context_witness :
  ∃ s',
    exec w_nested_thrower 20 (COp (OEffect (PlainFn 0) None)) initial_state
    = Some (Threw (UserError 7), s')
    ∧ effectStack s' = [] ∧ effectTrackDepth s' = 0 ∧ trackOpBit s' = 1
    ∧ activeEffect s' = None.
Proof.
  eexists. split; [vm_compute; reflexivity|].
  match goal with
  | |- effectStack ?s' = _ ∧ _ =>
      apply (engine_restores_context w_nested_thrower 20
               (COp (OEffect (PlainFn 0) None)) [] initial_state
               (Threw (UserError 7)) s')
  end.
  - by repeat split.
  - vm_compute. reflexivity.
Defined.

(** X2: in a program that does not itself pause, enable or reset tracking,
    every call leaves the should-track flag and its stack as it found them:
    [run] enables tracking for the time of the call only, also when it ends
    by a throw. *)
Theorem engine_keeps_should_track (prog : FnId → Script) (fuel : nat) (c : Cmd)
    (s : State) (r : Outcome) (s' : State) :
  (∀ f, Forall no_tracking_op (ops (prog f))) →
  no_tracking_cmd c →
  exec prog fuel c s = Some (r, s') →
  shouldTrack s' = shouldTrack s ∧ trackStack s' = trackStack s.
Proof.
  intros Hprog Hc H.
  pose proof (exec_tracking _ _ _ _ _ _ Hprog Hc H) as Heq.
  unfold tracking_of in Heq. by simplify_eq.
Qed.

Lemma engine_keeps_should_track_witness :
  ∃ s',
    exec w_thrower 10 (COp (ORun 0)) (pauseTracking (w_state [w_eff 0]))
    = Some (Threw (UserError 7), s')
    ∧ members_of 0 s' = [0%nat]
    ∧ shouldTrack s' = false ∧ trackStack s' = [true].
Proof.
  eexists. split; [vm_compute; reflexivity|]. split; [vm_compute; reflexivity|].
  match goal with
  | |- shouldTrack ?s' = _ ∧ _ =>
      apply (engine_keeps_should_track w_thrower 10 (COp (ORun 0))
               (pauseTracking (w_state [w_eff 0])) (Threw (UserError 7)) s')
  end.
  - exact no_tracking_w_thrower.
  - exact I.
  - vm_compute. reflexivity.
Defined.

Lemma resetTracking_push b s : resetTracking (push_tracking b s) = s.
Proof.
  destruct s, b; unfold push_tracking, enableTracking, pauseTracking, resetTracking,
    with_tracking; simpl; by rewrite last_snoc, removelast_last.
Qed.

(** X3: the should-track stack is a stack.  However many times tracking is
    paused or enabled, in whatever order, as many [resetTracking] give back
    the very state before the first of them; and a [resetTracking] that
    finds the stack empty turns tracking on. *)
Theorem tracking_stack_balanced (bs : list bool) (s : State) :
  Nat.iter (length bs) resetTracking (foldl (λ x b, push_tracking b x) s bs) = s
  ∧ ∀ b, tracking_of (resetTracking (with_tracking b [] s)) = (true, []).
Proof.
  split; [|done].
  induction bs as [|b bs IH] using rev_ind; [done|].
  rewrite foldl_app, length_app, Nat.add_comm.
  change (length [b] + length bs)%nat with (S (length bs)).
  rewrite Nat.iter_succ_r. cbn [foldl]. by rewrite resetTracking_push.
Qed.

Lemma track_paused t k s : shouldTrack s = false → track t k s = s.
Proof. intros H. unfold track, isTracking. by rewrite H. Qed.

Lemma tracks_paused rs : ∀ s, shouldTrack s = false → tracks rs s = s.
Proof.
  induction rs as [|[t k] rs IH]; intros s H; [done|].
  simpl. rewrite track_paused by done. by apply IH.
Qed.

Lemma exec_ops_nil prog fuel fin s :
  exec prog (S fuel) (COps [] fin) s = Some (outcome_of fin, s).
Proof. by rewrite exec_S. Qed.

Lemma exec_ops_cons prog fuel op rest fin s :
  exec prog (S fuel) (COps (op :: rest) fin) s
  = match exec prog fuel (COp op) s with
    | Some (Returned _, s1) => exec prog fuel (COps rest fin) s1
    | r => r
    end.
Proof. by rewrite exec_S. Qed.

Lemma exec_reads_then prog rs op fin : ∀ fuel s,
  (length rs + 3 ≤ fuel)%nat →
  exec prog fuel (COps (reads rs ++ [op]) fin) s
  = match exec prog (fuel - length rs - 1) (COp op) (tracks rs s) with
    | Some (Returned _, s1) => Some (outcome_of fin, s1)
    | r => r
    end.
Proof.
  induction rs as [|[t k] rs IH]; intros fuel s Hfuel; simpl in Hfuel.
  - destruct fuel as [|fuel]; [lia|]. simpl. rewrite exec_ops_cons.
    rewrite Nat.sub_0_r.
    destruct (exec prog fuel (COp op) s) as [[[v|err] s1]|]; [|done|done].
    destruct fuel as [|fuel]; [lia|]. apply exec_ops_nil.
  - destruct fuel as [|fuel]; [lia|]. simpl. rewrite exec_ops_cons.
    destruct fuel as [|fuel]; [lia|]. rewrite (exec_S _ fuel (COp _)). simpl.
    rewrite IH by lia. by replace (S fuel - length rs - 1)%nat
      with (S (S fuel) - S (length rs) - 1)%nat by lia.
Qed.

(** X4: reads made while tracking is paused leave no trace.  Between
    [pauseTracking] and the [resetTracking] that answers it, [track] records
    nothing, whatever the active effect and the keys: no entry of the
    registry, no Dep, no edge; the state afterwards is the state before. *)
Theorem paused_reads_leave_no_trace (prog : FnId → Script)
    (rs : list (Target * Key)) (fin : Ending) (fuel : nat) (s : State) :
  resetTracking (tracks rs (pauseTracking s)) = s
  ∧ exec prog (length rs + 5 + fuel)
      (COps (OPauseTracking :: reads rs ++ [OResetTracking]) fin) s
    = Some (outcome_of fin, s).
Proof.
  assert (resetTracking (tracks rs (pauseTracking s)) = s) as Hst.
  { rewrite tracks_paused by done. apply (resetTracking_push false). }
  split; [done|].
  replace (length rs + 5 + fuel)%nat with (S (S (length rs + 3 + fuel))) by lia.
  rewrite exec_ops_cons, exec_S. simpl.
  rewrite exec_reads_then by lia.
  replace (S (length rs + 3 + fuel) - length rs - 1)%nat with (S (2 + fuel)) by lia.
  rewrite exec_S. simpl. by rewrite Hst.
Qed.

(** ** What a call never changes *)

(** X5: no call takes an effect away, gives it another function, scheduler,
    [allowRecurse] or [onStop], or makes a stopped effect active again. *)
Theorem engine_keeps_effects_static (prog : FnId → Script) (fuel : nat) (c : Cmd)
    (s : State) (r : Outcome) (s' : State) (e : EffId) (eff : ReactiveEffect) :
  effects s !! e = Some eff →
  exec prog fuel c s = Some (r, s') →
  ∃ eff', effects s' !! e = Some eff'
    ∧ fn eff' = fn eff ∧ scheduler eff' = scheduler eff
    ∧ allowRecurse eff' = allowRecurse eff ∧ onStop eff' = onStop eff
    ∧ (active eff = false → active eff' = false).
Proof. intros He H. exact (exec_static _ _ _ _ _ _ H e eff He). Qed.

Lemma engine_keeps_effects_static_witness :
  ∃ r s' eff',
    exec w_reader 20
      (COps [ORun 0; OEffect (RunnerFn 0) None;
             OTrigger w_obj SET (Some (KStr "x")) (Some 1)] (Return VUndefined))
      (w_state [set_active false (w_eff 0)])
    = Some (r, s')
    ∧ effects s' !! 0%nat = Some eff' ∧ fn eff' = 0%nat ∧ active eff' = false.
Proof.
  eexists _, _.
  match goal with
  | |- ∃ eff', exec _ _ ?c ?s = Some (?r, ?s') ∧ _ =>
      destruct (engine_keeps_effects_static w_reader 20 c s r s' 0%nat
                  (set_active false (w_eff 0)))
        as (eff' & H1 & H2 & _ & _ & _ & H3)
  end.
  - reflexivity.
  - vm_compute. reflexivity.
  - exists eff'. split; [vm_compute; reflexivity|].
    split; [exact H1|]. split; [exact H2|]. apply H3. reflexivity.
Defined.

(** X6: from the start on, no list of Deps of an effect names a Dep twice
    and no Dep holds an effect twice, whatever is called. *)
Theorem engine_keeps_lists_duplicate_free (prog : FnId → Script) (fuel : nat)
    (c : Cmd) (r : Outcome) (s : State) :
  exec prog fuel c initial_state = Some (r, s) →
  (∀ e, NoDup (deps_of e s)) ∧ (∀ d, NoDup (members_of d s)).
Proof.
  intros H.
  pose proof (exec_heap_ok _ _ _ _ _ _ _ heap_ok_initial H) as [_ _ [_ H1 H2] _].
  by split.
Qed.

Lemma engine_keeps_lists_duplicate_free_witness :
  ∃ r s,
    exec w_reader 30
      (COps [OEffect (PlainFn 0) None; ORun 0;
             OTrigger w_obj SET (Some (KStr "x")) (Some 1)] (Return VUndefined))
      initial_state = Some (r, s)
    ∧ deps_of 0 s = [0%nat]
    ∧ (∀ e, NoDup (deps_of e s)) ∧ (∀ d, NoDup (members_of d s)).
Proof.
  eexists _, _. split; [vm_compute; reflexivity|]. split; [vm_compute; reflexivity|].
  apply (engine_keeps_lists_duplicate_free w_reader 30
           (COps [OEffect (PlainFn 0) None; ORun 0;
                  OTrigger w_obj SET (Some (KStr "x")) (Some 1)] (Return VUndefined))
           (Returned VUndefined)).
  vm_compute. reflexivity.
Defined.

(** ** The registry *)

Lemma dep_of_ext t k s s' : targetMap s' = targetMap s → dep_of t k s' = dep_of t k s.
Proof. unfold dep_of. by intros ->. Qed.

Lemma run_exit_length e s : length (depHeap (run_exit e s)) = length (depHeap s).
Proof.
  destruct (run_exit_heaps e s) as [_ ->]. case_match; [|done].
  unfold finalizeDepMarkers.
  pose proof (finalize_loop_length e (trackOpBit s) (deps_of e s) (depHeap s)) as Hl.
  destruct (finalize_loop _ _ _ _) as [h kept]. done.
Qed.

Lemma exec_dep_of prog fuel c s r s' t k d :
  dep_of t k s = Some d → exec prog fuel c s = Some (r, s') → dep_of t k s' = Some d.
Proof.
  intros Hd H.
  pose (P := λ (_ : unit) (x : State), dep_of t k x = Some d).
  apply (exec_preserves prog (λ i _, i) P (λ _, True)
           ltac:(done) ltac:(done)) with (i := tt) in H; try done; unfold P.
  - intros i x t0 k0 _ H2. by apply track_dep_of_stable.
  - intros i x e x0 _ H2 _ _ _. by rewrite (dep_of_ext _ _ _ _ (run_enter_targetMap e x)).
  - intros i x e H2. by rewrite (dep_of_ext _ _ _ _ (run_exit_targetMap e x)).
Qed.

Lemma exec_tm_ok prog fuel c s r s' :
  tm_ok s → exec prog fuel c s = Some (r, s') → tm_ok s'.
Proof.
  intros Hd H.
  pose (P := λ (_ : unit) (x : State), tm_ok x).
  apply (exec_preserves prog (λ i _, i) P (λ _, True)
           ltac:(done) ltac:(done)) with (i := tt) in H; try done; unfold P.
  - intros i x t0 k0 _ H2. by apply tm_ok_track.
  - intros i x e x0 _ H2 _ _ _.
    apply (tm_ok_ext x); [apply run_enter_targetMap|by rewrite run_enter_length|done].
  - intros i x e H2.
    apply (tm_ok_ext x); [apply run_exit_targetMap|by rewrite run_exit_length|done].
  - intros i x e eff _ H2 _ _.
    apply (tm_ok_ext x); [done| |done].
    by destruct (cleanupEffect_length e x) as [_ ->].
Qed.

(** X7: the registry only grows.  Once a key of a target has its Dep, no
    call, whatever it is and however it ends, takes the entry away or puts
    another Dep in its place. *)
Theorem registry_is_stable (prog : FnId → Script) (fuel : nat) (c : Cmd)
    (s : State) (r : Outcome) (s' : State) (t : Target) (k : Key) (d : DepId) :
  dep_of t k s = Some d →
  exec prog fuel c s = Some (r, s') →
  dep_of t k s' = Some d.
Proof. apply exec_dep_of. Qed.

Lemma registry_is_stable_witness :
  ∃ r s',
    exec w_map_prog 20
      (COps [OStop 0; OTrigger w_map CLEAR None None; OEffect (PlainFn 0) None]
         (Return VUndefined)) w_map_state = Some (r, s')
    ∧ dep_of w_map ITERATE_KEY s' = Some 1%nat.
Proof.
  eexists _, _. split; [vm_compute; reflexivity|].
  apply (registry_is_stable w_map_prog 20
           (COps [OStop 0; OTrigger w_map CLEAR None None; OEffect (PlainFn 0) None]
              (Return VUndefined)) w_map_state (Returned VUndefined)).
  - reflexivity.
  - vm_compute. reflexivity.
Defined.

(** X8: from the start on, every Dep that the registry names for a key is a
    Dep of the heap: [trigger] never meets a dangling entry. *)
Theorem registry_deps_exist (prog : FnId → Script) (fuel : nat) (c : Cmd)
    (r : Outcome) (s : State) (t : Target) (k : Key) (d : DepId) :
  exec prog fuel c initial_state = Some (r, s) →
  dep_of t k s = Some d →
  is_Some (depHeap s !! d).
Proof.
  intros H Hd. apply lookup_lt_is_Some.
  by apply (exec_tm_ok _ _ _ _ _ _ (tm_ok_empty []) H t k).
Qed.

Lemma registry_deps_exist_witness :
  ∃ r s,
    exec w_map_prog 20 (COp (OEffect (PlainFn 0) None)) initial_state = Some (r, s)
    ∧ dep_of w_map ITERATE_KEY s = Some 1%nat
    ∧ is_Some (depHeap s !! 1%nat).
Proof.
  eexists _, _. split; [vm_compute; reflexivity|]. split; [vm_compute; reflexivity|].
  apply (registry_deps_exist w_map_prog 20 (COp (OEffect (PlainFn 0) None))
           (Returned (VRunner 0)) _ w_map ITERATE_KEY).
  - vm_compute. reflexivity.
  - vm_compute. reflexivity.
Defined.

(** ** cleanupEffect *)

Lemma set_deps_same eff : set_deps (deps eff) eff = eff.
Proof. by destruct eff. Qed.

Lemma cleanupEffect_nothing e s : deps_of e s = [] → cleanupEffect e s = s.
Proof.
  intros Hd. unfold cleanupEffect. rewrite Hd. simpl.
  assert (alter (set_deps []) e (effects s) = effects s) as ->.
  { apply list_eq. intros i. destruct (decide (i = e)) as [->|Hne].
    - rewrite list_lookup_alter_eq. unfold deps_of in Hd.
      destruct (effects s !! e) as [eff|] eqn:He; [|done]. simpl.
      by rewrite <- Hd, set_deps_same.
    - by rewrite list_lookup_alter_ne. }
  by destruct s.
Qed.

(** X9: [cleanupEffect] takes the effect out of the graph and touches
    nobody else.  Where the two directions of the graph agree, the effect is
    a member of no Dep afterwards and its list is empty, while every other
    effect is in the Deps it was in, with the list it had; and for an effect
    whose list is empty already the state stays as it is. *)
Theorem cleanupEffect_removes_everywhere (e : EffId) (s : State) :
  graph_ok s →
  (∀ d, e ∉ members_of d (cleanupEffect e s))
  ∧ deps_of e (cleanupEffect e s) = []
  ∧ (∀ d x, x ≠ e → x ∈ members_of d (cleanupEffect e s) ↔ x ∈ members_of d s)
  ∧ (∀ x, x ≠ e → deps_of x (cleanupEffect e s) = deps_of x s)
  ∧ (deps_of e s = [] → cleanupEffect e s = s).
Proof.
  intros Hg. split_and!.
  - intros d. rewrite cleanupEffect_members. case_decide as Hin.
    + rewrite elem_of_set_delete. by intros [? _].
    + intros Hm. by apply (ok_sym _ Hg) in Hm.
  - rewrite cleanupEffect_deps. by rewrite decide_True.
  - intros d x Hne. rewrite cleanupEffect_members. case_decide; [|done].
    rewrite elem_of_set_delete. intuition.
  - intros x Hne. rewrite cleanupEffect_deps. by rewrite decide_False.
  - apply cleanupEffect_nothing.
Qed.

Lemma graph_ok_w_map_state : graph_ok w_map_state.
Proof.
  apply (ok_graph []).
  apply (exec_heap_ok w_map_prog 20 (COp (OEffect (PlainFn 0) None)) []
           initial_state (Returned (VRunner 0))); [apply heap_ok_initial|].
  vm_compute. reflexivity.
Qed.

Lemma cleanupEffect_removes_everywhere_witness :
  members_of 0 w_map_state = [0%nat] ∧ members_of 1 w_map_state = [0%nat]
  ∧ (∀ d, 0%nat ∉ members_of d (cleanupEffect 0 w_map_state))
  ∧ deps_of 0 (cleanupEffect 0 w_map_state) = [].
Proof.
  split; [reflexivity|]. split; [reflexivity|].
  destruct (cleanupEffect_removes_everywhere 0 w_map_state graph_ok_w_map_state)
    as (H1 & H2 & _).
  split; [exact H1|exact H2].
Defined.

(** ** run and triggerEffects around a running effect *)

(** X10: a live effect that is running is not entered again.  [run] of an
    effect that has not been stopped and is on the effect stack returns
    [undefined] at once, without calling the function and without touching
    the context; so when a write made by the active effect notifies that
    very effect, live and without scheduler, [triggerEffects] either passes
    over it or, if it allows recursion, calls a [run] that returns at once.
    Either way the effects, the Deps, the registry and the context stay as
    they are.  (A stopped effect is another matter: its [run] is a plain call
    of the function, on the stack or not.) *)
Theorem running_effect_is_not_reentered (prog : FnId → Script) (fuel : nat)
    (e : EffId) (eff : ReactiveEffect) (s : State) :
  effects s !! e = Some eff → active eff = true → e ∈ effectStack s →
  exec prog (S fuel) (COp (ORun e)) s = Some (Returned VUndefined, emit (EvRun e) s)
  ∧ (activeEffect s = Some e → scheduler eff = None →
     exec prog (S (S (S fuel))) (CTriggerEffects [e]) s
     = Some (Returned VUndefined,
             if allowRecurse eff then emit (EvRun e) (emit (EvTrigger e) s) else s)).
Proof.
  intros He Ha Hin. split; [by apply (exec_run_on_stack _ _ _ _ eff)|].
  intros Hact Hs. rewrite (exec_te_cons _ _ _ _ _ _ He), Hs.
  rewrite bool_decide_false by (by intros []). simpl.
  destruct (allowRecurse eff).
  - rewrite (exec_run_on_stack _ _ _ _ eff); [|done|done|done].
    apply exec_te_nil.
  - apply exec_te_nil.
Qed.

Lemma running_effect_is_not_reentered_witness :
  exec w_reader 3 (CTriggerEffects [0%nat])
    (run_enter 0 (w_state [mkEffect true [] true None 0 None]))
  = Some (Returned VUndefined,
          emit (EvRun 0) (emit (EvTrigger 0)
            (run_enter 0 (w_state [mkEffect true [] true None 0 None])))).
Proof.
  destruct (running_effect_is_not_reentered w_reader 0 0
              (mkEffect true [] true None 0 None)
              (run_enter 0 (w_state [mkEffect true [] true None 0 None]))) as [_ H].
  - reflexivity.
  - reflexivity.
  - vm_compute. apply list_elem_of_here.
  - apply H; reflexivity.
Defined.

(** ** trigger *)

Lemma snapshot_of_nones ds s :
  Forall (λ d : option DepId, d = None) ds →
  snapshot_of ds s = None ∨ snapshot_of ds s = Some [].
Proof.
  intros Hall.
  assert (concat (map (λ d, match d with Some d => members_of d s | None => [] end) ds)
          = []) as Hc.
  { induction Hall as [|d ds -> _ IH]; [done|]. simpl. exact IH. }
  destruct ds as [|d1 [|d2 ds]].
  - by right.
  - apply Forall_cons_1 in Hall as [-> _]. by left.
  - right. unfold snapshot_of. by rewrite Hc.
Qed.

(** X11: a write that nobody has read notifies nobody.  When the target was
    never tracked, or when none of the keys the write concerns has a Dep,
    [trigger] returns [undefined] and the state is as before. *)
Theorem trigger_untracked_is_noop (prog : FnId → Script) (fuel : nat)
    (target : Target) (type : TriggerOpTypes) (key : option Key)
    (newValue : option Z) (s : State) :
  (∀ m, alist_get target (targetMap s) = Some m →
        ∃ ds, collect_deps m target type key newValue = Some (inr ds)
              ∧ Forall (λ d, d = None) ds) →
  exec prog (S (S fuel)) (COp (OTrigger target type key newValue)) s
  = Some (Returned VUndefined, s).
Proof.
  intros H. rewrite exec_S. simpl. unfold trigger.
  destruct (alist_get target (targetMap s)) as [m|]; [|done].
  destruct (H m eq_refl) as (ds & -> & Hall).
  unfold notify_deps. destruct (snapshot_of_nones ds s Hall) as [->| ->]; [done|].
  apply exec_te_nil.
Qed.

Lemma trigger_untracked_is_noop_witness :
  exec w_map_prog 2 (COp (OTrigger w_obj SET (Some (KStr "x")) (Some 1))) w_map_state
  = Some (Returned VUndefined, w_map_state)
  ∧ exec w_arr_prog 2 (COp (OTrigger w_arr SET (Some (KStr "5")) None)) w_arr_state
    = Some (Returned VUndefined, w_arr_state).
Proof.
  split.
  - apply (trigger_untracked_is_noop w_map_prog 0). intros m Hm. discriminate Hm.
  - apply (trigger_untracked_is_noop w_arr_prog 0). intros m Hm.
    vm_compute in Hm. injection Hm as <-.
    exists [None]. split; [reflexivity|]. by repeat constructor.
Defined.

(** X12: clearing a collection notifies every effect that has read any key
    of it, each of them once.  For a tracked target, [trigger] of type CLEAR
    hands to [triggerEffects] a list without repetition that holds exactly
    the members of the Deps of the target's keys. *)
Theorem trigger_clear_notifies_all (rec : Cmd → State → Res) (t : Target)
    (key : option Key) (newValue : option Z) (m : KeyToDepMap) (s : State) :
  graph_ok s →
  alist_get t (targetMap s) = Some m →
  ∃ l, trigger rec t CLEAR key newValue s = rec (CTriggerEffects l) s
    ∧ NoDup l
    ∧ ∀ e, e ∈ l ↔ ∃ k d, (k, d) ∈ m ∧ e ∈ members_of d s.
Proof.
  intros Hg Hm. unfold trigger, collect_deps. rewrite Hm. simpl. unfold notify_deps.
  assert (∀ d, Some d ∈ map (λ kv : Key * DepId, Some kv.2) m ↔ ∃ k, (k, d) ∈ m) as Hin.
  { intros d. rewrite list_elem_of_fmap. split.
    - intros ([k d'] & Hd & Hkd). simpl in Hd. injection Hd as ->. by exists k.
    - intros [k Hkd]. by exists (k, d). }
  assert (∀ e, (∃ d, Some d ∈ map (λ kv : Key * DepId, Some kv.2) m ∧ e ∈ members_of d s)
               ↔ ∃ k d, (k, d) ∈ m ∧ e ∈ members_of d s) as Hex.
  { intros e. split.
    - intros (d & Hd & He). apply Hin in Hd as [k Hk]. by exists k, d.
    - intros (k & d & Hk & He). exists d. split; [|done]. apply Hin. by exists k. }
  destruct m as [|[k1 d1] [|kd2 m]].
  - exists []. simpl. split; [done|]. split; [apply NoDup_nil_2|].
    intros e. split; [by intros ?%elem_of_nil|].
    by intros (k & d & ?%elem_of_nil & _).
  - exists (members_of d1 s). simpl. split; [done|].
    split; [apply (ok_members_nodup _ Hg)|].
    intros e. rewrite <- Hex. split.
    + intros He. exists d1. split; [apply list_elem_of_here|done].
    + intros (d & Hd & He). simpl in Hd. apply list_elem_of_singleton in Hd.
      by injection Hd as ->.
  - eexists. split; [reflexivity|]. split; [apply NoDup_set_of|].
    intros e. rewrite <- Hex. apply elem_of_merged.
Qed.

Lemma trigger_clear_notifies_all_witness :
  ∃ l,
    trigger (exec w_map_prog 5) w_map CLEAR None None w_map_state
    = exec w_map_prog 5 (CTriggerEffects l) w_map_state
    ∧ NoDup l ∧ 0%nat ∈ l.
Proof.
  destruct (trigger_clear_notifies_all (exec w_map_prog 5) w_map None None
              [(KStr "k", 0%nat); (ITERATE_KEY, 1%nat)] w_map_state
              graph_ok_w_map_state eq_refl) as (l & H1 & H2 & H3).
  exists l. split; [exact H1|]. split; [exact H2|].
  apply H3. exists (KStr "k"), 0%nat. split; [apply list_elem_of_here|].
  vm_compute. apply list_elem_of_here.
Defined.

(** ** triggerEffects and a subscriber that throws *)

Lemma exec_te_app prog l1 : ∀ fuel s v s1 rest R,
  exec prog fuel (CTriggerEffects l1) s = Some (Returned v, s1) →
  exec prog fuel (CTriggerEffects rest) s1 = Some R →
  exec prog (fuel + length l1) (CTriggerEffects (l1 ++ rest)) s = Some R.
Proof.
  induction l1 as [|x l1 IH]; intros fuel s v s1 rest R H1 H2.
  - destruct fuel as [|fuel]; [done|]. rewrite exec_te_nil in H1.
    injection H1 as _ <-. simpl. by rewrite Nat.add_0_r.
  - destruct fuel as [|fuel]; [done|].
    destruct (effects s !! x) as [eff|] eqn:Hx.
    2:{ rewrite exec_S in H1. simpl in H1. unfold triggerEffects in H1.
        by rewrite Hx in H1. }
    rewrite (exec_te_cons _ _ _ _ _ _ Hx) in H1.
    simpl. replace (fuel + S (length l1))%nat with (S fuel + length l1)%nat by lia.
    rewrite (exec_te_cons _ _ _ _ _ _ Hx).
    assert (∀ sx, exec prog fuel (CTriggerEffects l1) sx = Some (Returned v, s1) →
                  exec prog (S fuel + length l1) (CTriggerEffects (l1 ++ rest)) sx
                  = Some R) as Hrest.
    { intros sx Hsx. apply (IH (S fuel) sx v s1); [|done].
      by apply exec_fuel_S. }
    destruct (bool_decide (activeEffect s ≠ Some x) || allowRecurse eff);
      [|by apply Hrest].
    destruct (scheduler eff) as [f|].
    + destruct (exec prog fuel (CCall f) _) as [[[v1|err1] sx]|] eqn:E; [|done|done].
      rewrite (exec_fuel_le _ fuel (S fuel + length l1) _ _ _ ltac:(lia) E).
      by apply Hrest.
    + destruct (exec prog fuel (COp (ORun x)) _) as [[[v1|err1] sx]|] eqn:E; [|done|done].
      rewrite (exec_fuel_le _ fuel (S fuel + length l1) _ _ _ ltac:(lia) E).
      by apply Hrest.
Qed.

(** X13: a subscriber that throws ends the notification.  When the loop of
    [triggerEffects] has come through the effects [l1] and the [run] of the
    next effect throws, [triggerEffects] throws the same value in the state
    of that throw: the effects [l2] after it in the snapshot are neither run
    nor scheduled. *)
Theorem throwing_effect_ends_notification (prog : FnId → Script) (fuel : nat)
    (l1 l2 : list EffId) (e : EffId) (eff : ReactiveEffect) (s s1 s2 : State)
    (err : Err) :
  exec prog fuel (CTriggerEffects l1) s = Some (Returned VUndefined, s1) →
  effects s1 !! e = Some eff → scheduler eff = None →
  activeEffect s1 ≠ Some e ∨ allowRecurse eff = true →
  exec prog fuel (COp (ORun e)) (emit (EvTrigger e) s1) = Some (Threw err, s2) →
  exec prog (S fuel + length l1) (CTriggerEffects (l1 ++ e :: l2)) s
  = Some (Threw err, s2).
Proof.
  intros H1 He Hs Hguard Hrun.
  apply (exec_te_app prog l1 (S fuel) s VUndefined s1); [by apply exec_fuel_S|].
  rewrite (exec_te_cons _ _ _ _ _ _ He), Hs, Hrun.
  destruct Hguard as [Hne| ->].
  - by rewrite bool_decide_true.
  - by rewrite orb_true_r.
Qed.

Lemma throwing_effect_ends_notification_witness :
  ∃ s2,
    exec w_thrower 11 (CTriggerEffects [1%nat; 0%nat; 2%nat])
      (w_state [w_eff 0; w_eff 1; w_eff 2])
    = Some (Threw (UserError 7), s2)
    ∧ count_ev (EvTrigger 2) (log s2) = 0%nat.
Proof.
  eexists. split.
  - apply (throwing_effect_ends_notification w_thrower 9 [1%nat] [2%nat] 0%nat
             (w_eff 0) (w_state [w_eff 0; w_eff 1; w_eff 2])
             (match exec w_thrower 9 (CTriggerEffects [1%nat])
                      (w_state [w_eff 0; w_eff 1; w_eff 2]) with
              | Some (_, x) => x
              | None => initial_state
              end)).
    + vm_compute. reflexivity.
    + reflexivity.
    + reflexivity.
    + left. vm_compute. discriminate.
    + vm_compute. reflexivity.
  - vm_compute. reflexivity.
Defined.

(** ** track *)

Lemma land_lor_same n b : Z.land (Z.lor n b) b = b.
Proof.
  apply Z.bits_inj'. intros i Hi. rewrite Z.land_spec, Z.lor_spec.
  by destruct (Z.testbit n i), (Z.testbit b i).
Qed.

Lemma trackEffects_fix d s e dep :
  activeEffect s = Some e → depHeap s !! d = Some dep →
  (if effectTrackDepth s <=? maxMarkerBits then newTracked (trackOpBit s) dep = true
   else e ∈ Dep.members dep) →
  trackEffects d s = s.
Proof.
  intros Ha Hd H. unfold trackEffects. rewrite Ha, Hd.
  destruct (effectTrackDepth s <=? maxMarkerBits).
  - by rewrite H.
  - by rewrite decide_True.
Qed.

Lemma trackEffects_idem d s :
  (effectTrackDepth s ≤ maxMarkerBits → 0 < trackOpBit s) →
  trackEffects d (trackEffects d s) = trackEffects d s.
Proof.
  intros Hbit.
  pose proof (trackEffects_ctx d s) as Hctx. unfold ctx_of in Hctx.
  injection Hctx as Hst Hdp Hb Hact.
  destruct (activeEffect s) as [e|] eqn:Ha.
  2:{ unfold trackEffects at 2. rewrite Ha. unfold trackEffects. by rewrite Ha. }
  destruct (depHeap s !! d) as [dep|] eqn:Hd.
  2:{ unfold trackEffects at 2. rewrite Ha, Hd. unfold trackEffects. by rewrite Ha, Hd. }
  assert (∃ dep1, depHeap (trackEffects d s) !! d = Some dep1
            ∧ if effectTrackDepth s <=? maxMarkerBits
              then newTracked (trackOpBit s) dep1 = true
              else e ∈ Dep.members dep1) as (dep1 & Hd1 & Hfix).
  { unfold trackEffects. rewrite Ha, Hd.
    destruct (effectTrackDepth s <=? maxMarkerBits) eqn:Hle.
    - apply Z.leb_le in Hle. specialize (Hbit Hle).
      assert (newTracked (trackOpBit s) (mark_n (trackOpBit s) dep) = true) as Hn.
      { unfold newTracked, mark_n. simpl. rewrite land_lor_same. by apply Z.ltb_lt. }
      destruct (newTracked (trackOpBit s) dep) eqn:Hnew; simpl; [by exists dep|].
      destruct (negb (wasTracked (trackOpBit s) dep)).
      + eexists. split.
        * unfold add_edge. simpl. by rewrite !list_lookup_alter_eq, Hd.
        * exact Hn.
      + eexists. split; [simpl; by rewrite list_lookup_alter_eq, Hd|exact Hn].
    - case_decide as Hin; [by exists dep|].
      eexists. split; [unfold add_edge; simpl; by rewrite list_lookup_alter_eq, Hd|].
      simpl. apply elem_of_set_add. by left. }
  apply (trackEffects_fix d _ e dep1); [congruence|done|].
  by rewrite Hdp, Hb.
Qed.

(** X14: reading a key twice is reading it once.  In a state whose context
    is that of the runs in progress, a second [track] of the same key of the
    same target changes nothing: no second edge, no second entry of the
    effect's list, within the marker bits as beyond them. *)
Theorem track_twice_is_track_once (t : Target) (k : Key) (st : list EffId) (s : State) :
  ctx_ok st s →
  track t k (track t k s) = track t k s.
Proof.
  intros (Hst & Hdp & Hb & Hact).
  destruct (isTracking s) eqn:Htr.
  2:{ assert (track t k s = s) as -> by (unfold track; by rewrite Htr).
      unfold track. by rewrite Htr. }
  assert (effectTrackDepth s ≤ maxMarkerBits → 0 < trackOpBit s) as Hbit.
  { intros Hle. unfold isTracking in Htr. apply andb_true_iff in Htr as [_ Hsome].
    apply bool_decide_eq_true in Hsome.
    assert (0 < effectTrackDepth s).
    { rewrite Hdp. destruct st; [by rewrite Hact in Hsome|simpl; lia]. }
    rewrite Hb, shl1_small by (unfold maxMarkerBits in Hle; lia).
    apply Z.pow_pos_nonneg; lia. }
  assert (isTracking (track t k s) = true) as Htr'.
  { unfold isTracking in *.
    pose proof (track_tracking t k s) as H1. pose proof (track_ctx t k s) as H2.
    pose proof (f_equal fst H1) as H3. pose proof (f_equal snd H2) as H4.
    simpl in H3, H4. by rewrite H3, H4. }
  destruct (alist_get t (targetMap s)) as [m|] eqn:Hm.
  - destruct (alist_get k m) as [d|] eqn:Hk.
    + rewrite (track_existing t k s m d) by done.
      rewrite (track_existing t k _ m d); [by apply trackEffects_idem| | |done].
      * by rewrite <- (track_existing t k s m d).
      * by rewrite trackEffects_targetMap.
    + rewrite (track_new_key t k s m) in * by done.
      set (d := length (depHeap s)) in *.
      set (s0 := with_targetMap _ _) in *.
      rewrite (track_existing t k _ (alist_set k d m) d);
        [by apply trackEffects_idem|done| |apply alist_get_set_eq].
      rewrite trackEffects_targetMap. apply alist_get_set_eq.
  - rewrite (track_new_target t k s) in * by done.
    set (d := length (depHeap s)) in *.
    set (s0 := with_targetMap _ _) in *.
    rewrite (track_existing t k _ [(k, d)] d);
      [by apply trackEffects_idem|done| |].
    + rewrite trackEffects_targetMap. simpl.
      destruct (alist_set t [] (targetMap s)) eqn:E; apply alist_get_set_eq.
    + simpl. by rewrite decide_True.
Qed.

Lemma track_twice_is_track_once_witness :
  track w_obj (KStr "x")
    (track w_obj (KStr "x") (run_enter 0 (w_state [w_eff 0])))
  = track w_obj (KStr "x") (run_enter 0 (w_state [w_eff 0]))
  ∧ deps_of 0 (track w_obj (KStr "x") (run_enter 0 (w_state [w_eff 0]))) = [0%nat].
Proof.
  split; [|reflexivity].
  apply (track_twice_is_track_once w_obj (KStr "x") [0%nat]).
  by repeat split.
Defined.

Lemma trackEffects_members_other d s d' :
  d' ≠ d → members_of d' (trackEffects d s) = members_of d' s.
Proof.
  intros Hne. unfold trackEffects.
  destruct (activeEffect s) as [e|]; [|done].
  destruct (depHeap s !! d) as [dep|]; [|done].
  assert (∀ (g : Dep.t → Dep.t) (x : State),
            members_of d' (with_depHeap (alter g d (depHeap x)) x) = members_of d' x)
    as Halt.
  { intros g x. unfold members_of. simpl. by rewrite list_lookup_alter_ne. }
  assert (∀ x, members_of d' (add_edge d e x) = members_of d' x) as Hadd.
  { intros x. unfold add_edge, members_of. simpl. by rewrite list_lookup_alter_ne. }
  destruct (_ <=? _).
  - destruct (negb (newTracked _ _)); [|done].
    destruct (negb (wasTracked _ _)); [rewrite Hadd|]; apply Halt.
  - case_decide; [done|apply Hadd].
Qed.

Lemma add_edge_deps_other d e s e' :
  e' ≠ e → deps_of e' (add_edge d e s) = deps_of e' s.
Proof.
  intros Hne. unfold add_edge, deps_of. simpl. by rewrite list_lookup_alter_ne.
Qed.

Lemma trackEffects_deps_other d s e' :
  activeEffect s ≠ Some e' → deps_of e' (trackEffects d s) = deps_of e' s.
Proof.
  intros Hne. unfold trackEffects.
  destruct (activeEffect s) as [e|]; [|done].
  destruct (depHeap s !! d) as [dep|]; [|done].
  assert (e' ≠ e) as Hne' by congruence.
  destruct (_ <=? _).
  - destruct (negb (newTracked _ _)); [|done].
    destruct (negb (wasTracked _ _)); [|done].
    by rewrite add_edge_deps_other.
  - case_decide; [done|]. by rewrite add_edge_deps_other.
Qed.

Lemma track_frame (t : Target) (k : Key) (s : State) :
  (∀ d x, x ∈ members_of d s → x ∈ members_of d (track t k s))
  ∧ (∀ d x, x ∈ members_of d (track t k s) →
       x ∈ members_of d s
       ∨ (activeEffect s = Some x ∧ shouldTrack s = true
          ∧ dep_of t k (track t k s) = Some d))
  ∧ (∀ e, activeEffect s ≠ Some e → deps_of e (track t k s) = deps_of e s).
Proof.
  split_and!.
  - intros d x. apply track_members_mono.
  - intros d x Hx.
    destruct (isTracking s) eqn:Htr.
    2:{ left. unfold track in Hx. by rewrite Htr in Hx. }
    destruct (decide (dep_of t k (track t k s) = Some d)) as [Hd|Hd].
    + destruct (track_members_sub _ _ _ _ _ Hx) as [?|Hact]; [by left|].
      right. unfold isTracking in Htr. apply andb_true_iff in Htr as [? _]. done.
    + left. rewrite track_dep_of in Hd by done.
      rewrite decide_True in Hd by done.
      destruct (alist_get t (targetMap s)) as [m|] eqn:Hm.
      * destruct (alist_get k m) as [d0|] eqn:Hk.
        -- rewrite (track_existing t k s m d0) in Hx by done.
           rewrite trackEffects_members_other in Hx; [done|].
           intros ->. apply Hd. unfold dep_of. by rewrite Hm, Hk.
        -- rewrite (track_new_key t k s m) in Hx by done.
           rewrite trackEffects_members_other in Hx.
           ++ change (x ∈ members_of d (with_depHeap (depHeap s ++ [createDep []]) s))
                in Hx.
              by rewrite members_of_alloc in Hx.
           ++ intros ->. apply Hd. unfold dep_of. by rewrite Hm, Hk.
      * rewrite (track_new_target t k s) in Hx by done.
        rewrite trackEffects_members_other in Hx.
        -- change (x ∈ members_of d (with_depHeap (depHeap s ++ [createDep []]) s))
             in Hx.
           by rewrite members_of_alloc in Hx.
        -- intros ->. apply Hd. unfold dep_of. by rewrite Hm.
  - intros e Hne.
    destruct (isTracking s) eqn:Htr.
    2:{ unfold track. by rewrite Htr. }
    destruct (alist_get t (targetMap s)) as [m|] eqn:Hm.
    + destruct (alist_get k m) as [d0|] eqn:Hk.
      * rewrite (track_existing t k s m d0) by done. by rewrite trackEffects_deps_other.
      * rewrite (track_new_key t k s m) by done. by rewrite trackEffects_deps_other.
    + rewrite (track_new_target t k s) by done. by rewrite trackEffects_deps_other.
Qed.

(** X15: [track] touches one edge.  It removes nobody from any Dep; the only
    membership it can add is that of the active effect in the Dep of the key
    read, and only while tracking is on; and the lists of all other effects
    stay as they are. *)
Theorem track_touches_one_edge (t : Target) (k : Key) (s : State) :
  (∀ d x, x ∈ members_of d s → x ∈ members_of d (track t k s))
  ∧ (∀ d x, x ∈ members_of d (track t k s) →
       x ∈ members_of d s
       ∨ (activeEffect s = Some x ∧ shouldTrack s = true
          ∧ dep_of t k (track t k s) = Some d))
  ∧ (∀ e, activeEffect s ≠ Some e → deps_of e (track t k s) = deps_of e s).
Proof. apply track_frame. Qed.

(** ** trigger on the length of an array, over its indices *)

Lemma digit_of_facts a d :
  digit_of a = Some d →
  0 ≤ d ≤ 9 ∧ radix_digit_of 10 a = Some d ∧ (127 <? code a) = false
  ∧ isStrWhiteSpaceChar a = false
  ∧ Ascii.eqb a "+" = false ∧ Ascii.eqb a "-" = false
  ∧ Ascii.eqb a "x" = false ∧ Ascii.eqb a "X" = false
  ∧ Ascii.eqb a "o" = false ∧ Ascii.eqb a "O" = false
  ∧ Ascii.eqb a "b" = false ∧ Ascii.eqb a "B" = false
  ∧ Ascii.eqb a "I" = false.
Proof.
  destruct a as [[] [] [] [] [] [] [] []]; vm_compute; intros H;
    try discriminate H; injection H as <-; repeat split; discriminate.
Qed.


Lemma digits_value_all s : ∀ acc x,
  digits_value s acc = Some x → all_digits (list_ascii_of_string s).
Proof.
  induction s as [|a s IH]; intros acc x H; [apply Forall_nil_2|].
  simpl in *. destruct (digit_of a) as [d|] eqn:Hd; [|done].
  apply Forall_cons_2; [by rewrite Hd|]. by eapply IH.
Qed.

Lemma digits_value_radix s : ∀ acc x,
  digits_value s acc = Some x →
  radix_value 10 (list_ascii_of_string s) acc = Some x.
Proof.
  induction s as [|a s IH]; intros acc x H; [done|].
  simpl in *. destruct (digit_of a) as [d|] eqn:Hd; [|done].
  destruct (digit_of_facts a d Hd) as (_ & -> & _). by apply IH.
Qed.

Lemma digits_value_nonneg s : ∀ acc x,
  0 ≤ acc → digits_value s acc = Some x → 0 ≤ x.
Proof.
  induction s as [|a s IH]; intros acc x Hacc H; simpl in H; [by simplify_eq|].
  destruct (digit_of a) as [d|] eqn:Hd; [|done].
  destruct (digit_of_facts a d Hd) as (Hr & _). apply (IH (10 * acc + d) x); [lia|done].
Qed.

Lemma trim_left_digits l : all_digits l → trim_left l = l.
Proof.
  intros Hl. destruct Hl as [|a l [d Hd] _]; [done|].
  simpl. by destruct (digit_of_facts a d Hd) as (_ & _ & _ & -> & _).
Qed.

Lemma trim_digits l : all_digits l → trim l = l.
Proof.
  intros Hl. unfold trim. rewrite (trim_left_digits l Hl).
  rewrite trim_left_digits; [apply reverse_involutive|].
  by apply Forall_reverse.
Qed.

Lemma span_digits_all l : all_digits l → span_digits l = (l, []).
Proof.
  induction 1 as [|a l [d Hd] _ IH]; [done|]. simpl. by rewrite Hd, IH.
Qed.

Lemma StringToNumber_digits s x :
  digits_value s 0 = Some x → StringToNumber s = Some (NDec false x 0).
Proof.
  intros Hx. pose proof (digits_value_all _ _ _ Hx) as Hall.
  pose proof (digits_value_radix _ _ _ Hx) as Hr.
  unfold StringToNumber. set (l := list_ascii_of_string s) in *.
  assert (existsb (λ a, 127 <? code a) l = false) as ->.
  { clear Hr. induction Hall as [|a l [d Hd] _ IH]; [done|]. simpl.
    by destruct (digit_of_facts a d Hd) as (_ & _ & -> & _). }
  rewrite (trim_digits l Hall).
  destruct Hall as [|a l [d Hd] Hall]; [by simplify_eq/=|].
  destruct (digit_of_facts a d Hd) as (_ & _ & _ & _ & Hp & Hm & _ & _ & _ & _ & _ & _ & HI).
  assert (non_decimal (a :: l) = None) as ->.
  { destruct Hall as [|c l [d' Hd'] Hall]; [done|].
    destruct l as [|e l]; [done|]. simpl.
    destruct (digit_of_facts c d' Hd') as (_ & _ & _ & _ & _ & _ & -> & -> & -> & -> & -> & -> & _).
    simpl. by destruct (Ascii.eqb a "0"). }
  unfold str_decimal. rewrite Hp, Hm.
  assert (String.eqb (string_of_list_ascii (a :: l)) "Infinity" = false) as ->.
  { simpl. by rewrite HI. }
  unfold unsigned_decimal.
  rewrite (span_digits_all (a :: l)) by (apply Forall_cons_2; [by rewrite Hd|done]).
  by rewrite Hr.
Qed.

Lemma key_ge_digits s x v :
  digits_value s 0 = Some x → x < 2 ^ 32 →
  key_ge (KStr s) (Some v) = Some (inr (v <=? x)).
Proof.
  intros Hx Hlt. assert (0 ≤ x) as H0 by (by apply (digits_value_nonneg s 0 x)).
  unfold key_ge. rewrite (StringToNumber_digits s x Hx). simpl.
  destruct (x =? 0) eqn:E0; [apply Z.eqb_eq in E0 as ->; done|].
  apply Z.eqb_neq in E0.
  assert (0 ≤ Z.log2 x) by apply Z.log2_nonneg.
  replace (Z.log2 x + 1 + 0 <=? -400) with false by (symmetry; apply Z.leb_gt; lia).
  change (10 ^ Z.max 0 0) with 1. change (10 ^ Z.max (- 0) 0) with 1.
  rewrite Z.mul_1_r, Z.mod_1_r, Z.div_1_r. simpl.
  replace (Z.abs x <=? 2 ^ 53) with true; [done|].
  symmetry. apply Z.leb_le. lia.
Qed.

(** [key >= newValue] at keys that are numbers without being decimal
    numerals: an exponent, a fraction, a radix prefix, white space, the
    infinities; at the empty string, which is 0, and at a word, which is NaN;
    at an integer beyond 2^53, which is decided where the rounding cannot
    matter and left open where it can; against [undefined]; at a symbol. *)
Lemma key_ge_literals :
  key_ge (KStr "1e3") (Some 5) = Some (inr true)
  ∧ key_ge (KStr "7.5") (Some 5) = Some (inr true)
  ∧ key_ge (KStr "0x10") (Some 5) = Some (inr true)
  ∧ key_ge (KStr " 7") (Some 5) = Some (inr true)
  ∧ key_ge (KStr "Infinity") (Some 5) = Some (inr true)
  ∧ key_ge (KStr "-Infinity") (Some 5) = Some (inr false)
  ∧ key_ge (KStr "") (Some 0) = Some (inr true)
  ∧ key_ge (KStr "x") (Some 0) = Some (inr false)
  ∧ key_ge (KStr "4.5") (Some 5) = Some (inr false)
  ∧ key_ge (KStr "9007199254740993") (Some 9007199254740991) = Some (inr true)
  ∧ key_ge (KStr "9007199254740993") (Some 9007199254740992) = None
  ∧ key_ge (KStr "3") None = Some (inr false)
  ∧ key_ge (KSym 7) (Some 0) = Some (inl TypeError).
Proof. by vm_compute. Qed.

Lemma length_deps_indices m nv :
  Forall (λ kd : Key * DepId, length_or_index kd.1) m →
  length_deps m nv
  = Some (inr (map (λ kd, Some kd.2) (filter (λ kd, reaches nv kd.1 = true) m))).
Proof.
  induction 1 as [|[k d] m Hk _ IH]; [done|].
  simpl. rewrite IH, filter_cons. simpl.
  destruct (decide (k = LENGTH_KEY)) as [Hlen|Hlen].
  - rewrite decide_True; [done|]. unfold reaches. by rewrite bool_decide_true.
  - simpl in Hk. destruct Hk as [?|(str & x & -> & Hx & Hlt)]; [done|].
    assert (reaches nv (KStr str)
            = match nv with Some v => v <=? x | None => false end) as Hr.
    { unfold reaches. rewrite bool_decide_false by done. simpl. rewrite Hx.
      by destruct nv. }
    rewrite Hr. destruct nv as [v|].
    + rewrite (key_ge_digits str x v Hx Hlt).
      destruct (v <=? x); [by rewrite decide_True|by rewrite decide_False].
    + change (key_ge (KStr str) None) with (Some (inr false) : option (Err + bool)).
      by rewrite decide_False.
Qed.

(** X16: setting the length of an array whose tracked keys are "length" and
    indices.  [trigger] collects, in the order of the registry, the Dep of
    "length" and the Deps of the indices that are not below the new length,
    and no other; nothing is thrown.  Without a new value only the Dep of
    "length" is collected. *)
Theorem length_trigger_collects_indices (m : KeyToDepMap) (target : Target)
    (type : TriggerOpTypes) (newValue : option Z) :
  Forall (λ kd : Key * DepId, length_or_index kd.1) m →
  isArray target = true → type ≠ CLEAR →
  collect_deps m target type (Some LENGTH_KEY) newValue
  = Some (inr (map (λ kd, Some kd.2)
                 (filter (λ kd, reaches newValue kd.1 = true) m)))
  ∧ (∀ k d, (k, d) ∈ m → k ≠ LENGTH_KEY → reaches None k = false).
Proof.
  intros Hm Ha Hty. split.
  - unfold collect_deps. rewrite decide_False by done.
    rewrite bool_decide_true by done. rewrite Ha. simpl.
    by apply length_deps_indices.
  - intros k d _ Hne. unfold reaches. rewrite bool_decide_false by done.
    by destruct k.
Qed.

Lemma length_trigger_collects_indices_witness :
  collect_deps
    [(KStr "0", 0%nat); (LENGTH_KEY, 1%nat); (KStr "1", 2%nat); (KStr "2", 3%nat)]
    w_arr SET (Some LENGTH_KEY) (Some 1)
  = Some (inr [Some 1%nat; Some 2%nat; Some 3%nat]).
Proof.
  destruct (length_trigger_collects_indices
              [(KStr "0", 0%nat); (LENGTH_KEY, 1%nat); (KStr "1", 2%nat);
               (KStr "2", 3%nat)] w_arr SET (Some 1)) as [H _].
  - apply Forall_cons_2; [right; exists "0"%string, 0; by repeat split|].
    apply Forall_cons_2; [by left|].
    apply Forall_cons_2; [right; exists "1"%string, 1; by repeat split|].
    apply Forall_cons_2; [right; exists "2"%string, 2; by repeat split|].
    apply Forall_nil_2.
  - reflexivity.
  - discriminate.
  - exact H.
Defined.

(** ** A run and the edges it leaves *)

Lemma tracks_dep_of_stable rs : ∀ s t k d,
  dep_of t k s = Some d → dep_of t k (tracks rs s) = Some d.
Proof.
  induction rs as [|[t0 k0] rs IH]; intros s t k d Hd; [done|].
  simpl. apply IH. by apply track_dep_of_stable.
Qed.

Lemma tracks_members_sub e rs : ∀ s d x,
  hi_mode e s →
  x ∈ members_of d (tracks rs s) →
  x ∈ members_of d s
  ∨ (x = e ∧ ∃ t k, (t, k) ∈ rs ∧ dep_of t k (tracks rs s) = Some d).
Proof.
  induction rs as [|[t0 k0] rs IH]; intros s d x Hm Hx; [by left|].
  simpl in Hx. destruct (IH _ _ _ (hi_mode_track e t0 k0 s Hm) Hx) as [Hx'|(-> & t & k & Hin & Hd)].
  - destruct (proj1 (proj2 (track_frame t0 k0 s)) d x Hx') as [?|(Ha & _ & Hd)]; [by left|].
    right. destruct Hm as (_ & Hact & _). split; [congruence|].
    exists t0, k0. split; [apply list_elem_of_here|].
    simpl. by apply tracks_dep_of_stable.
  - right. split; [done|]. exists t, k. split; [by apply list_elem_of_further|done].
Qed.

Lemma run_enter_hi_mode e s :
  maxMarkerBits ≤ effectTrackDepth s → hi_mode e (run_enter e s).
Proof.
  intros Hdp.
  pose proof (run_enter_ctx e s) as Hc. pose proof (run_enter_tracking e s) as Htr.
  unfold ctx_of, tracking_of, hi_mode in *. simplify_eq. split_and!; try done. lia.
Qed.

Lemma run_enter_hi_members e s d x :
  graph_ok s → maxMarkerBits ≤ effectTrackDepth s →
  x ∈ members_of d (run_enter e s) ↔ x ≠ e ∧ x ∈ members_of d s.
Proof.
  intros Hg Hdp. rewrite run_enter_eq.
  replace (effectTrackDepth s + 1 <=? maxMarkerBits) with false
    by (symmetry; apply Z.leb_gt; lia).
  set (s0 := with_depth _ _ _).
  assert (graph_ok s0) as Hg0 by (by apply graph_ok_pointwise with (s := s)).
  rewrite cleanupEffect_members.
  change (members_of d s0) with (members_of d s).
  change (deps_of e s0) with (deps_of e s).
  case_decide as Hin.
  - rewrite elem_of_set_delete. done.
  - split; [|by intros [_ ?]]. intros Hx. split; [|done].
    intros ->. by apply (ok_sym _ Hg) in Hx.
Qed.

Lemma run_exit_hi_members e s d :
  maxMarkerBits < effectTrackDepth s → members_of d (run_exit e s) = members_of d s.
Proof.
  intros Hdp. destruct (run_exit_heaps e s) as [_ Hh].
  replace (effectTrackDepth s <=? maxMarkerBits) with false in Hh
    by (symmetry; apply Z.leb_gt; lia).
  unfold members_of. by rewrite Hh.
Qed.

(** The edges a run beyond the marker bits leaves. *)
Lemma run_hi_edges e rs s :
  graph_ok s → maxMarkerBits ≤ effectTrackDepth s →
  (∀ d, e ∈ members_of d (run_exit e (tracks rs (run_enter e s))) →
        ∃ t k, (t, k) ∈ rs
               ∧ dep_of t k (run_exit e (tracks rs (run_enter e s))) = Some d)
  ∧ (∀ d x, x ≠ e →
       x ∈ members_of d (run_exit e (tracks rs (run_enter e s))) ↔ x ∈ members_of d s).
Proof.
  intros Hg Hdp.
  pose proof (run_enter_hi_mode e s Hdp) as Hm.
  assert (maxMarkerBits < effectTrackDepth (tracks rs (run_enter e s))) as Hdeep
    by (by apply (hi_mode_tracks e rs)).
  split.
  - intros d Hx. rewrite run_exit_hi_members in Hx by done.
    destruct (tracks_members_sub e rs _ d e Hm Hx) as [Hx'|(_ & t & k & Hin & Hd)].
    + apply run_enter_hi_members in Hx' as [? _]; done.
    + exists t, k. split; [done|]. unfold dep_of in *. by rewrite run_exit_targetMap.
  - intros d x Hne. rewrite run_exit_hi_members by done. split.
    + intros Hx. destruct (tracks_members_sub e rs _ d x Hm Hx) as [Hx'|[? _]]; [|done].
      by apply run_enter_hi_members in Hx' as [_ ?].
    + intros Hx.
      assert (x ∈ members_of d (run_enter e s)) as Hx0
        by (by apply run_enter_hi_members).
      clear Hx Hm Hdeep. generalize dependent (run_enter e s).
      induction rs as [|[t k] rs IH]; intros s0 Hx0; [done|].
      simpl. apply IH. by apply track_members_mono.
Qed.

(** X17: after a run an effect is subscribed to what it has read in that
    run, and to nothing else.  For a live effect that is not running and
    whose function reads the keys [rs], from clean marks: the run returns,
    and afterwards the effect is a member of exactly the Deps of the keys in
    [rs], its list names exactly those Deps, whatever it was subscribed to
    before; the memberships of all other effects are as before. *)
Theorem run_subscribes_to_what_it_reads (prog : FnId → Script) (e : EffId)
    (eff : ReactiveEffect) (rs : list (Target * Key)) (v : Value)
    (st : list EffId) (s : State) :
  heap_ok st s → tm_ok s → e ∉ st →
  effects s !! e = Some eff → active eff = true →
  prog (fn eff) = mkScript (reads rs) (Return v) →
  ((length st < 30)%nat → clean_at (Z.of_nat (length st) + 1) s) →
  ∃ s',
    exec prog (length rs + 4) (COp (ORun e)) s = Some (Returned v, s')
    ∧ (∀ d, e ∈ members_of d s' ↔ ∃ t k, (t, k) ∈ rs ∧ dep_of t k s' = Some d)
    ∧ (∀ d, d ∈ deps_of e s' ↔ ∃ t k, (t, k) ∈ rs ∧ dep_of t k s' = Some d)
    ∧ (∀ d x, x ≠ e → x ∈ members_of d s' ↔ x ∈ members_of d s).
Proof.
  intros Hok Htm Hnin He Ha Hprog Hclean.
  pose proof Hok as [(Hst & Hdp & _) _ Hg _].
  set (s0 := emit (EvRun e) s).
  set (s' := run_exit e (tracks rs (run_enter e s0))).
  assert (exec prog (length rs + 4) (COp (ORun e)) s = Some (Returned v, s')) as Hrun.
  { apply (exec_run_reads prog _ e eff rs v); try done. by rewrite Hst. }
  pose proof (exec_heap_ok _ _ _ _ _ _ _ Hok Hrun) as [_ _ Hg' _].
  assert (graph_ok s0) as Hg0 by (by apply graph_ok_pointwise with (s := s)).
  assert (effectTrackDepth s0 < maxMarkerBits →
          clean_at (effectTrackDepth s0 + 1) s0) as Hclean0.
  { intros Hlt. unfold s0 in *. simpl in *. rewrite Hdp in *. apply Hclean.
    unfold maxMarkerBits in Hlt. lia. }
  assert (is_Some (effects s0 !! e)) as He0 by (by exists eff).
  assert (0 ≤ effectTrackDepth s0) as Hd0 by (unfold s0; simpl; lia).
  assert (∀ t k, (t, k) ∈ rs → ∃ d, dep_of t k s' = Some d ∧ e ∈ members_of d s')
    as Hsub.
  { intros t k Hin.
    by apply (run_subscribes e rs s0 t k Hg0 Htm He0 Hd0 Hclean0). }
  assert ((∀ d, e ∈ members_of d s' → ∃ t k, (t, k) ∈ rs ∧ dep_of t k s' = Some d)
          ∧ (∀ d x, x ≠ e → x ∈ members_of d s' ↔ x ∈ members_of d s)) as [Honly Hoth].
  { destruct (Z.lt_ge_cases (effectTrackDepth s0) maxMarkerBits) as [Hlo|Hge].
    - set (s_hi := with_depth maxMarkerBits (shl1 maxMarkerBits) s0).
      assert (graph_ok s_hi) as Hgh by (by apply graph_ok_pointwise with (s := s)).
      destruct (run_hi_edges e rs s_hi Hgh) as [H1 H2]; [simpl; lia|].
      assert (sim e (effectTrackDepth s0 + 1) (run_enter e s0) (run_enter e s_hi)) as Hs.
      { apply sim_enter; try done; try lia. by apply Hclean0. }
      apply (sim_tracks e _ rs) in Hs; [|lia].
      apply sim_exit in Hs as (Ht & Hm & _); [|lia].
      split.
      + intros d Hx. unfold s' in Hx |- *. apply Hm in Hx.
        destruct (H1 d Hx) as (t & k & Hin & Hd).
        exists t, k. split; [done|]. unfold dep_of in *. by rewrite Ht.
      + intros d x Hne. unfold s'. rewrite Hm. by rewrite H2.
    - destruct (run_hi_edges e rs s0 Hg0 Hge) as [H1 H2]. split; [exact H1|].
      intros d x Hne. unfold s'. by rewrite H2. }
  exists s'. split; [exact Hrun|].
  assert (∀ d, e ∈ members_of d s' ↔ ∃ t k, (t, k) ∈ rs ∧ dep_of t k s' = Some d)
    as Hiff.
  { intros d. split; [apply Honly|].
    intros (t & k & Hin & Hd). destruct (Hsub t k Hin) as (d' & Hd' & Hx). congruence. }
  split; [exact Hiff|]. split; [|exact Hoth].
  intros d. rewrite <- Hiff. symmetry. apply (ok_sym _ Hg').
Qed.

Lemma heap_ok_w_map_state : heap_ok [] w_map_state.
Proof.
  apply (exec_heap_ok w_map_prog 20 (COp (OEffect (PlainFn 0) None)) []
           initial_state (Returned (VRunner 0))); [apply heap_ok_initial|].
  vm_compute. reflexivity.
Qed.

Lemma tm_ok_w_map_state : tm_ok w_map_state.
Proof.
  apply (exec_tm_ok w_map_prog 20 (COp (OEffect (PlainFn 0) None))
           initial_state (Returned (VRunner 0))); [apply (tm_ok_empty [])|].
  vm_compute. reflexivity.
Qed.

Lemma clean_at_w_map_state : clean_at 1 w_map_state.
Proof.
  intros [|[|d]] dep Hd; vm_compute in Hd; [| |done]; by injection Hd as <-.
Qed.

Lemma run_subscribes_to_what_it_reads_witness :
  ∃ s',
    deps_of 0 w_map_state = [0%nat; 1%nat]
    ∧ exec w_reader 5 (COp (ORun 0)) w_map_state = Some (Returned (VNum 1), s')
    ∧ (∀ d, d ∈ deps_of 0 s'
            ↔ ∃ t k, (t, k) ∈ [(w_obj, KStr "x")] ∧ dep_of t k s' = Some d)
    ∧ (∀ d, 0%nat ∈ members_of d s'
            ↔ ∃ t k, (t, k) ∈ [(w_obj, KStr "x")] ∧ dep_of t k s' = Some d).
Proof.
  destruct (run_subscribes_to_what_it_reads w_reader 0
              (mkEffect true [0%nat; 1%nat] false None 0 None)
              [(w_obj, KStr "x")] (VNum 1) [] w_map_state)
    as (s' & H1 & H2 & H3 & _).
  - exact heap_ok_w_map_state.
  - exact tm_ok_w_map_state.
  - apply not_elem_of_nil.
  - reflexivity.
  - reflexivity.
  - reflexivity.
  - intros _. exact clean_at_w_map_state.
  - exists s'. split; [reflexivity|]. split; [exact H1|]. split; [exact H3|exact H2].
Defined.

(** ** The runner of a stopped effect *)

Lemma tracks_inactive rs : ∀ s, activeEffect s = None → tracks rs s = s.
Proof.
  induction rs as [|[t k] rs IH]; intros s H; [done|].
  simpl. assert (track t k s = s) as ->; [|by apply IH].
  unfold track, isTracking. rewrite H. by rewrite andb_false_r.
Qed.

(** X18: the runner of a stopped effect is its function and nothing more.
    [run] of a stopped effect whose function reads the keys [rs] returns the
    function's value with the state of those reads made in the caller's
    context: the reads are recorded for the effect that is active at the
    call, if there is one, and with no effect active the state is left as
    it is, the stopped effect being subscribed to nothing. *)
Theorem stopped_run_is_plain_call (prog : FnId → Script) (e : EffId)
    (eff : ReactiveEffect) (rs : list (Target * Key)) (v : Value) (s : State) :
  effects s !! e = Some eff → active eff = false →
  prog (fn eff) = mkScript (reads rs) (Return v) →
  exec prog (length rs + 4) (COp (ORun e)) s
  = Some (Returned v, tracks rs (emit (EvRun e) s))
  ∧ (activeEffect s = None → tracks rs (emit (EvRun e) s) = emit (EvRun e) s).
Proof.
  intros He Ha Hprog. split.
  - replace (length rs + 4)%nat with (S (S (length rs + 2))) by lia.
    rewrite (exec_run_inactive _ _ _ _ _ He Ha), exec_S. simpl. rewrite Hprog. simpl.
    by apply exec_reads.
  - intros Hact. by apply tracks_inactive.
Qed.

Lemma stopped_run_is_plain_call_witness :
  exec w_reader 5 (COp (ORun 0)) (w_state [set_active false (w_eff 0)])
  = Some (Returned (VNum 1), emit (EvRun 0) (w_state [set_active false (w_eff 0)]))
  ∧ deps_of 1
      (tracks [(w_obj, KStr "x")]
         (emit (EvRun 0) (run_enter 1 (w_state [set_active false (w_eff 0); w_eff 1]))))
    = [0%nat].
Proof.
  destruct (stopped_run_is_plain_call w_reader 0 (set_active false (w_eff 0))
              [(w_obj, KStr "x")] (VNum 1) (w_state [set_active false (w_eff 0)]))
    as [H1 H2]; [reflexivity..|].
  split; [|reflexivity].
  rewrite <- (H2 eq_refl). exact H1.
Defined.
